(** * futologia: the soccer event model and its event-type priors

    A shallow embedding of [soccer_events/core.py],
    [soccer_events/probabilistic.py], [soccer_events/statsbomb_loader.py]
    and of the event endpoints of [app.py].

    Conventions of the embedding:
    - Python objects that are shared and mutated ([Event], [PossessionNode])
      live in a store and are named by their address; [is] is equality of
      addresses.  Addresses are handed out by a counter, so a later object
      has a larger address.
    - Python [float]s are exact rationals ([Qc]); rounding, infinities and
      NaN are outside the model.
    - A Python [dict] is a [gmap]. *)

From Stdlib Require Import QArith Qcanon.
From stdpp Require Import base numbers option list sorting gmap strings fin_maps.

Local Open Scope Qc_scope.

(** ** core.py: the data model *)

Inductive EventType :=
  | PASS | SHOT | FOUL | TURNOVER | TACKLE
  | DRIBBLE | INTERCEPTION | SAVE | CLEARANCE | OTHER.

#[global] Instance EventType_eq_dec : EqDecision EventType.
Proof. solve_decision. Defined.

(** The members of the enumeration, in definition order: what
    [for et in EventType] walks through. *)
Definition all_event_types : list EventType :=
  [PASS; SHOT; FOUL; TURNOVER; TACKLE; DRIBBLE; INTERCEPTION; SAVE; CLEARANCE; OTHER].

Definition EventType_index (et : EventType) : nat :=
  match et with
  | PASS => 0 | SHOT => 1 | FOUL => 2 | TURNOVER => 3 | TACKLE => 4
  | DRIBBLE => 5 | INTERCEPTION => 6 | SAVE => 7 | CLEARANCE => 8 | OTHER => 9
  end.

#[global] Instance EventType_countable : Countable EventType.
Proof.
  refine (inj_countable' EventType_index
            (λ n, default OTHER (all_event_types !! n)) _).
  by intros [].
Defined.

(** The [value] of a member, and the lookup [EventType(value)]. *)
Definition EventType_value (et : EventType) : string :=
  match et with
  | PASS => "PASS" | SHOT => "SHOT" | FOUL => "FOUL" | TURNOVER => "TURNOVER"
  | TACKLE => "TACKLE" | DRIBBLE => "DRIBBLE" | INTERCEPTION => "INTERCEPTION"
  | SAVE => "SAVE" | CLEARANCE => "CLEARANCE" | OTHER => "OTHER"
  end.

Definition EventType_of_value (v : string) : option EventType :=
  list_find (λ et, EventType_value et = v) all_event_types ≫= λ p, Some p.2.

(** Addresses of events and of possession nodes. *)
Abbreviation eref := nat (only parsing).
Abbreviation pref := nat (only parsing).

(** [ev_x] and [ev_y] are the attributes [x] and [y]. *)
Record Event := mkEvent {
  match_time : Qc;
  event_type : EventType;
  team : string;
  player : option string;
  description : option string;
  ev_x : option Qc;
  ev_y : option Qc;
  tags : gmap string bool;
  prev_in_possession : option eref;
  next_in_possession : option eref;
  possession : option pref
}.

(** [poss_id] is the attribute [id]. *)
Record PossessionNode := mkPossessionNode {
  poss_id : Z;
  team_in_possession : string;
  prev_possession : option pref;
  next_possession : option pref;
  first_event : option eref;
  last_event : option eref
}.

(** The attributes of a [Match]; [_events] is the flat list of all
    events. *)
Record Match := mkMatch {
  home_team : string;
  away_team : string;
  _first_possession : option pref;
  _last_possession : option pref;
  _events : list eref;
  _next_possession_id : Z
}.

(** One match together with the objects reachable from it. *)
Record Store := mkStore {
  events : gmap eref Event;
  possessions : gmap pref PossessionNode;
  next_eref : eref;
  next_pref : pref;
  the_match : Match
}.

(** ** probabilistic.py: event-type priors *)

Record EventTypePrior := mkEventTypePrior {
  alpha : Qc;
  counts : gmap EventType Qc
}.

(** [{et: 0.0 for et in EventType}], the default of [counts]. *)
Definition default_counts : gmap EventType Qc :=
  list_to_map ((λ et, (et, 0)) <$> all_event_types).

(** [EventTypePrior(alpha=a)]. *)
Definition new_prior (a : Qc) : EventTypePrior :=
  {| alpha := a; counts := default_counts |}.

(** One turn of the loop of [update_from_events] on the label [et]. *)
Definition observe (c : gmap EventType Qc) (et : EventType) : gmap EventType Qc :=
  match c !! et with
  | Some v => <[et := v + 1]> c
  | None => <[et := 1]> c
  end.

Definition update_from_events (p : EventTypePrior) (evs : list Event) : EventTypePrior :=
  {| alpha := alpha p;
     counts := foldl (λ c ev, observe c (event_type ev)) (counts p) evs |}.

(** [sum(self.counts.values())]. *)
Definition sum_values (c : gmap EventType Qc) : Qc :=
  map_fold (λ _ v acc, v + acc) 0 c.

Definition Qc_of_nat (n : nat) : Qc := Qc_of_Z (Z.of_nat n).

(** [len(self.counts) or len(EventType)]. *)
Definition label_count (p : EventTypePrior) : nat :=
  if decide (size (counts p) = 0%nat) then length all_event_types
  else size (counts p).

Definition total_mass (p : EventTypePrior) : Qc :=
  sum_values (counts p) + alpha p * Qc_of_nat (label_count p).

Definition posterior_prob (p : EventTypePrior) (et : EventType) : Qc :=
  let k := label_count p in
  let num := default 0 (counts p !! et) + alpha p in
  let denom := sum_values (counts p) + alpha p * Qc_of_nat k in
  if decide (denom ≤ 0) then 1 / Qc_of_nat k else num / denom.

Definition probs (p : EventTypePrior) : gmap EventType Qc :=
  let k := label_count p in
  let denom := sum_values (counts p) + alpha p * Qc_of_nat k in
  if decide (denom ≤ 0) then (λ _, 1 / Qc_of_nat k) <$> counts p
  else (λ c, (c + alpha p) / denom) <$> counts p.

(** [EventTypePrior.from_events(events, alpha)]. *)
Definition prior_from_events (evs : list Event) (a : Qc) : EventTypePrior :=
  update_from_events (new_prior a) evs.

(** The formula of the specification read literally, with [K] the number
    of labels present in [counts]. *)
Definition posterior_prob_spec (p : EventTypePrior) (et : EventType) : Qc :=
  let k := Qc_of_nat (size (counts p)) in
  let denom := sum_values (counts p) + alpha p * k in
  if decide (denom ≤ 0) then 1 / k
  else (default 0 (counts p !! et) + alpha p) / denom.

(** An event that carries the label [et]; the priors read nothing else. *)
Definition labelled (et : EventType) : Event :=
  mkEvent 0 et "" None None None None ∅ None None None.

Section StateEventTypePriors.
(** The state keys: any hashable value. *)
Context {K : Type} `{Countable K}.

Record StateEventTypePriors := mkStateEventTypePriors {
  st_alpha : Qc;
  priors : gmap K EventTypePrior
}.

(** [_get_or_create]: the collection after the call, and the prior
    stored under [state], which is the object returned. *)
Definition _get_or_create (sp : StateEventTypePriors) (state : K)
  : StateEventTypePriors * EventTypePrior :=
  match priors sp !! state with
  | Some p => (sp, p)
  | None =>
      let p := new_prior (st_alpha sp) in
      ({| st_alpha := st_alpha sp; priors := <[state := p]> (priors sp) |}, p)
  end.

Definition get_prior := _get_or_create.

(** One turn of the loop of [update_from_events]: the prior returned by
    [_get_or_create] is the stored object, so updating it updates the
    entry of [state]. *)
Definition state_observe (key_fn : Event → K) (sp : StateEventTypePriors) (ev : Event)
  : StateEventTypePriors :=
  let state := key_fn ev in
  let '(sp1, prior) := _get_or_create sp state in
  {| st_alpha := st_alpha sp1;
     priors := <[state := update_from_events prior [ev]]> (priors sp1) |}.

Definition state_update_from_events (sp : StateEventTypePriors)
    (evs : list Event) (key_fn : Event → K) : StateEventTypePriors :=
  foldl (state_observe key_fn) sp evs.

(** [StateEventTypePriors.from_events(events, key_fn, alpha)]. *)
Definition state_from_events (evs : list Event) (key_fn : Event → K) (a : Qc)
  : StateEventTypePriors :=
  state_update_from_events {| st_alpha := a; priors := ∅ |} evs key_fn.

(** The count of [et] summed over every state key. *)
Definition count_over_states (sp : StateEventTypePriors) (et : EventType) : Qc :=
  map_fold (λ _ p acc, default 0 (counts p !! et) + acc) 0 (priors sp).
End StateEventTypePriors.

Arguments StateEventTypePriors K {_ _}.

(** How often the label [et] occurs in a list of events. *)
Definition occurrences (et : EventType) (evs : list Event) : nat :=
  length (filter (λ ev, event_type ev = et) evs).

(** A count map that tracks every member of the enumeration. *)
Definition tracks_all (c : gmap EventType Qc) : Prop :=
  ∀ et, is_Some (c !! et).

(** The count of [et] in one prior, as [counts.get(et, 0)]. *)
Definition count_of (et : EventType) (p : EventTypePrior) : Qc :=
  default 0 (counts p !! et).

(** ** core.py: operations on the store *)

(** Attribute assignments [ev.f = v] and [node.f = v]. *)
Definition with_match_time (v : Qc) (ev : Event) : Event :=
  mkEvent v (event_type ev) (team ev) (player ev) (description ev) (ev_x ev)
    (ev_y ev) (tags ev) (prev_in_possession ev) (next_in_possession ev) (possession ev).
Definition with_event_type (v : EventType) (ev : Event) : Event :=
  mkEvent (match_time ev) v (team ev) (player ev) (description ev) (ev_x ev)
    (ev_y ev) (tags ev) (prev_in_possession ev) (next_in_possession ev) (possession ev).
Definition with_team (v : string) (ev : Event) : Event :=
  mkEvent (match_time ev) (event_type ev) v (player ev) (description ev) (ev_x ev)
    (ev_y ev) (tags ev) (prev_in_possession ev) (next_in_possession ev) (possession ev).
Definition with_player (v : option string) (ev : Event) : Event :=
  mkEvent (match_time ev) (event_type ev) (team ev) v (description ev) (ev_x ev)
    (ev_y ev) (tags ev) (prev_in_possession ev) (next_in_possession ev) (possession ev).
Definition with_description (v : option string) (ev : Event) : Event :=
  mkEvent (match_time ev) (event_type ev) (team ev) (player ev) v (ev_x ev)
    (ev_y ev) (tags ev) (prev_in_possession ev) (next_in_possession ev) (possession ev).
Definition with_x (v : option Qc) (ev : Event) : Event :=
  mkEvent (match_time ev) (event_type ev) (team ev) (player ev) (description ev) v
    (ev_y ev) (tags ev) (prev_in_possession ev) (next_in_possession ev) (possession ev).
Definition with_y (v : option Qc) (ev : Event) : Event :=
  mkEvent (match_time ev) (event_type ev) (team ev) (player ev) (description ev)
    (ev_x ev) v (tags ev) (prev_in_possession ev) (next_in_possession ev) (possession ev).
Definition with_tags (v : gmap string bool) (ev : Event) : Event :=
  mkEvent (match_time ev) (event_type ev) (team ev) (player ev) (description ev)
    (ev_x ev) (ev_y ev) v (prev_in_possession ev) (next_in_possession ev) (possession ev).
Definition with_prev (v : option eref) (ev : Event) : Event :=
  mkEvent (match_time ev) (event_type ev) (team ev) (player ev) (description ev)
    (ev_x ev) (ev_y ev) (tags ev) v (next_in_possession ev) (possession ev).
Definition with_next (v : option eref) (ev : Event) : Event :=
  mkEvent (match_time ev) (event_type ev) (team ev) (player ev) (description ev)
    (ev_x ev) (ev_y ev) (tags ev) (prev_in_possession ev) v (possession ev).
Definition with_possession (v : option pref) (ev : Event) : Event :=
  mkEvent (match_time ev) (event_type ev) (team ev) (player ev) (description ev)
    (ev_x ev) (ev_y ev) (tags ev) (prev_in_possession ev) (next_in_possession ev) v.

Definition with_prev_possession (v : option pref) (n : PossessionNode) : PossessionNode :=
  mkPossessionNode (poss_id n) (team_in_possession n) v (next_possession n)
    (first_event n) (last_event n).
Definition with_next_possession (v : option pref) (n : PossessionNode) : PossessionNode :=
  mkPossessionNode (poss_id n) (team_in_possession n) (prev_possession n) v
    (first_event n) (last_event n).
Definition with_first_event (v : option eref) (n : PossessionNode) : PossessionNode :=
  mkPossessionNode (poss_id n) (team_in_possession n) (prev_possession n)
    (next_possession n) v (last_event n).
Definition with_last_event (v : option eref) (n : PossessionNode) : PossessionNode :=
  mkPossessionNode (poss_id n) (team_in_possession n) (prev_possession n)
    (next_possession n) (first_event n) v.

(** Writing through an address. *)
Definition set_event (e : eref) (f : Event → Event) (s : Store) : Store :=
  mkStore (alter f e (events s)) (possessions s) (next_eref s) (next_pref s)
    (the_match s).
Definition set_node (p : pref) (f : PossessionNode → PossessionNode) (s : Store) : Store :=
  mkStore (events s) (alter f p (possessions s)) (next_eref s) (next_pref s)
    (the_match s).
Definition set_match (f : Match → Match) (s : Store) : Store :=
  mkStore (events s) (possessions s) (next_eref s) (next_pref s) (f (the_match s)).
Definition with_events (l : list eref) (m : Match) : Match :=
  mkMatch (home_team m) (away_team m) (_first_possession m) (_last_possession m)
    l (_next_possession_id m).

(** [Match(home_team, away_team)]. *)
Definition new_match (home away : string) : Store :=
  mkStore ∅ ∅ 0 0 (mkMatch home away None None [] 1).

(** [Match.new_possession]: the store after the call and the address of
    the node created. *)
Definition new_possession (team_in_possession : string) (s : Store) : Store * pref :=
  let m := the_match s in
  let r := next_pref s in
  let node := mkPossessionNode (_next_possession_id m) team_in_possession
                None None None None in
  let next_id := (_next_possession_id m + 1)%Z in
  match _last_possession m with
  | None =>
      (mkStore (events s) (<[r := node]> (possessions s)) (next_eref s) (S r)
         (mkMatch (home_team m) (away_team m) (Some r) (Some r) (_events m) next_id),
       r)
  | Some l =>
      (mkStore (events s)
         (alter (with_next_possession (Some r)) l
            (<[r := with_prev_possession (Some l) node]> (possessions s)))
         (next_eref s) (S r)
         (mkMatch (home_team m) (away_team m) (_first_possession m) (Some r)
            (_events m) next_id),
       r)
  end.

(** [PossessionNode.add_event(self, event)] with [self] at [p] and
    [event] at [e].  [None] only if [p] is not the address of a node, which
    no Python call can produce. *)
Definition poss_add_event (p : pref) (e : eref) (s : Store) : option Store :=
  node ← possessions s !! p;
  let s1 := set_event e (with_possession (Some p)) s in
  match last_event node with
  | None =>
      Some (set_node p (λ n, with_first_event (Some e) (with_last_event (Some e) n)) s1)
  | Some l =>
      let s2 := set_event e (with_prev (Some l)) s1 in
      let s3 := set_event l (with_next (Some e)) s2 in
      Some (set_node p (with_last_event (Some e)) s3)
  end.

(** [match_time] of the object at [e]. *)
Definition time_of (s : Store) (e : eref) : option Qc :=
  match_time <$> events s !! e.

(** The scan of [Match.add_event]:
    [while idx > 0 and self._events[idx - 1].match_time > ev.match_time]. *)
Fixpoint scan_back (s : Store) (t : Qc) (l : list eref) (idx : nat) : nat :=
  match idx with
  | O => O
  | S i =>
      match l !! i ≫= time_of s with
      | Some t' => if decide (t < t') then scan_back s t l i else idx
      | None => idx
      end
  end.

(** [l.insert(idx, e)] for [0 ≤ idx ≤ len(l)]. *)
Definition list_insert_at {A} (idx : nat) (x : A) (l : list A) : list A :=
  take idx l ++ x :: drop idx l.

(** The arguments of [Match.add_event]. *)
Record AddEvent := mkAddEvent {
  a_match_time : Qc;
  a_event_type : EventType;
  a_team : string;
  a_possession : option pref;
  a_player : option string;
  a_description : option string;
  a_x : option Qc;
  a_y : option Qc;
  a_tags : option (gmap string bool)
}.

(** [Match.add_event]: the store after the call and the address of the
    event created. *)
Definition add_event (a : AddEvent) (s : Store) : option (Store * eref) :=
  let '(s1, p) :=
    match a_possession a with
    | None => new_possession (a_team a) s
    | Some p => (s, p)
    end in
  let e := next_eref s1 in
  let ev := mkEvent (a_match_time a) (a_event_type a) (a_team a) (a_player a)
              (a_description a) (a_x a) (a_y a) (default ∅ (a_tags a))
              None None None in
  let s2 := mkStore (<[e := ev]> (events s1)) (possessions s1) (S e) (next_pref s1)
              (the_match s1) in
  s3 ← poss_add_event p e s2;
  let l := _events (the_match s3) in
  let idx := scan_back s3 (a_match_time a) l (length l) in
  Some (set_match (with_events (list_insert_at idx e l)) s3, e).

(** [Match.iter_events]: [iter(self._events)]. *)
Definition Match_iter_events (s : Store) : list eref := _events (the_match s).



(** ** app.py: the event endpoints *)

(** Attribute reads through an address; an address held by the match is
    always that of an object. *)
Definition prev_of (s : Store) (e : eref) : option eref :=
  events s !! e ≫= prev_in_possession.
Definition next_of (s : Store) (e : eref) : option eref :=
  events s !! e ≫= next_in_possession.
Definition possession_of (s : Store) (e : eref) : option pref :=
  events s !! e ≫= possession.
Definition first_event_of (s : Store) (p : pref) : option eref :=
  possessions s !! p ≫= first_event.
Definition last_event_of (s : Store) (p : pref) : option eref :=
  possessions s !! p ≫= last_event.

(** [_get_event_by_index_or_404]: [None] is [abort(404)]. *)
Definition get_event_by_index (s : Store) (index : Z) : option eref :=
  let evs := Match_iter_events s in
  if decide ((index < 0)%Z ∨ (Z.of_nat (length evs) ≤ index)%Z) then None
  else evs !! Z.to_nat index.

(** What [float(data["match_time"])] makes of the JSON value. *)
Inductive json_float :=
  | JFloat (q : Qc)
  | JNotFloat.

(** The body of a PATCH request: for each key, whether it is present and
    with which value. *)
Record EventPatch := mkEventPatch {
  u_match_time : option json_float;
  u_event_type : option string;
  u_team : option string;
  u_player : option (option string);
  u_description : option (option string);
  u_x : option (option Qc);
  u_y : option (option Qc);
  u_tags : option (gmap string bool)
}.

(** [if field_name in data: setattr(ev, field_name, data[field_name])]. *)
Definition patch_field {A} (v : option A) (set : A → Event → Event)
    (e : eref) (s : Store) : Store :=
  match v with
  | Some a => set_event e (set a) s
  | None => s
  end.

(** [update_event]: the store left behind and the HTTP status. *)
Definition update_event (index : Z) (data : EventPatch) (s : Store) : Store * nat :=
  match get_event_by_index s index with
  | None => (s, 404)
  | Some e =>
      match u_match_time data with
      | Some JNotFloat => (s, 400)
      | mt =>
          let s1 := match mt with
                    | Some (JFloat q) => set_event e (with_match_time q) s
                    | _ => s
                    end in
          match u_event_type data with
          | Some v =>
              match EventType_of_value v with
              | None => (s1, 400)
              | Some et =>
                  let s2 := set_event e (with_event_type et) s1 in
                  let s3 := patch_field (u_team data) with_team e s2 in
                  let s4 := patch_field (u_player data) with_player e s3 in
                  let s5 := patch_field (u_description data) with_description e s4 in
                  let s6 := patch_field (u_x data) with_x e s5 in
                  let s7 := patch_field (u_y data) with_y e s6 in
                  (patch_field (u_tags data) with_tags e s7, 200)
              end
          | None =>
              let s3 := patch_field (u_team data) with_team e s1 in
              let s4 := patch_field (u_player data) with_player e s3 in
              let s5 := patch_field (u_description data) with_description e s4 in
              let s6 := patch_field (u_x data) with_x e s5 in
              let s7 := patch_field (u_y data) with_y e s6 in
              (patch_field (u_tags data) with_tags e s7, 200)
          end
      end
  end.

(** [l.remove(x)]: drops the first item that is [x]; [None] is the
    [ValueError] raised when there is none.  Python tests each item with
    [item is x or item == x]; the items are addresses and the test is
    taken to be the identity test, which is the one that finds [x] itself. *)
Fixpoint list_remove (x : eref) (l : list eref) : option (list eref) :=
  match l with
  | [] => None
  | y :: l' =>
      if decide (y = x) then Some l' else cons y <$> list_remove x l'
  end.

(** The four statements of [delete_event] that take the target out of
    its possession's chain. *)

(** [if target.prev_in_possession is not None:
       target.prev_in_possession.next_in_possession = target.next_in_possession] *)
Definition unlink_prev (target : eref) (s : Store) : Store :=
  match prev_of s target with
  | Some a => set_event a (with_next (next_of s target)) s
  | None => s
  end.

(** [if target.next_in_possession is not None:
       target.next_in_possession.prev_in_possession = target.prev_in_possession] *)
Definition unlink_next (target : eref) (s : Store) : Store :=
  match next_of s target with
  | Some b => set_event b (with_prev (prev_of s target)) s
  | None => s
  end.

(** [if pos.first_event is target: pos.first_event = target.next_in_possession] *)
Definition fix_first (target : eref) (pos : pref) (s : Store) : Store :=
  if decide (first_event_of s pos = Some target)
  then set_node pos (with_first_event (next_of s target)) s
  else s.

(** [if pos.last_event is target: pos.last_event = target.prev_in_possession] *)
Definition fix_last (target : eref) (pos : pref) (s : Store) : Store :=
  if decide (last_event_of s pos = Some target)
  then set_node pos (with_last_event (prev_of s target)) s
  else s.

(** [if target.possession is not None: ...] *)
Definition fix_possession (target : eref) (s : Store) : Store :=
  match possession_of s target with
  | Some pos => fix_last target pos (fix_first target pos s)
  | None => s
  end.

(** [delete_event]: the store left behind and the HTTP status. *)
Definition delete_event (index : Z) (s : Store) : Store * nat :=
  let evs := Match_iter_events s in
  if decide ((index < 0)%Z ∨ (Z.of_nat (length evs) ≤ index)%Z) then (s, 404)
  else
    match evs !! Z.to_nat index with
    | None => (s, 404)
    | Some target =>
        let s3 := fix_possession target (unlink_next target (unlink_prev target s)) in
        match list_remove target (_events (the_match s3)) with
        | Some l => (set_match (with_events l) s3, 204)
        | None => (s3, 500)
        end
    end.

(** ** Sequences of calls on one match *)

Inductive op :=
  | OpNewPossession (team_in_possession : string)
  | OpAddEvent (a : AddEvent)
  | OpUpdateEvent (index : Z) (data : EventPatch)
  | OpDeleteEvent (index : Z).

(** One call.  [None] only for an [add_event] whose [possession] argument
    is not the address of a node; an endpoint that aborts leaves the store
    it had reached. *)
Definition step (s : Store) (o : op) : option Store :=
  match o with
  | OpNewPossession t => Some (new_possession t s).1
  | OpAddEvent a => fst <$> add_event a s
  | OpUpdateEvent i d => Some (update_event i d s).1
  | OpDeleteEvent i => Some (delete_event i s).1
  end.

Fixpoint run (s : Store) (ops : list op) : option Store :=
  match ops with
  | [] => Some s
  | o :: ops' => s' ← step s o; run s' ops'
  end.

(** ** Invariants of the store *)

(** [e1] comes before [e2] in a stable time order: an earlier time, or the
    same time and created earlier. *)
Definition precedes (s : Store) (e1 e2 : eref) : Prop :=
  ∃ t1 t2, time_of s e1 = Some t1 ∧ time_of s e2 = Some t2
           ∧ (t1 < t2 ∨ (t1 = t2 ∧ (e1 < e2)%nat)).

(** The flat list is in stable time order and holds addresses of objects
    created so far. *)
Definition timeline_ok (s : Store) : Prop :=
  StronglySorted (precedes s) (_events (the_match s))
  ∧ Forall (λ e, (e < next_eref s)%nat ∧ is_Some (time_of s e))
      (_events (the_match s)).

(** A call [add_event(match_time=t, event_type=PASS, team="Team A")]. *)
Definition pass_at (t : Z) : AddEvent :=
  mkAddEvent (Qc_of_Z t) PASS "Team A" None None None None None None.

(** [L] is the chain of the possession at [p]: its events in order, each
    owned by [p] and linked to its neighbours in [L]. *)
Definition linked (s : Store) (p : pref) (L : list eref) : Prop :=
  NoDup L ∧
  ∀ i e, L !! i = Some e →
    ∃ ev, events s !! e = Some ev
      ∧ possession ev = Some p
      ∧ prev_in_possession ev = match i with O => None | S j => L !! j end
      ∧ next_in_possession ev = L !! S i.

(** The object graph is well formed, with [G] giving the chain of every
    possession. *)
Record chains_ok (s : Store) (G : gmap pref (list eref)) : Prop := {
  ok_dom : ∀ p, is_Some (G !! p) ↔ is_Some (possessions s !! p);
  ok_chain : ∀ p L, G !! p = Some L →
    ∃ node, possessions s !! p = Some node
      ∧ first_event node = head L ∧ last_event node = last L ∧ linked s p L;
  ok_listed : ∀ e, e ∈ _events (the_match s) →
    ∃ p L, possession_of s e = Some p ∧ G !! p = Some L ∧ e ∈ L;
  ok_nodup : NoDup (_events (the_match s));
  ok_fresh_e : ∀ e, is_Some (events s !! e) → (e < next_eref s)%nat;
  ok_fresh_p : ∀ p, is_Some (possessions s !! p) → (p < next_pref s)%nat
}.

(** The same call with the [possession] argument given. *)
Definition with_a_possession (p : pref) (a : AddEvent) : AddEvent :=
  mkAddEvent (a_match_time a) (a_event_type a) (a_team a) (Some p) (a_player a)
    (a_description a) (a_x a) (a_y a) (a_tags a).

(** The object that [add_event] creates, once linked into a chain whose
    last event is [prev]. *)
Definition created_event (a : AddEvent) (p : pref) (prev : option eref) : Event :=
  mkEvent (a_match_time a) (a_event_type a) (a_team a) (a_player a)
    (a_description a) (a_x a) (a_y a) (default ∅ (a_tags a)) prev None (Some p).

(** [f] leaves the links and the owner of an event alone. *)
Definition keeps_links (f : Event → Event) : Prop :=
  ∀ ev, prev_in_possession (f ev) = prev_in_possession ev
        ∧ next_in_possession (f ev) = next_in_possession ev
        ∧ possession (f ev) = possession ev.

(** [s'] is [s] with the object at [e] rewritten by some [f] that keeps
    its links. *)
Definition scalar_write (e : eref) (s s' : Store) : Prop :=
  ∃ f, keeps_links f ∧ s' = set_event e f s.

(** A sequence of calls used as a running example: three events in one
    possession, added out of time order. *)
Definition demo_ops : list op :=
  [OpAddEvent (pass_at 10);
   OpAddEvent (with_a_possession 0 (pass_at 5));
   OpAddEvent (with_a_possession 0 (pass_at 20))].

(** A PATCH body that sets [match_time] only. *)
Definition patch_time (t : Z) : EventPatch :=
  mkEventPatch (Some (JFloat (Qc_of_Z t))) None None None None None None None.

(** The write that an [update_event] which runs to its end performs on
    its target: [mt] is the time it sets, [et] the label it sets. *)
Definition patch_event (mt : option Qc) (et : option EventType) (data : EventPatch)
    : Event → Event :=
  default id (with_tags <$> u_tags data)
  ∘ default id (with_y <$> u_y data)
  ∘ default id (with_x <$> u_x data)
  ∘ default id (with_description <$> u_description data)
  ∘ default id (with_player <$> u_player data)
  ∘ default id (with_team <$> u_team data)
  ∘ default id (with_event_type <$> et)
  ∘ default id (with_match_time <$> mt).

(** ** statsbomb_loader.py *)

Record StatsBombConfig := mkStatsBombConfig {
  pitch_length : Qc;
  pitch_width : Qc
}.

(** [StatsBombConfig()]. *)
Definition default_config : StatsBombConfig :=
  mkStatsBombConfig (Qc_of_Z 120) (Qc_of_Z 80).

(** One record of a StatsBomb events file, as far as the loader reads it.
    A field is [None] when the key (or the object it is nested in) is
    absent or null. *)
Record SBEvent := mkSBEvent {
  sb_team_name : option string;            (* ev["team"]["name"] *)
  sb_type_name : option string;            (* ev["type"]["name"] *)
  sb_minute : option Qc;                   (* ev["minute"] *)
  sb_second : option Qc;                   (* ev["second"] *)
  sb_possession : option Z;                (* ev["possession"], when an int *)
  sb_possession_team_name : option string; (* ev["possession_team"]["name"] *)
  sb_location : option (Qc * Qc);          (* ev["location"][0], [1] as floats *)
  sb_player_name : option string;          (* ev["player"]["name"] *)
  sb_shot_outcome_name : option string     (* ev["shot"]["outcome"]["name"] *)
}.

(** The value of a string-or-None, when it is truthy. *)
Definition truthy (o : option string) : option string :=
  match o with
  | Some s => if decide (s = "") then None else Some s
  | None => None
  end.

(** The loop of [_infer_team_names], entered with the names found so far. *)
Fixpoint infer_loop (names : list string) (evs : list SBEvent) : list string :=
  match evs with
  | [] => names
  | ev :: rest =>
      let names' :=
        match truthy (sb_team_name ev) with
        | Some name => if decide (name ∈ names) then names else names ++ [name]
        | None => names
        end in
      if decide (2 ≤ length names')%nat then names' else infer_loop names' rest
  end.

(** [_infer_team_names]; [None] is the [ValueError]. *)
Definition _infer_team_names (evs : list SBEvent) : option (string * string) :=
  match infer_loop [] evs with
  | [a; b] => Some (a, b)
  | _ => None
  end.

(** [str.lower] on ASCII. *)
Definition ascii_lower (c : Ascii.ascii) : Ascii.ascii :=
  let n := Ascii.nat_of_ascii c in
  if decide (65 ≤ n ∧ n ≤ 90)%nat then Ascii.ascii_of_nat (n + 32) else c.

Fixpoint lower (s : string) : string :=
  match s with
  | EmptyString => EmptyString
  | String c r => String (ascii_lower c) (lower r)
  end.

Definition _map_event_type (sb_type : string) : EventType :=
  let name := lower sb_type in
  if decide (name = "pass") then PASS
  else if decide (name = "shot") then SHOT
  else if decide (name ∈ ["foul committed"; "foul won"]) then FOUL
  else if decide (name ∈ ["dispossessed"; "miscontrol"]) then TURNOVER
  else if decide (name ∈ ["tackle"; "block"; "clearance"]) then
    if decide (name = "clearance") then CLEARANCE else TACKLE
  else if decide (name ∈ ["dribble"; "carry"]) then DRIBBLE
  else if decide (name ∈ ["ball recovery"; "interception"]) then INTERCEPTION
  else if decide (name ∈ ["goalkeeper"; "save"]) then SAVE
  else OTHER.

(** How a call ends. *)
Inductive exn :=
  | ValueError
  | ZeroDivisionError
  | BadAddress. (* an address that names no object: not a Python outcome *)

Inductive outcome (A : Type) :=
  | Returned (a : A)
  | Raised (e : exn).
Arguments Returned {A} a.
Arguments Raised {A} e.

(** One turn of the loop of [match_from_statsbomb_events], on the match
    and the [possessions] dict built so far. *)
Definition ingest_event (config : StatsBombConfig)
    (st : Store * gmap Z pref) (ev : SBEvent) : outcome (Store * gmap Z pref) :=
  let '(s, poss) := st in
  match truthy (sb_type_name ev) with
  | None => Returned st
  | Some sb_type_name =>
      if decide (sb_type_name ∈ ["Starting XI"; "Half Start"; "Half End"; "Substitution"])
      then Returned st
      else
        match sb_minute ev, sb_second ev with
        | Some minute, Some second =>
            let match_time := minute * Qc_of_Z 60 + second in
            match truthy (sb_team_name ev) with
            | None => Returned st
            | Some team_name =>
                let poss_team_name :=
                  default team_name (truthy (sb_possession_team_name ev)) in
                let '(s1, poss1, possession) :=
                  match sb_possession ev with
                  | Some poss_id =>
                      match poss !! poss_id with
                      | Some p => (s, poss, p)
                      | None =>
                          let '(s1, p) := new_possession poss_team_name s in
                          (s1, <[poss_id := p]> poss, p)
                      end
                  | None =>
                      let '(s1, p) := new_possession poss_team_name s in
                      (s1, poss, p)
                  end in
                let xy :=
                  match sb_location ev with
                  | Some (raw_x, raw_y) =>
                      if decide (pitch_length config = 0 ∨ pitch_width config = 0)
                      then Raised ZeroDivisionError
                      else Returned (Some (raw_x / pitch_length config),
                                     Some (raw_y / pitch_width config))
                  | None => Returned (None, None)
                  end in
                match xy with
                | Raised e => Raised e
                | Returned (x, y) =>
                    let etype := _map_event_type sb_type_name in
                    let is_goal :=
                      bool_decide (etype = SHOT
                                   ∧ sb_shot_outcome_name ev = Some "Goal") in
                    let tags : gmap string bool :=
                      if is_goal then {[ "is_goal" := true ]} else ∅ in
                    let description := if is_goal then "Goal" else sb_type_name in
                    match add_event
                            (mkAddEvent match_time etype team_name (Some possession)
                               (sb_player_name ev) (Some description) x y (Some tags))
                            s1 with
                    | Some (s2, _) => Returned (s2, poss1)
                    | None => Raised BadAddress
                    end
                end
            end
        | _, _ => Returned st
        end
  end.

Fixpoint ingest_loop (config : StatsBombConfig) (evs : list SBEvent)
    (st : Store * gmap Z pref) : outcome (Store * gmap Z pref) :=
  match evs with
  | [] => Returned st
  | ev :: rest =>
      match ingest_event config st ev with
      | Returned st' => ingest_loop config rest st'
      | Raised e => Raised e
      end
  end.

(** [match_from_statsbomb_events(events, config=config)]. *)
Definition match_from_statsbomb_events (config : StatsBombConfig)
    (evs : list SBEvent) : outcome Store :=
  match _infer_team_names evs with
  | None => Raised ValueError
  | Some (home_team, away_team) =>
      match ingest_loop config evs (new_match home_team away_team, ∅) with
      | Returned (s, _) => Returned s
      | Raised e => Raised e
      end
  end.

(** The registry [_matches] of app.py, and [_create_demo_match]: [file]
    is the parsed content of the data file when it exists, [synthetic] the
    match that the random generator builds when it is run. *)
Definition _create_demo_match (match_id : string) (file : option (list SBEvent))
    (synthetic : Store) (_matches : gmap string Store) : gmap string Store :=
  if decide (is_Some (_matches !! match_id)) then _matches
  else
    match file with
    | Some evs =>
        match match_from_statsbomb_events default_config evs with
        | Returned m => <[match_id := m]> _matches
        | Raised _ => <[match_id := synthetic]> _matches
        end
    | None => <[match_id := synthetic]> _matches
    end.

(** The reading of the specification: a record without [minute] or
    [second] makes the whole ingestion fail. *)
Definition missing_timing (ev : SBEvent) : Prop :=
  sb_minute ev = None ∨ sb_second ev = None.

Definition raises {A} (o : outcome A) : Prop :=
  match o with Raised _ => True | Returned _ => False end.

(** Three records of two teams; the second one has no [minute]. *)
Definition sb_pass : SBEvent :=
  mkSBEvent (Some "Barcelona") (Some "Pass") (Some (Qc_of_Z 0)) (Some (Qc_of_Z 5))
    (Some 1%Z) (Some "Barcelona") (Some (Qc_of_Z 60, Qc_of_Z 40)) (Some "Xavi") None.
Definition sb_carry_no_minute : SBEvent :=
  mkSBEvent (Some "Barcelona") (Some "Carry") None (Some (Qc_of_Z 7))
    (Some 1%Z) (Some "Barcelona") None (Some "Xavi") None.
Definition sb_goal : SBEvent :=
  mkSBEvent (Some "Getafe") (Some "Shot") (Some (Qc_of_Z 1)) (Some (Qc_of_Z 2))
    (Some 2%Z) (Some "Getafe") (Some (Qc_of_Z 100, Qc_of_Z 40)) (Some "Soldado")
    (Some "Goal").
Definition sb_sample : list SBEvent := [sb_pass; sb_carry_no_minute; sb_goal].

(** A call that does not assign [match_time] to an existing event. *)
Definition keeps_times (o : op) : Prop :=
  match o with
  | OpUpdateEvent _ data => u_match_time data = None
  | _ => True
  end.

(** Every entry of the loader's [possessions] dict is a node of the match. *)
Definition dict_ok (st : Store * gmap Z pref) : Prop :=
  ∀ poss_id p, st.2 !! poss_id = Some p → is_Some (possessions st.1 !! p).

(** ** core.py: the remaining queries *)

(** Following one link field of the possession nodes from [cur] until
    [None]; [None] when the fuel does not suffice. *)
Fixpoint walk_nodes (link : PossessionNode → option pref) (s : Store) (fuel : nat)
    (cur : option pref) : option (list pref) :=
  match cur with
  | None => Some []
  | Some p =>
      match fuel with
      | O => None
      | S fuel' =>
          node ← possessions s !! p;
          rest ← walk_nodes link s fuel' (link node);
          Some (p :: rest)
      end
  end.

(** [Match.iter_possessions] and [Match.iter_possessions_reverse]. *)
Definition iter_possessions (s : Store) (fuel : nat) : option (list pref) :=
  walk_nodes next_possession s fuel (_first_possession (the_match s)).
Definition iter_possessions_reverse (s : Store) (fuel : nat) : option (list pref) :=
  walk_nodes prev_possession s fuel (_last_possession (the_match s)).

(** The loop of [Match.events_in_time_range] over the rest [l] of
    [self._events]: [continue] before [start], [break] after [end]. *)
Fixpoint time_range_loop (s : Store) (start end_ : Qc) (l : list eref) : list eref :=
  match l with
  | [] => []
  | e :: l' =>
      match time_of s e with
      | Some t =>
          if decide (t < start) then time_range_loop s start end_ l'
          else if decide (end_ < t) then []
          else e :: time_range_loop s start end_ l'
      | None => []
      end
  end.

Definition events_in_time_range (s : Store) (start end_ : Qc) : list eref :=
  time_range_loop s start end_ (_events (the_match s)).

(** Attribute tests on the object at an address. *)
Definition event_has (s : Store) (P : Event → bool) (e : eref) : bool :=
  match events s !! e with
  | Some ev => P ev
  | None => false
  end.

(** [Match.events_by_type], called with the labels [types]. *)
Definition events_by_type (s : Store) (types : list EventType) : list eref :=
  filter (λ e, event_has s (λ ev, bool_decide (event_type ev ∈ types)) e)
    (_events (the_match s)).

(** [Match.shots_for_team]. *)
Definition shots_for_team (s : Store) (team_name : string) : list eref :=
  filter (λ e, event_has s (λ ev, bool_decide (team ev = team_name)) e)
    (events_by_type s [SHOT]).

(** [Match.goals_for_team]: [ev.team == team and ev.tags.get("is_goal")]. *)
Definition goals_for_team (s : Store) (team_name : string) : list eref :=
  filter (λ e, event_has s
                 (λ ev, bool_decide (team ev = team_name)
                        && bool_decide (tags ev !! "is_goal" = Some true)) e)
    (events_by_type s [SHOT]).

(** ** probabilistic.py: the remaining operations *)

(** [EventTypePrior.update_from_histogram].  The keys of [hist] are
    distinct, so each label is visited once, in whatever order. *)
Definition update_from_histogram (p : EventTypePrior) (hist : gmap EventType Qc)
    : EventTypePrior :=
  {| alpha := alpha p;
     counts := map_fold (λ et c acc,
                           match acc !! et with
                           | Some v => <[et := v + c]> acc
                           | None => <[et := c]> acc
                           end) (counts p) hist |}.

(** [EventTypePrior.to_dict]: [{et.value: p for et, p in self.probs().items()}]. *)
Definition to_dict (p : EventTypePrior) : gmap string Qc :=
  list_to_map ((λ kv, (EventType_value kv.1, kv.2)) <$> map_to_list (probs p)).




(** [sum(prior.posterior_prob(et) for et in EventType)]: what
    [posterior_prob] gives to the ten labels together. *)
Definition posterior_prob_total (p : EventTypePrior) : Qc :=
  foldr (λ et acc, posterior_prob p et + acc) 0 all_event_types.

(** [StateEventTypePriors.state_probs]. *)
Definition state_probs {K} `{Countable K} (sp : StateEventTypePriors K)
    : gmap K (gmap EventType Qc) :=
  probs <$> priors sp.

(** ** statsbomb_loader.py: what the loader reads of the team names *)

(** The truthy team names of the records, in order. *)
Definition team_names (evs : list SBEvent) : list string :=
  omap (λ ev, truthy (sb_team_name ev)) evs.


(** ** app.py: the remaining endpoints on one match *)

(** The search [for pos in match.iter_possessions(): if pos.id == possession_id]
    from the node [cur] on: [Some (Some p)] found at [p], [Some None] not
    found, [None] when the fuel does not suffice. *)
Fixpoint find_possession (s : Store) (possession_id : Z) (fuel : nat)
    (cur : option pref) : option (option pref) :=
  match cur with
  | None => Some None
  | Some p =>
      match fuel with
      | O => None
      | S fuel' =>
          node ← possessions s !! p;
          if decide (poss_id node = possession_id) then Some (Some p)
          else find_possession s possession_id fuel' (next_possession node)
      end
  end.

(** The body of a POST request to the events of a match: for each key,
    whether it is present and with which value. *)
Record EventPost := mkEventPost {
  c_match_time : option json_float;
  c_event_type : option string;
  c_team : option string;
  c_possession_id : option Z;
  c_player : option string;
  c_description : option string;
  c_x : option Qc;
  c_y : option Qc;
  c_tags : option (gmap string bool)
}.

(** [create_event]: the store left behind, the HTTP status, and the
    address of the event created; [None] when the fuel does not suffice. *)
Definition create_event (data : EventPost) (fuel : nat) (s : Store)
    : option (Store * nat * option eref) :=
  match c_match_time data with
  | Some (JFloat match_time) =>
      match truthy (c_event_type data) with
      | None => Some (s, 400%nat, None)
      | Some event_type_raw =>
          match EventType_of_value event_type_raw with
          | None => Some (s, 400%nat, None)
          | Some event_type =>
              match truthy (c_team data) with
              | None => Some (s, 400%nat, None)
              | Some team =>
                  let added possession :=
                    '(s', e) ← add_event
                       (mkAddEvent match_time event_type team possession
                          (c_player data) (c_description data) (c_x data) (c_y data)
                          (Some (default ∅ (c_tags data)))) s;
                    Some (s', 201%nat, Some e) in
                  match c_possession_id data with
                  | None => added None
                  | Some possession_id =>
                      found ← find_possession s possession_id fuel
                                (_first_possession (the_match s));
                      match found with
                      | None => Some (s, 400%nat, None)
                      | Some p => added (Some p)
                      end
                  end
              end
          end
      end
  | _ => Some (s, 400%nat, None)
  end.


(** [create_match] on the registry [_matches]: the registry left behind
    and the HTTP status. *)
Definition create_match (match_id home_team away_team : option string)
    (_matches : gmap string Store) : gmap string Store * nat :=
  match truthy match_id, truthy home_team, truthy away_team with
  | Some i, Some h, Some a =>
      if decide (is_Some (_matches !! i)) then (_matches, 409%nat)
      else (<[i := new_match h a]> _matches, 201%nat)
  | _, _, _ => (_matches, 400%nat)
  end.

(** [get_match]: the teams of the match, [None] for the 404. *)
Definition get_match (match_id : string) (_matches : gmap string Store)
    : option (string * string) :=
  s ← _matches !! match_id;
  Some (home_team (the_match s), away_team (the_match s)).

(** ** Further invariants *)

(** The possession nodes form one chain in creation order: the node at
    address [p] has id [p + 1] and is linked to its neighbours. *)
Definition poss_chain_ok (s : Store) : Prop :=
  let n := next_pref s in
  _next_possession_id (the_match s) = (Z.of_nat n + 1)%Z
  ∧ _first_possession (the_match s) = (if decide (n = 0%nat) then None else Some 0%nat)
  ∧ _last_possession (the_match s) = (if decide (n = 0%nat) then None else Some (pred n))
  ∧ ∀ p,
      if decide (p < n)%nat then
        ∃ node, possessions s !! p = Some node
          ∧ poss_id node = (Z.of_nat p + 1)%Z
          ∧ prev_possession node = match p with O => None | S q => Some q end
          ∧ next_possession node = (if decide (S p = n) then None else Some (S p))
      else possessions s !! p = None.

(** [s'] has the nodes of [s], with the same ids, teams and links to other
    nodes, and the same possession attributes of the match. *)
Definition same_skeleton (s s' : Store) : Prop :=
  next_pref s' = next_pref s
  ∧ _next_possession_id (the_match s') = _next_possession_id (the_match s)
  ∧ _first_possession (the_match s') = _first_possession (the_match s)
  ∧ _last_possession (the_match s') = _last_possession (the_match s)
  ∧ home_team (the_match s') = home_team (the_match s)
  ∧ away_team (the_match s') = away_team (the_match s)
  ∧ ∀ p, (λ n, (poss_id n, team_in_possession n, prev_possession n, next_possession n))
           <$> possessions s' !! p
         = (λ n, (poss_id n, team_in_possession n, prev_possession n, next_possession n))
           <$> possessions s !! p.

(** Every event of every chain is in the flat list. *)
Definition chains_listed (s : Store) (G : gmap pref (list eref)) : Prop :=
  ∀ p L e, G !! p = Some L → e ∈ L → e ∈ _events (the_match s).

(** The test [start_time <= ev.match_time <= end_time] of [list_events]. *)
Definition in_window (s : Store) (start end_ : Qc) (e : eref) : bool :=
  match time_of s e with
  | Some t => bool_decide (start ≤ t ∧ t ≤ end_)
  | None => false
  end.

(** [list_events] with its optional query parameters: the events listed,
    [None] for the 400 of an unknown label. *)
Definition list_events (event_type_param : option string)
    (possession_id_param : option Z) (start_time end_time : option Qc) (s : Store)
    : option (list eref) :=
  let events_iter := Match_iter_events s in
  events_iter ←
    match truthy event_type_param with
    | Some raw =>
        etype ← EventType_of_value raw;
        Some (filter (λ e, event_has s (λ ev, bool_decide (event_type ev = etype)) e)
                events_iter)
    | None => Some events_iter
    end;
  let events_iter :=
    match possession_id_param with
    | Some possession_id =>
        filter (λ e, event_has s
                       (λ ev, match possession ev ≫= (possessions s !!.) with
                              | Some node => bool_decide (poss_id node = possession_id)
                              | None => false
                              end) e)
          events_iter
    | None => events_iter
    end in
  match start_time, end_time with
  | Some start, Some end_ => Some (filter (λ e, in_window s start end_ e) events_iter)
  | _, _ => Some events_iter
  end.

(** [list_events_by_type]: [None] for the 400 of an unknown label. *)
Definition list_events_by_type (event_type : string) (s : Store) : option (list eref) :=
  etype ← EventType_of_value event_type;
  Some (events_by_type s [etype]).

(** The calls that create a possession node. *)
Definition creates_possession (o : op) : bool :=
  match o with
  | OpNewPossession _ => true
  | OpAddEvent a => bool_decide (a_possession a = None)
  | _ => false
  end.

(** What [f] leaves of a node: its id, team and links to other nodes. *)
Definition keeps_node (f : PossessionNode → PossessionNode) : Prop :=
  ∀ n, poss_id (f n) = poss_id n ∧ team_in_possession (f n) = team_in_possession n
       ∧ prev_possession (f n) = prev_possession n
       ∧ next_possession (f n) = next_possession n.

(** The three invariants of a store together. *)
Definition store_ok (s : Store) (G : gmap pref (list eref)) : Prop :=
  chains_ok s G ∧ chains_listed s G ∧ poss_chain_ok s.

(** The calls that only add to the match. *)
Definition is_insertion (o : op) : Prop :=
  match o with
  | OpNewPossession _ | OpAddEvent _ => True
  | _ => False
  end.

(** The events of the flat list as objects: what [match.iter_events()]
    yields. *)
Definition event_objects (s : Store) : list Event :=
  omap (events s !!.) (Match_iter_events s).

(** [event_type_priors_by_team], before the result is serialised: the
    state key is [ev.team] and alpha is 0.5. *)
Definition event_type_priors_by_team (s : Store) : StateEventTypePriors string :=
  state_from_events (event_objects s) team (Qc_of_Z 1 / Qc_of_Z 2).

(** ** Proof automation *)

(** Taking apart the existentials and conjunctions among the hypotheses. *)
Ltac break_hyps :=
  repeat match goal with
         | H : ∃ _, _ |- _ => destruct H
         | H : _ ∧ _ |- _ => destruct H
         | H : is_Some _ |- _ => destruct H
         end.

Ltac missing_field :=
  simpl; split; [by right; left|];
  split; [split; [done|intros Hx; break_hyps; congruence]|];
  split; [split; [done|intros Hx; break_hyps; congruence]|];
  split; [intros; congruence|];
  intros j s Hj; split; [done|by eauto].

(** * Properties *)

(** ** Rational arithmetic *)

Lemma Qc_of_nat_S n : Qc_of_nat (S n) = Qc_of_nat n + 1.
Proof.
  unfold Qc_of_nat. rewrite Nat2Z.inj_succ, <-Z.add_1_r, Z2Qc_inj_add.
  by rewrite Z2Qc_inj_1.
Qed.

Lemma Qc_of_nat_0 : Qc_of_nat 0 = 0.
Proof. apply Z2Qc_inj_0. Qed.

Lemma Qc_of_nat_nonneg n : 0 ≤ Qc_of_nat n.
Proof.
  unfold Qc_of_nat. rewrite <-Z2Qc_inj_0. apply (proj1 (Z2Qc_inj_le _ _)). lia.
Qed.

Lemma Qc_of_nat_pos n : (0 < n)%nat → 0 < Qc_of_nat n.
Proof.
  intros. unfold Qc_of_nat. rewrite <-Z2Qc_inj_0. apply (proj1 (Z2Qc_inj_lt _ _)). lia.
Qed.


Lemma Qc_of_nat_le n m : (n ≤ m)%nat → Qc_of_nat n ≤ Qc_of_nat m.
Proof. intros. unfold Qc_of_nat. apply (proj1 (Z2Qc_inj_le _ _)). lia. Qed.


Lemma Qcdiv_self x : x ≠ 0 → x / x = 1.
Proof. intros. unfold Qcdiv. by apply Qcmult_inv_r. Qed.



(** ** Sums over count maps *)

Lemma sum_values_empty : sum_values ∅ = 0.
Proof. apply map_fold_empty. Qed.

Lemma sum_values_insert_fresh (c : gmap EventType Qc) et v :
  c !! et = None → sum_values (<[et := v]> c) = v + sum_values c.
Proof.
  intros Hc. unfold sum_values.
  rewrite map_fold_insert_L; [done| |done].
  intros. ring.
Qed.

Lemma sum_values_delete (c : gmap EventType Qc) et v :
  c !! et = Some v → sum_values c = v + sum_values (delete et c).
Proof.
  intros Hc. unfold sum_values.
  rewrite (map_fold_delete_L _ _ et v c); [done| |done].
  intros. ring.
Qed.

Lemma sum_values_insert_present (c : gmap EventType Qc) et v0 v :
  c !! et = Some v0 → sum_values (<[et := v]> c) = sum_values c - v0 + v.
Proof.
  intros Hc. rewrite <-insert_delete_eq.
  rewrite sum_values_insert_fresh by apply lookup_delete_eq.
  rewrite (sum_values_delete c et v0) by done. ring.
Qed.

Lemma sum_values_observe c et : sum_values (observe c et) = sum_values c + 1.
Proof.
  unfold observe. destruct (c !! et) as [v|] eqn:Hc.
  - rewrite (sum_values_insert_present c et v) by done. ring.
  - rewrite sum_values_insert_fresh by done. ring.
Qed.

Lemma sum_values_fmap_const (c : gmap EventType Qc) u :
  sum_values ((λ _, u) <$> c) = u * Qc_of_nat (size c).
Proof.
  induction c as [|et v c Hc IH] using map_ind.
  - rewrite fmap_empty, sum_values_empty, map_size_empty, Qc_of_nat_0. ring.
  - rewrite fmap_insert, sum_values_insert_fresh by (by rewrite lookup_fmap, Hc).
    rewrite IH, map_size_insert_None, Qc_of_nat_S by done. ring.
Qed.

Lemma sum_values_fmap_affine (c : gmap EventType Qc) a d :
  sum_values ((λ v, (v + a) / d) <$> c)
  = (sum_values c + a * Qc_of_nat (size c)) / d.
Proof.
  induction c as [|et v c Hc IH] using map_ind.
  - rewrite fmap_empty, sum_values_empty, map_size_empty, Qc_of_nat_0.
    unfold Qcdiv. ring.
  - rewrite fmap_insert, sum_values_insert_fresh by (by rewrite lookup_fmap, Hc).
    rewrite IH, sum_values_insert_fresh, map_size_insert_None, Qc_of_nat_S by done.
    unfold Qcdiv. ring.
Qed.

Lemma sum_values_nonneg (c : gmap EventType Qc) :
  (∀ et v, c !! et = Some v → 0 ≤ v) → 0 ≤ sum_values c.
Proof.
  induction c as [|et v c Hc IH] using map_ind; intros Hnn.
  - by rewrite sum_values_empty.
  - rewrite sum_values_insert_fresh by done.
    apply Qcplus_nonneg_nonneg.
    + apply (Hnn et). apply lookup_insert_eq.
    + apply IH. intros et' v' Hv'. apply (Hnn et').
      rewrite lookup_insert_ne; [done|]. intros ->. congruence.
Qed.

(** ** Counts after a history of observations *)

Lemma observe_lookup c et et' :
  observe c et !! et' =
    if decide (et = et') then Some (default 0 (c !! et) + 1) else c !! et'.
Proof.
  unfold observe. destruct (c !! et) as [v|] eqn:Hc; simpl;
    rewrite lookup_insert; by case_decide.
Qed.

Lemma observe_size_present c et :
  is_Some (c !! et) → size (observe c et) = size c.
Proof.
  intros [v Hv]. unfold observe. rewrite Hv.
  by rewrite map_size_insert_Some.
Qed.

Lemma update_alpha p evs : alpha (update_from_events p evs) = alpha p.
Proof. done. Qed.

Lemma update_app p evs1 evs2 :
  update_from_events p (evs1 ++ evs2)
  = update_from_events (update_from_events p evs1) evs2.
Proof. unfold update_from_events. simpl. by rewrite foldl_app. Qed.

Lemma update_sum p evs :
  sum_values (counts (update_from_events p evs))
  = sum_values (counts p) + Qc_of_nat (length evs).
Proof.
  destruct p as [a c]. simpl. revert c.
  induction evs as [|ev evs IH]; intros c; simpl.
  - rewrite Qc_of_nat_0. ring.
  - rewrite IH, sum_values_observe, Qc_of_nat_S. ring.
Qed.

Lemma update_lookup p evs et :
  counts (update_from_events p evs) !! et
  = if decide (occurrences et evs = 0%nat) then counts p !! et
    else Some (default 0 (counts p !! et) + Qc_of_nat (occurrences et evs)).
Proof.
  destruct p as [a c]. simpl. revert c.
  induction evs as [|ev evs IH]; intros c; simpl; [done|].
  rewrite IH. unfold occurrences. rewrite filter_cons.
  rewrite observe_lookup. fold (occurrences et evs).
  destruct (decide (event_type ev = et)) as [->|Hne]; simpl.
  - fold (occurrences et evs). case_decide as H0.
    + rewrite H0, Qc_of_nat_S, Qc_of_nat_0. f_equal; ring.
    + rewrite Qc_of_nat_S. f_equal; ring.
  - done.
Qed.

Lemma default_counts_lookup et : default_counts !! et = Some 0.
Proof. by destruct et. Qed.

Lemma tracks_all_default : tracks_all default_counts.
Proof. intros et. rewrite default_counts_lookup. eauto. Qed.

Lemma tracks_all_size c : tracks_all c → size c = 10%nat.
Proof.
  intros Hall.
  assert (dom c = dom default_counts) as Hdom.
  { apply set_eq. intros et. rewrite !elem_of_dom.
    split; intros _; [apply tracks_all_default | apply Hall]. }
  rewrite <-!size_dom in *. rewrite Hdom. rewrite size_dom. done.
Qed.

Lemma tracks_all_update p evs :
  tracks_all (counts p) → tracks_all (counts (update_from_events p evs)).
Proof.
  intros Hall et. rewrite update_lookup. case_decide; [apply Hall | eauto].
Qed.

Lemma label_count_tracks_all p : tracks_all (counts p) → label_count p = 10%nat.
Proof.
  intros Hall. unfold label_count. rewrite tracks_all_size by done.
  by rewrite decide_False by lia.
Qed.


Lemma occurrences_app et evs1 evs2 :
  occurrences et (evs1 ++ evs2) = (occurrences et evs1 + occurrences et evs2)%nat.
Proof. unfold occurrences. by rewrite filter_app, length_app. Qed.

Lemma occurrences_replicate et n :
  occurrences et (replicate n (labelled et)) = n.
Proof.
  unfold occurrences. induction n as [|n IH]; simpl; [done|].
  rewrite filter_cons, decide_True by done. simpl. by rewrite IH.
Qed.


(** ** The posterior of a prior that tracks every label *)

Lemma prior_from_events_tracks_all evs a :
  tracks_all (counts (prior_from_events evs a)).
Proof. apply tracks_all_update, tracks_all_default. Qed.

Lemma prior_from_events_count evs a et :
  counts (prior_from_events evs a) !! et = Some (Qc_of_nat (occurrences et evs)).
Proof.
  unfold prior_from_events. rewrite update_lookup. simpl.
  rewrite default_counts_lookup. simpl. case_decide as H0.
  - by rewrite H0, Qc_of_nat_0.
  - by rewrite Qcplus_0_l.
Qed.

Lemma sum_values_default : sum_values default_counts = 0.
Proof.
  assert (default_counts = (λ _, 0) <$> default_counts) as ->.
  { apply map_eq. intros et. rewrite lookup_fmap, !default_counts_lookup. done. }
  rewrite sum_values_fmap_const. ring.
Qed.

Lemma prior_from_events_sum evs a :
  sum_values (counts (prior_from_events evs a)) = Qc_of_nat (length evs).
Proof.
  unfold prior_from_events. rewrite update_sum. simpl.
  rewrite sum_values_default. ring.
Qed.

Lemma prior_from_events_mass_pos evs a :
  0 < a → 0 < total_mass (prior_from_events evs a).
Proof.
  intros Ha. unfold total_mass.
  rewrite prior_from_events_sum, label_count_tracks_all
    by apply prior_from_events_tracks_all.
  apply Qcplus_nonneg_pos; [apply Qc_of_nat_nonneg|].
  apply Qcmult_pos_pos; [done|]. apply Qc_of_nat_pos. lia.
Qed.

Lemma posterior_prob_from_events evs a et :
  0 < a →
  posterior_prob (prior_from_events evs a) et
  = (Qc_of_nat (occurrences et evs) + a)
    / (Qc_of_nat (length evs) + a * Qc_of_nat 10).
Proof.
  intros Ha. pose proof (prior_from_events_mass_pos evs a Ha) as Hpos.
  unfold total_mass in Hpos. unfold posterior_prob.
  rewrite decide_False by (by apply Qclt_not_le).
  rewrite prior_from_events_count, prior_from_events_sum.
  by rewrite label_count_tracks_all by apply prior_from_events_tracks_all.
Qed.

Lemma probs_sum_nonempty p : counts p ≠ ∅ → sum_values (probs p) = 1.
Proof.
  intros Hne.
  assert (size (counts p) ≠ 0%nat) as Hsz by (by rewrite map_size_empty_iff).
  assert (label_count p = size (counts p)) as Hk.
  { unfold label_count. by rewrite decide_False. }
  unfold probs. rewrite Hk. case_decide as Hd.
  - rewrite sum_values_fmap_const.
    assert (Qc_of_nat (size (counts p)) ≠ 0).
    { intros H0. pose proof (Qc_of_nat_pos (size (counts p))) as Hp.
      rewrite H0 in Hp. apply (Qclt_not_eq 0 0); [apply Hp; lia | done]. }
    field. done.
  - rewrite sum_values_fmap_affine. apply Qcdiv_self.
    intros H0. apply Hd. rewrite H0. done.
Qed.


(** ** Claims on [EventTypePrior] *)

(** C2 (as amended).  For every prior and every label, [posterior_prob]
    is [(count[label] + alpha) / (sum of counts + alpha * K)], and [1 / K]
    when that denominator is not positive, where [K] is the number of
    labels in [counts], or 10 (the size of the enumeration) when [counts]
    is empty; on a non-empty [counts] this is the formula of the
    specification; for a prior over the ten canonical labels with
    [alpha > 0] it is [(n + alpha) / (N + 10 alpha)] for [n] observations
    of the label among [N]; with [alpha = 1] and three observed PASS events
    the posterior of PASS is 4/13 and that of SHOT 1/13. *)
Theorem posterior_prob_formula :
  (∀ p et,
     let K := if decide (size (counts p) = 0%nat) then 10%nat else size (counts p) in
     let denom := sum_values (counts p) + alpha p * Qc_of_nat K in
     posterior_prob p et =
       if decide (denom ≤ 0) then 1 / Qc_of_nat K
       else (default 0 (counts p !! et) + alpha p) / denom)
  ∧ (∀ p et, counts p ≠ ∅ → posterior_prob p et = posterior_prob_spec p et)
  ∧ (∀ evs a et, 0 < a →
       posterior_prob (prior_from_events evs a) et
       = (Qc_of_nat (occurrences et evs) + a)
         / (Qc_of_nat (length evs) + a * Qc_of_nat 10))
  ∧ posterior_prob (prior_from_events (replicate 3 (labelled PASS)) 1) PASS
    = Q2Qc (4 # 13)
  ∧ posterior_prob (prior_from_events (replicate 3 (labelled PASS)) 1) SHOT
    = Q2Qc (1 # 13).
Proof.
  split; [|split; [|split; [|split]]].
  - intros p et. reflexivity.
  - intros p et Hne. unfold posterior_prob, posterior_prob_spec, label_count.
    destruct (decide (size (counts p) = 0%nat)) as [H0|H0]; [|done].
    by apply map_size_empty_iff in H0.
  - intros evs a et. apply posterior_prob_from_events.
  - rewrite posterior_prob_from_events by done.
    by apply Qc_is_canon.
  - rewrite posterior_prob_from_events by done.
    by apply Qc_is_canon.
Qed.

Lemma posterior_prob_formula_witness :
  posterior_prob (prior_from_events [labelled FOUL] (Q2Qc (1 # 2))) FOUL
  = posterior_prob_spec (prior_from_events [labelled FOUL] (Q2Qc (1 # 2))) FOUL.
Proof.
  apply (proj1 (proj2 posterior_prob_formula)).
  intros Hempty. apply (f_equal (λ c, c !! FOUL)) in Hempty.
  vm_compute in Hempty. discriminate.
Defined.

(** C2 as stated fails: a prior whose [counts] is empty has no tracked
    label, yet its posterior is computed with [K = 10]. *)
Lemma posterior_prob_empty_counts_counterexample :
  let p := {| alpha := 1; counts := ∅ |} in
  size (counts p) = 0%nat
  ∧ posterior_prob p PASS = Q2Qc (1 # 10)
  ∧ posterior_prob p PASS ≠ posterior_prob_spec p PASS.
Proof.
  simpl. split; [done|]. split.
  - by apply Qc_is_canon.
  - intros Heq. apply (f_equal this) in Heq. vm_compute in Heq. discriminate.
Qed.

(** C3.  For every [alpha > 0] and every history of observed events, the
    values of [probs()] sum to 1; every label's value is its smoothed count
    over the one shared denominator [total_mass]; with no observation every
    canonical label gets 1/10. *)
Theorem probs_sum_to_one (a : Qc) (history : list Event) :
  0 < a →
  let p := prior_from_events history a in
  sum_values (probs p) = 1
  ∧ (∀ et, probs p !! et
           = Some ((Qc_of_nat (occurrences et history) + a) / total_mass p))
  ∧ total_mass p = Qc_of_nat (length history) + a * Qc_of_nat 10
  ∧ (∀ et, probs (prior_from_events [] a) !! et = Some (1 / Qc_of_nat 10)).
Proof.
  intros Ha p.
  assert (∀ evs et, probs (prior_from_events evs a) !! et
    = Some ((Qc_of_nat (occurrences et evs) + a)
            / total_mass (prior_from_events evs a))) as Hprobs.
  { intros evs et. pose proof (prior_from_events_mass_pos evs a Ha) as Hpos.
    unfold probs. fold (total_mass (prior_from_events evs a)).
    rewrite decide_False by (by apply Qclt_not_le).
    by rewrite lookup_fmap, prior_from_events_count. }
  assert (∀ evs, total_mass (prior_from_events evs a)
    = Qc_of_nat (length evs) + a * Qc_of_nat 10) as Hmass.
  { intros evs. unfold total_mass.
    by rewrite prior_from_events_sum, label_count_tracks_all
      by apply prior_from_events_tracks_all. }
  repeat split.
  - apply probs_sum_nonempty. intros Hempty.
    pose proof (prior_from_events_count history a PASS) as Hc.
    fold p in Hc. by rewrite Hempty in Hc.
  - apply Hprobs.
  - apply Hmass.
  - intros et. rewrite Hprobs, Hmass. f_equal.
    change (occurrences et []) with 0%nat. change (length []) with 0%nat.
    rewrite Qc_of_nat_0.
    assert (a ≠ 0) by (intros ->; by apply (Qclt_not_eq 0 0)).
    assert (Qc_of_nat 10 ≠ 0) by (by intros ?%(f_equal this)).
    field; auto.
Qed.

Lemma probs_sum_to_one_witness :
  sum_values (probs (prior_from_events [labelled SHOT; labelled PASS] 1)) = 1.
Proof. apply (probs_sum_to_one 1 [labelled SHOT; labelled PASS]). done. Defined.



(** ** Claims on [StateEventTypePriors] *)

Section StatePriorsFacts.
Context {K : Type} `{Countable K}.
Implicit Types (sp : StateEventTypePriors K) (m : gmap K EventTypePrior).

Lemma count_over_states_insert_fresh sp k p et :
  priors sp !! k = None →
  count_over_states {| st_alpha := st_alpha sp; priors := <[k := p]> (priors sp) |} et
  = count_of et p + count_over_states sp et.
Proof.
  intros Hk. unfold count_over_states. simpl.
  rewrite map_fold_insert_L; [done| |done]. intros. ring.
Qed.

Lemma count_over_states_insert_present sp k p0 p et :
  priors sp !! k = Some p0 →
  count_over_states {| st_alpha := st_alpha sp; priors := <[k := p]> (priors sp) |} et
  = count_over_states sp et - count_of et p0 + count_of et p.
Proof.
  intros Hk. unfold count_over_states. simpl.
  rewrite <-insert_delete_eq.
  rewrite map_fold_insert_L; [| |apply lookup_delete_eq]; [|intros; ring].
  rewrite (map_fold_delete_L _ _ k p0 (priors sp)); [| |done]; [|intros; ring].
  unfold count_of. ring.
Qed.

Lemma count_of_observe et p ev :
  count_of et (update_from_events p [ev])
  = count_of et p + (if decide (event_type ev = et) then 1 else 0).
Proof.
  unfold count_of. simpl. rewrite observe_lookup.
  case_decide as Heq; simpl; [by rewrite Heq | ring].
Qed.

Lemma count_of_new_prior et a : count_of et (new_prior a) = 0.
Proof. unfold count_of. simpl. by rewrite default_counts_lookup. Qed.

Lemma count_over_states_observe key_fn sp ev et :
  count_over_states (state_observe key_fn sp ev) et
  = count_over_states sp et + (if decide (event_type ev = et) then 1 else 0).
Proof.
  unfold state_observe, _get_or_create.
  destruct (priors sp !! key_fn ev) as [p0|] eqn:Hk.
  - rewrite (count_over_states_insert_present sp _ p0) by done.
    rewrite count_of_observe. ring.
  - cbn [st_alpha priors]. rewrite insert_insert_eq.
    rewrite count_over_states_insert_fresh by done.
    rewrite count_of_observe, count_of_new_prior. ring.
Qed.

Lemma count_over_states_update evs key_fn sp et :
  count_over_states (state_update_from_events sp evs key_fn) et
  = count_over_states sp et + Qc_of_nat (occurrences et evs).
Proof.
  unfold state_update_from_events. revert sp.
  induction evs as [|ev evs IH]; intros sp; simpl.
  - change (occurrences et []) with 0%nat. rewrite Qc_of_nat_0. ring.
  - rewrite IH, count_over_states_observe.
    unfold occurrences. rewrite filter_cons.
    case_decide; simpl; [rewrite Qc_of_nat_S|]; ring.
Qed.

(** C5.  For every list of events and every key function, the count of a
    label summed over all the state keys of
    [StateEventTypePriors.from_events] is the count of that label in one
    unconditioned prior updated from the same events. *)
Theorem state_counts_partition
    (evs : list Event) (key_fn : Event → K) (a a' : Qc) (et : EventType) :
  count_over_states (state_from_events evs key_fn a) et
  = default 0 (counts (update_from_events (new_prior a') evs) !! et).
Proof.
  unfold state_from_events. rewrite count_over_states_update.
  fold (prior_from_events evs a'). rewrite prior_from_events_count. simpl.
  unfold count_over_states. simpl. rewrite map_fold_empty. ring.
Qed.

(** C10.  On a key [k] that the collection does not hold, [get_prior]
    changes the collection: it stores under [k], and returns, a new prior
    with the collection's alpha and a zero count for each of the ten
    canonical labels; every other key keeps its prior; asking again
    returns the stored prior and changes nothing. *)
Theorem get_prior_creates sp (k : K) :
  priors sp !! k = None →
  let sp' := (get_prior sp k).1 in
  let p := (get_prior sp k).2 in
  alpha p = st_alpha sp
  ∧ (∀ et, counts p !! et = Some 0)
  ∧ size (counts p) = 10%nat
  ∧ priors sp' !! k = Some p
  ∧ sp' ≠ sp
  ∧ st_alpha sp' = st_alpha sp
  ∧ (∀ k', k' ≠ k → priors sp' !! k' = priors sp !! k')
  ∧ get_prior sp' k = (sp', p).
Proof.
  intros Hk. unfold get_prior, _get_or_create. rewrite Hk. simpl.
  repeat split.
  - apply default_counts_lookup.
  - apply lookup_insert_eq.
  - intros Heq. apply (f_equal (λ s, priors s !! k)) in Heq. simpl in Heq.
    rewrite lookup_insert_eq, Hk in Heq. done.
  - intros k' Hne. by apply lookup_insert_ne.
  - by rewrite lookup_insert_eq.
Qed.
End StatePriorsFacts.

Lemma get_prior_creates_witness :
  let sp : StateEventTypePriors string :=
    {| st_alpha := Q2Qc (1 # 2);
       priors := {[ "Home FC"%string := prior_from_events [labelled PASS] (Q2Qc (1 # 2)) ]} |} in
  priors (get_prior sp "Away FC"%string).1 !! "Away FC"%string
  = Some (new_prior (Q2Qc (1 # 2))).
Proof.
  intros sp. apply (get_prior_creates sp "Away FC"%string). done.
Defined.

(** ** The store under the primitive writes *)

Lemma time_of_set_event s e f x :
  (∀ ev, match_time (f ev) = match_time ev) →
  time_of (set_event e f s) x = time_of s x.
Proof.
  intros Hf. unfold time_of, set_event. simpl.
  rewrite lookup_alter. case_decide as Heq; [|done].
  subst. destruct (events s !! x); simpl; [by rewrite Hf | done].
Qed.

Lemma time_of_set_node s p f x : time_of (set_node p f s) x = time_of s x.
Proof. done. Qed.

Lemma time_of_set_match s f x : time_of (set_match f s) x = time_of s x.
Proof. done. Qed.

Lemma new_possession_events t s : events (new_possession t s).1 = events s.
Proof. unfold new_possession. by destruct (_last_possession _). Qed.

Lemma new_possession_next_eref t s : next_eref (new_possession t s).1 = next_eref s.
Proof. unfold new_possession. by destruct (_last_possession _). Qed.

Lemma new_possession_m_events t s :
  _events (the_match (new_possession t s).1) = _events (the_match s).
Proof. unfold new_possession. by destruct (_last_possession _). Qed.

Lemma new_possession_ref t s : (new_possession t s).2 = next_pref s.
Proof. unfold new_possession. by destruct (_last_possession _). Qed.

Lemma poss_add_event_time p e s s' x :
  poss_add_event p e s = Some s' → time_of s' x = time_of s x.
Proof.
  unfold poss_add_event. intros Hs.
  destruct (possessions s !! p) as [node|]; simpl in Hs; [|done].
  destruct (last_event node); simplify_eq; unfold time_of; simpl;
    repeat (rewrite lookup_alter; case_decide; subst);
    try done; by destruct (events s !! _).
Qed.

Lemma poss_add_event_m_events p e s s' :
  poss_add_event p e s = Some s' → the_match s' = the_match s.
Proof.
  unfold poss_add_event. intros Hs.
  destruct (possessions s !! p) as [node|]; simpl in Hs; [|done].
  by destruct (last_event node); simplify_eq.
Qed.

Lemma poss_add_event_next_eref p e s s' :
  poss_add_event p e s = Some s' → next_eref s' = next_eref s.
Proof.
  unfold poss_add_event. intros Hs.
  destruct (possessions s !! p) as [node|]; simpl in Hs; [|done].
  by destruct (last_event node); simplify_eq.
Qed.

Lemma scan_back_ext s s' t l idx :
  (∀ x, time_of s x = time_of s' x) →
  scan_back s t l idx = scan_back s' t l idx.
Proof.
  intros Hext. induction idx as [|i IH]; simpl; [done|].
  destruct (l !! i) as [x|]; simpl; [|done].
  rewrite Hext. destruct (time_of s' x); [|done]. by rewrite IH.
Qed.

(** What [add_event] does to the flat list and to the times. *)
Lemma add_event_effect a s s' e :
  add_event a s = Some (s', e) →
  e = next_eref s
  ∧ next_eref s' = S e
  ∧ (∀ x, time_of s' x = if decide (x = e) then Some (a_match_time a) else time_of s x)
  ∧ _events (the_match s')
    = list_insert_at
        (scan_back s' (a_match_time a) (_events (the_match s))
           (length (_events (the_match s))))
        e (_events (the_match s)).
Proof.
  unfold add_event. intros Hadd.
  set (sp := match a_possession a with
             | Some p => (s, p) | None => new_possession (a_team a) s end) in *.
  assert (events sp.1 = events s ∧ next_eref sp.1 = next_eref s
          ∧ _events (the_match sp.1) = _events (the_match s)) as (Hev & Hne & Hme).
  { unfold sp. destruct (a_possession a); [done|].
    by rewrite new_possession_events, new_possession_next_eref,
      new_possession_m_events. }
  destruct sp as [s1 p]. simpl in *.
  destruct (poss_add_event p _ _) as [s3|] eqn:Hp; simpl in Hadd; [|done].
  injection Hadd as <- <-.
  pose proof (poss_add_event_m_events _ _ _ _ Hp) as Hm. simpl in Hm.
  pose proof (poss_add_event_next_eref _ _ _ _ Hp) as Hn. simpl in Hn.
  assert (∀ x, time_of s3 x
    = if decide (x = next_eref s) then Some (a_match_time a) else time_of s x) as Ht.
  { intros x. rewrite (poss_add_event_time _ _ _ _ x Hp).
    unfold time_of. simpl. rewrite Hne, lookup_insert.
    case_decide; case_decide; subst; try done. by rewrite Hev. }
  split; [done|]. split; [simpl; by rewrite Hn, Hne|]. split.
  - intros x. rewrite time_of_set_match, Hne. apply Ht.
  - cbn [the_match set_match _events with_events].
    rewrite <-Hme, <-Hm. f_equal. by apply scan_back_ext.
Qed.

(** ** The insertion scan *)

Lemma scan_back_app s t l1 l2 n :
  (n ≤ length l1)%nat → scan_back s t (l1 ++ l2) n = scan_back s t l1 n.
Proof.
  induction n as [|i IH]; intros Hn; simpl; [done|].
  rewrite lookup_app_l by lia.
  destruct (l1 !! i ≫= time_of s); [|done].
  case_decide; [apply IH; lia | done].
Qed.

(** The scan stops at a cut of the list: everything right of the cut is
    later than [t], and the item left of the cut is not. *)
Lemma scan_back_split s t l :
  Forall (λ e, is_Some (time_of s e)) l →
  ∃ l1 l2, l = l1 ++ l2
    ∧ scan_back s t l (length l) = length l1
    ∧ Forall (λ e, ∃ t', time_of s e = Some t' ∧ t < t') l2
    ∧ (∀ z, last l1 = Some z → ∃ t', time_of s z = Some t' ∧ t' ≤ t).
Proof.
  induction l as [|z l IH] using rev_ind; intros Hdef.
  - exists [], []. by repeat split.
  - apply Forall_app in Hdef as [Hdef [[tz Hz] _]%Forall_cons].
    rewrite length_app. simpl. rewrite Nat.add_1_r. simpl.
    rewrite list_lookup_middle by done. simpl. rewrite Hz.
    case_decide as Hlt.
    + destruct (IH Hdef) as (l1 & l2 & -> & Hscan & Hl2 & Hl1).
      exists l1, (l2 ++ [z]). rewrite scan_back_app by done.
      split; [by rewrite <-app_assoc|]. split; [done|]. split; [|done].
      apply Forall_app. split; [done|]. apply Forall_singleton. eauto.
    + exists (l ++ [z]), []. rewrite length_app. simpl.
      split; [by rewrite app_nil_r|]. split; [lia|]. split; [done|].
      intros z'. rewrite last_snoc. intros [= <-].
      exists tz. split; [done|]. by apply Qcnot_lt_le.
Qed.

Lemma list_insert_at_cut {A} (l1 l2 : list A) x :
  list_insert_at (length l1) x (l1 ++ l2) = l1 ++ x :: l2.
Proof.
  unfold list_insert_at. by rewrite take_app_length, drop_app_length.
Qed.

Lemma StronglySorted_impl {A} (R R' : relation A) l :
  (∀ x y, x ∈ l → y ∈ l → R x y → R' x y) →
  StronglySorted R l → StronglySorted R' l.
Proof.
  induction l as [|x l IH]; intros Himp Hs; [constructor|].
  apply StronglySorted_cons in Hs as [Hx Hs]. apply StronglySorted_cons. split.
  - rewrite Forall_forall in *. intros y Hy. apply Himp; [left|by right|by apply Hx].
  - apply IH; [|done]. intros y z ??. apply Himp; by right.
Qed.

Lemma StronglySorted_lookup {A} (R : relation A) l i j x y :
  StronglySorted R l → (i < j)%nat → l !! i = Some x → l !! j = Some y → R x y.
Proof.
  intros Hs. revert i j. induction Hs as [|z l Hs IH Hz]; intros i j Hij Hi Hj; [done|].
  destruct j as [|j]; [lia|]. destruct i as [|i]; simpl in *.
  - injection Hi as ->. rewrite Forall_forall in Hz. apply Hz.
    by eapply list_elem_of_lookup_2.
  - apply (IH i j); [lia|done..].
Qed.

Lemma precedes_time_le s e1 e2 t1 t2 :
  precedes s e1 e2 → time_of s e1 = Some t1 → time_of s e2 = Some t2 → t1 ≤ t2.
Proof.
  intros (t1' & t2' & H1 & H2 & Hcmp) ??. simplify_eq.
  destruct Hcmp as [Hlt|[-> _]]; [by apply Qclt_le_weak | apply Qcle_refl].
Qed.

(** Inserting a new event at the cut found by the scan keeps the flat
    list in stable time order. *)
Lemma insert_keeps_order s s' t e l :
  StronglySorted (precedes s) l →
  Forall (λ x, (x < e)%nat ∧ is_Some (time_of s x)) l →
  (∀ x, time_of s' x = if decide (x = e) then Some t else time_of s x) →
  StronglySorted (precedes s')
    (list_insert_at (scan_back s' t l (length l)) e l).
Proof.
  intros Hs Hl Ht.
  assert (∀ x, x ∈ l → time_of s' x = time_of s x) as Hsame.
  { intros x Hx. rewrite Ht. rewrite Forall_forall in Hl.
    destruct (Hl x Hx) as [? _]. rewrite decide_False by lia. done. }
  assert (Forall (λ x, is_Some (time_of s' x)) l) as Hdef.
  { rewrite Forall_forall in *. intros x Hx. rewrite Hsame by done. by apply Hl. }
  assert (StronglySorted (precedes s') l) as Hs'.
  { eapply StronglySorted_impl; [|done].
    intros x y Hx Hy (t1 & t2 & ? & ? & ?). exists t1, t2.
    by rewrite !Hsame. }
  destruct (scan_back_split s' t l Hdef) as (l1 & l2 & -> & -> & Hl2 & Hl1).
  rewrite list_insert_at_cut.
  assert (time_of s' e = Some t) as Hte by (by rewrite Ht, decide_True).
  apply StronglySorted_app in Hs' as (H12 & Hs1 & Hs2).
  apply StronglySorted_app. split; [|split; [done|]].
  - intros x1 x2 Hx1 [->|Hx2]%elem_of_cons; [|by apply H12].
    assert ((x1 < e)%nat ∧ is_Some (time_of s x1)) as [Hfresh _].
    { rewrite Forall_forall in Hl. apply Hl. apply elem_of_app. by left. }
    destruct l1 as [|z0 l1' _] using rev_ind; [by apply elem_of_nil in Hx1|].
    destruct (Hl1 z0) as (tz & Hz & Hle); [by rewrite last_snoc|].
    assert (∃ t1, time_of s' x1 = Some t1 ∧ t1 ≤ t) as (t1 & Ht1 & Hle1).
    { apply elem_of_app in Hx1 as [Hx1|Hx1]; [|apply list_elem_of_singleton in Hx1 as ->; eauto].
      apply StronglySorted_app in Hs1 as (Hbefore & _ & _).
      assert (precedes s' x1 z0) as Hp by (apply Hbefore; [done|by left]).
      pose proof Hp as (t1 & tz' & H1 & Hz' & _). simplify_eq.
      exists t1. split; [done|]. apply Qcle_trans with tz; [|done].
      by eapply precedes_time_le. }
    exists t1, t. split; [done|]. split; [done|].
    destruct (Qcle_lt_or_eq _ _ Hle1) as [?| ->]; [by left | by right].
  - apply StronglySorted_cons. split; [|done].
    rewrite Forall_forall in *. intros x Hx.
    destruct (Hl2 x Hx) as (t' & Hx' & Hlt). exists t, t'. eauto.
Qed.

Lemma list_insert_at_perm {A} idx (x : A) l : list_insert_at idx x l ≡ₚ x :: l.
Proof.
  unfold list_insert_at. rewrite <-Permutation_middle.
  by rewrite take_drop.
Qed.

Lemma timeline_ok_new_match home away : timeline_ok (new_match home away).
Proof. split; simpl; constructor. Qed.

Lemma add_event_timeline a s s' e :
  timeline_ok s → add_event a s = Some (s', e) → timeline_ok s'.
Proof.
  intros [Hsorted Hbound] (-> & Hnext & Htime & Hlist)%add_event_effect.
  split; rewrite Hlist.
  - apply (insert_keeps_order s); [done| |done].
    eapply Forall_impl; [done|]. naive_solver.
  - rewrite list_insert_at_perm. rewrite Hnext. apply Forall_cons. split.
    + split; [lia|]. rewrite Htime, decide_True by done. eauto.
    + eapply Forall_impl; [done|]. intros x [Hx Hdef]. split; [lia|].
      rewrite Htime, decide_False by lia. done.
Qed.

(** A run of [add_event] calls only: the [k]-th call creates the object
    at the [k]-th new address. *)
Lemma run_add_events calls : ∀ s0 s,
  timeline_ok s0 →
  run s0 (OpAddEvent <$> calls) = Some s →
  timeline_ok s
  ∧ next_eref s = (next_eref s0 + length calls)%nat
  ∧ _events (the_match s)
    ≡ₚ seq (next_eref s0) (length calls) ++ _events (the_match s0)
  ∧ (∀ k a, calls !! k = Some a →
       time_of s (next_eref s0 + k) = Some (a_match_time a))
  ∧ (∀ x, (x < next_eref s0)%nat → time_of s x = time_of s0 x).
Proof.
  induction calls as [|a calls IH]; intros s0 s Hok Hrun; simpl in *.
  - injection Hrun as <-. rewrite Nat.add_0_r.
    split; [done|]. split; [done|]. split; [done|]. split; [|done].
    intros k a. by rewrite lookup_nil.
  - destruct (add_event a s0) as [[s1 e]|] eqn:Hadd; simpl in Hrun; [|done].
    pose proof (add_event_timeline _ _ _ _ Hok Hadd) as Hok1.
    pose proof Hadd as (-> & Hnext & Htime & Hlist)%add_event_effect.
    destruct (IH s1 s Hok1 Hrun) as (Hok' & Hn & Hperm & Hk & Hold).
    split; [done|]. split; [lia|]. split; [|split].
    + rewrite Hperm, Hnext, Hlist, list_insert_at_perm.
      by rewrite <-Permutation_middle.
    + intros [|k] a' Hlook; simpl in Hlook.
      * injection Hlook as <-. rewrite Nat.add_0_r, Hold by lia.
        by rewrite Htime, decide_True.
      * rewrite <-(Hk k a' Hlook). f_equal. lia.
    + intros x Hx. rewrite Hold by lia. rewrite Htime, decide_False by lia. done.
Qed.

(** ** Walking a chain *)

Lemma linked_lookup s p L i e :
  linked s p L → L !! i = Some e →
  ∃ ev, events s !! e = Some ev
    ∧ possession ev = Some p
    ∧ prev_in_possession ev = match i with O => None | S j => L !! j end
    ∧ next_in_possession ev = L !! S i.
Proof. intros [_ Hl]. apply Hl. Qed.





(** ** The chains under the operations *)

Lemma linked_ext s s' p L :
  linked s p L → (∀ e, e ∈ L → events s' !! e = events s !! e) → linked s' p L.
Proof.
  intros [Hnd HL] Hsame. split; [done|]. intros i e Hi.
  rewrite Hsame by (by eapply list_elem_of_lookup_2). by apply HL.
Qed.

Lemma linked_allocated s p L e : linked s p L → e ∈ L → is_Some (events s !! e).
Proof.
  intros HL [i Hi]%list_elem_of_lookup_1.
  destruct (linked_lookup _ _ _ _ _ HL Hi) as (ev & -> & _). eauto.
Qed.

Lemma linked_owner s p L e :
  linked s p L → e ∈ L → possession_of s e = Some p.
Proof.
  intros HL [i Hi]%list_elem_of_lookup_1.
  destruct (linked_lookup _ _ _ _ _ HL Hi) as (ev & Hev & Hp & _).
  unfold possession_of. by rewrite Hev.
Qed.

Lemma chains_ok_new_match home away : chains_ok (new_match home away) ∅.
Proof.
  split; simpl.
  - intros p. by rewrite !lookup_empty.
  - intros p L. by rewrite lookup_empty.
  - intros e. by rewrite elem_of_nil.
  - constructor.
  - intros e. rewrite lookup_empty. by intros [].
  - intros p. rewrite lookup_empty. by intros [].
Qed.

(** What [new_possession] does to the nodes. *)
Lemma new_possession_nodes t s :
  let s' := (new_possession t s).1 in
  (∃ n0, possessions s' !! next_pref s = Some n0
         ∧ first_event n0 = None ∧ last_event n0 = None
         ∧ poss_id n0 = _next_possession_id (the_match s)
         ∧ team_in_possession n0 = t)
  ∧ (∀ p, p ≠ next_pref s →
       ∃ f, possessions s' !! p = f <$> possessions s !! p
         ∧ ∀ n, first_event (f n) = first_event n ∧ last_event (f n) = last_event n
                ∧ poss_id (f n) = poss_id n
                ∧ team_in_possession (f n) = team_in_possession n)
  ∧ next_pref s' = S (next_pref s).
Proof.
  unfold new_possession. destruct (_last_possession (the_match s)) as [l|]; simpl.
  - split; [|split; [|done]].
    + rewrite lookup_alter. case_decide; subst; rewrite lookup_insert_eq; simpl.
      * eexists. split; [done|]. done.
      * eexists. split; [done|]. done.
    + intros p Hp. rewrite lookup_alter.
      case_decide; subst; rewrite lookup_insert_ne by done.
      * exists (with_next_possession (Some (next_pref s))). by split.
      * exists id. split; [|done]. by rewrite option_fmap_id.
  - split; [|split; [|done]].
    + rewrite lookup_insert_eq. eexists. split; [done|]. done.
    + intros p Hp. rewrite lookup_insert_ne by done.
      exists id. split; [|done]. by rewrite option_fmap_id.
Qed.

Lemma new_possession_chains t s G :
  chains_ok s G → chains_ok (new_possession t s).1 (<[next_pref s := []]> G).
Proof.
  intros Hok.
  destruct (new_possession_nodes t s) as ((n0 & Hn0 & Hf0 & Hl0 & _) & Hother & Hnext).
  pose proof (new_possession_events t s) as Hev.
  assert (G !! next_pref s = None) as Hfresh.
  { apply eq_None_not_Some. intros HS%(ok_dom _ _ Hok)%(ok_fresh_p _ _ Hok). lia. }
  split.
  - intros p. destruct (decide (p = next_pref s)) as [->|Hne].
    + rewrite lookup_insert_eq, Hn0. split; eauto.
    + rewrite lookup_insert_ne by done. destruct (Hother p Hne) as (f & -> & _).
      rewrite fmap_is_Some. apply Hok.
  - intros p L. destruct (decide (p = next_pref s)) as [->|Hne].
    + rewrite lookup_insert_eq. intros [= <-]. exists n0.
      repeat split; try done. constructor.
    + rewrite lookup_insert_ne by done. intros HL.
      destruct (ok_chain _ _ Hok p L HL) as (node & Hp & Hfirst & Hlast & Hlinked).
      destruct (Hother p Hne) as (f & Hp' & Hf). exists (f node).
      rewrite Hp', Hp. destruct (Hf node) as (-> & -> & _).
      repeat split; try done; [apply Hlinked|].
      intros i e Hi. rewrite Hev. by apply Hlinked.
  - intros e. rewrite new_possession_m_events. intros He.
    destruct (ok_listed _ _ Hok e He) as (p & L & Hp & HL & HeL).
    exists p, L. unfold possession_of in *. rewrite Hev. split; [done|].
    split; [|done]. rewrite lookup_insert_ne; [done|]. intros <-. congruence.
  - rewrite new_possession_m_events. apply Hok.
  - intros e. rewrite Hev, new_possession_next_eref. apply Hok.
  - intros p. rewrite Hnext. destruct (decide (p = next_pref s)) as [->|Hne]; [lia|].
    destruct (Hother p Hne) as (f & -> & _). rewrite fmap_is_Some.
    intros HS%(ok_fresh_p _ _ Hok). lia.
Qed.

Lemma add_event_no_possession a s :
  a_possession a = None →
  add_event a s
  = add_event (with_a_possession (next_pref s) a) (new_possession (a_team a) s).1.
Proof.
  intros Hnone. unfold add_event. rewrite Hnone. simpl.
  rewrite <-(new_possession_ref (a_team a) s).
  by destruct (new_possession (a_team a) s).
Qed.

(** What [add_event] does to the objects, when the possession is given. *)
Lemma add_event_objects a s p node s' e :
  a_possession a = Some p →
  possessions s !! p = Some node →
  last_event node ≠ Some (next_eref s) →
  add_event a s = Some (s', e) →
  e = next_eref s
  ∧ events s' !! e = Some (created_event a p (last_event node))
  ∧ (∀ x, x ≠ e →
       events s' !! x =
         if decide (last_event node = Some x)
         then with_next (Some e) <$> events s !! x else events s !! x)
  ∧ possessions s' !! p
    = Some (mkPossessionNode (poss_id node) (team_in_possession node)
              (prev_possession node) (next_possession node)
              (match last_event node with
               | None => Some e | Some _ => first_event node end)
              (Some e))
  ∧ (∀ q, q ≠ p → possessions s' !! q = possessions s !! q)
  ∧ next_pref s' = next_pref s.
Proof.
  intros Hp Hnode Hfresh. unfold add_event, poss_add_event. rewrite Hp. simpl.
  rewrite Hnode. simpl.
  destruct (last_event node) as [l|] eqn:Hlast; simpl; intros [= <- <-]; simpl.
  - assert (l ≠ next_eref s) as Hne by congruence.
    split; [done|]. split; [|split; [|split; [|split; [|done]]]].
    + rewrite lookup_alter_ne by done. by rewrite !lookup_alter_eq, lookup_insert_eq.
    + intros x Hx. rewrite lookup_alter. case_decide as Hl.
      * subst x. rewrite decide_True by done.
        by rewrite !lookup_alter_ne, lookup_insert_ne by done.
      * rewrite decide_False by congruence.
        by rewrite !lookup_alter_ne, lookup_insert_ne by done.
    + rewrite lookup_alter_eq, Hnode. simpl. unfold with_last_event. done.
    + intros q Hq. by rewrite lookup_alter_ne.
  - split; [done|]. split; [|split; [|split; [|split; [|done]]]].
    + by rewrite lookup_alter_eq, lookup_insert_eq.
    + intros x Hx. by rewrite lookup_alter_ne, lookup_insert_ne by done.
    + rewrite lookup_alter_eq, Hnode. done.
    + intros q Hq. by rewrite lookup_alter_ne.
Qed.

Lemma add_event_defined a s p :
  a_possession a = Some p → is_Some (possessions s !! p) →
  is_Some (add_event a s).
Proof.
  intros Hp [node Hnode]. unfold add_event, poss_add_event. rewrite Hp. simpl.
  rewrite Hnode. simpl. destruct (last_event node); simpl; eauto.
Qed.

Lemma listed_allocated s G e :
  chains_ok s G → e ∈ _events (the_match s) → (e < next_eref s)%nat.
Proof.
  intros Hok (p & L & Hp & _)%(ok_listed _ _ Hok). apply (ok_fresh_e _ _ Hok).
  unfold possession_of in Hp. destruct (events s !! e); [eauto|done].
Qed.

Lemma last_is_end {A} (L : list A) i x :
  NoDup L → last L = Some x → L !! i = Some x → S i = length L.
Proof.
  intros Hnd Hlast Hi. rewrite last_lookup in Hlast.
  pose proof (NoDup_lookup _ _ _ _ Hnd Hi Hlast) as ->.
  apply lookup_lt_Some in Hi. lia.
Qed.

Lemma add_event_chains a s G p L s' e :
  chains_ok s G → a_possession a = Some p → G !! p = Some L →
  add_event a s = Some (s', e) →
  chains_ok s' (<[p := L ++ [e]]> G).
Proof.
  intros Hok Hp HL Hadd.
  destruct (ok_chain _ _ Hok p L HL) as (node & Hnode & Hfirst & Hlast & Hlinked).
  assert (∀ x, x ∈ L → (x < next_eref s)%nat) as HLfresh.
  { intros x Hx. apply (ok_fresh_e _ _ Hok). by eapply linked_allocated. }
  assert (last_event node ≠ Some (next_eref s)) as Hlast_ne.
  { rewrite Hlast. intros Hl. apply last_Some_elem_of in Hl.
    apply HLfresh in Hl. lia. }
  destruct (add_event_objects _ _ _ _ _ _ Hp Hnode Hlast_ne Hadd)
    as (-> & Hev_e & Hev_x & Hnode' & Hq & Hnp).
  destruct (add_event_effect _ _ _ _ Hadd) as (_ & Hnext & _ & Hlist).
  assert (∀ x, x ≠ next_eref s →
            possession_of s' x = possession_of s x
            ∧ (is_Some (events s' !! x) ↔ is_Some (events s !! x))) as Hposs.
  { intros x Hx. unfold possession_of. rewrite (Hev_x x Hx).
    case_decide; [|done]. rewrite fmap_is_Some.
    by destruct (events s !! x). }
  assert (next_eref s ∉ L) as HeL by (intros ?%HLfresh; lia).
  split.
  - intros q. destruct (decide (q = p)) as [->|Hne].
    + rewrite lookup_insert_eq, Hnode'. split; eauto.
    + rewrite lookup_insert_ne, Hq by done. apply Hok.
  - intros q Lq. destruct (decide (q = p)) as [->|Hne].
    + rewrite lookup_insert_eq. intros [= <-]. eexists. split; [exact Hnode'|].
      simpl. split; [|split; [by rewrite last_snoc|]].
      { rewrite Hlast, Hfirst. destruct L as [|z L']; [done|].
        destruct (last (z :: L')) eqn:Hz; [done|]. by apply last_None in Hz. }
      destruct Hlinked as [Hnd Hlk]. split.
      { apply NoDup_app. split; [done|]. split; [|apply NoDup_singleton].
        intros x Hx ->%list_elem_of_singleton. done. }
      intros i x Hi. apply lookup_app_Some in Hi as [Hi|[Hge Hi]].
      * assert (x ≠ next_eref s) as Hx.
        { intros ->. apply HeL. by eapply list_elem_of_lookup_2. }
        destruct (Hlk i x Hi) as (ev & Hev & Hown & Hprev & Hnx).
        pose proof (lookup_lt_Some _ _ _ Hi) as Hlt.
        rewrite (Hev_x x Hx), Hev, Hlast. case_decide as Hend; simpl.
        -- eexists. split; [done|]. simpl. split; [done|]. split.
           ++ rewrite Hprev. destruct i; [done|]. by rewrite lookup_app_l by lia.
           ++ rewrite (last_is_end L i x Hnd Hend Hi).
              by rewrite list_lookup_middle.
        -- eexists. split; [done|]. split; [done|]. split.
           ++ rewrite Hprev. destruct i; [done|]. by rewrite lookup_app_l by lia.
           ++ rewrite Hnx. destruct (decide (S i = length L)) as [Heq|Hneq].
              ** exfalso. apply Hend. rewrite last_lookup, <-Heq. done.
              ** by rewrite lookup_app_l by lia.
      * apply list_lookup_singleton_Some in Hi as [Hi <-].
        assert (i = length L) as -> by lia.
        eexists. split; [exact Hev_e|]. simpl. split; [done|]. split.
        -- rewrite Hlast, last_lookup. destruct L as [|z L']; [done|].
           cbn [length pred]. by rewrite lookup_app_l by (simpl; lia).
        -- symmetry. apply lookup_ge_None. rewrite length_app. simpl. lia.
    + rewrite lookup_insert_ne by done. intros HLq.
      destruct (ok_chain _ _ Hok q Lq HLq) as (nq & Hnq & Hfq & Hlq & Hlinkq).
      exists nq. rewrite Hq by done. split; [done|]. split; [done|]. split; [done|].
      apply (linked_ext s); [done|]. intros x Hx.
      assert (x ≠ next_eref s) as Hxe.
      { intros ->. pose proof (linked_allocated _ _ _ _ Hlinkq Hx) as Ha.
        apply (ok_fresh_e _ _ Hok) in Ha. lia. }
      rewrite (Hev_x x Hxe). rewrite decide_False; [done|].
      rewrite Hlast. intros Hl%last_Some_elem_of.
      pose proof (linked_owner _ _ _ _ Hlinked Hl) as H1.
      pose proof (linked_owner _ _ _ _ Hlinkq Hx) as H2. congruence.
  - intros x. rewrite Hlist, list_insert_at_perm. intros [->|Hx]%elem_of_cons.
    + exists p, (L ++ [next_eref s]). unfold possession_of. rewrite Hev_e. simpl.
      split; [done|]. rewrite lookup_insert_eq. split; [done|].
      apply elem_of_app. right. by apply list_elem_of_singleton.
    + destruct (ok_listed _ _ Hok x Hx) as (q & Lq & Hown & HLq & HxLq).
      assert (x ≠ next_eref s) as Hxe.
      { intros ->. pose proof (listed_allocated _ _ _ Hok Hx). lia. }
      destruct (Hposs x Hxe) as [-> _]. destruct (decide (q = p)) as [->|Hne].
      * exists p, (L ++ [next_eref s]). rewrite lookup_insert_eq.
        split; [done|]. split; [done|]. apply elem_of_app. left. congruence.
      * exists q, Lq. by rewrite lookup_insert_ne.
  - rewrite Hlist, list_insert_at_perm. apply NoDup_cons. split; [|apply Hok].
    intros Hin. pose proof (listed_allocated _ _ _ Hok Hin). lia.
  - intros x Hx. rewrite Hnext. destruct (decide (x = next_eref s)) as [->|Hxe]; [lia|].
    destruct (Hposs x Hxe) as [_ Hiff]. apply Hiff, (ok_fresh_e _ _ Hok) in Hx. lia.
  - intros q. rewrite Hnp. destruct (decide (q = p)) as [->|Hne].
    + intros _. apply (ok_fresh_p _ _ Hok). eauto.
    + rewrite Hq by done. apply Hok.
Qed.

(** ** [delete_event] on a well-formed store *)

Lemma list_remove_nodup (l : list nat) i x :
  NoDup l → l !! i = Some x → list_remove x l = Some (delete i l).
Proof.
  revert i. induction l as [|y l IH]; intros i Hnd Hi; [done|].
  apply NoDup_cons in Hnd as [Hy Hnd]. simpl.
  destruct i as [|i]; simpl in *.
  - injection Hi as ->. by rewrite decide_True.
  - rewrite decide_False.
    + by rewrite (IH i).
    + intros ->. apply Hy. by eapply list_elem_of_lookup_2.
Qed.


(** The store that [delete_event] leaves, computed from the target's own
    links. *)
Lemma delete_event_compute s idx target ev p node :
  _events (the_match s) !! idx = Some target →
  NoDup (_events (the_match s)) →
  events s !! target = Some ev →
  possession ev = Some p →
  possessions s !! p = Some node →
  prev_in_possession ev ≠ Some target →
  next_in_possession ev ≠ Some target →
  delete_event (Z.of_nat idx) s =
    (mkStore
       (match next_in_possession ev with
        | Some b => alter (with_prev (prev_in_possession ev)) b
        | None => id
        end
          (match prev_in_possession ev with
           | Some a => alter (with_next (next_in_possession ev)) a
           | None => id
           end (events s)))
       (<[p := mkPossessionNode (poss_id node) (team_in_possession node)
                 (prev_possession node) (next_possession node)
                 (if decide (first_event node = Some target)
                  then next_in_possession ev else first_event node)
                 (if decide (last_event node = Some target)
                  then prev_in_possession ev else last_event node)]>
          (possessions s))
       (next_eref s) (next_pref s)
       (with_events (delete idx (_events (the_match s))) (the_match s)),
     204%nat).
Proof.
  intros Hidx Hnd Hev Hown Hnode Hprev Hnext.
  unfold delete_event, Match_iter_events.
  pose proof (lookup_lt_Some _ _ _ Hidx).
  rewrite decide_False by lia. rewrite Nat2Z.id, Hidx.
  set (s1 := unlink_prev target s).
  assert (events s1 = match prev_in_possession ev with
                      | Some a => alter (with_next (next_in_possession ev)) a
                      | None => id
                      end (events s)
          ∧ possessions s1 = possessions s ∧ the_match s1 = the_match s
          ∧ next_eref s1 = next_eref s ∧ next_pref s1 = next_pref s)
    as (HV1 & HP1 & HM1 & HE1 & HN1).
  { unfold s1, unlink_prev, prev_of, next_of. rewrite Hev. simpl.
    by destruct (prev_in_possession ev). }
  assert (events s1 !! target = Some ev) as Hev1.
  { rewrite HV1. destruct (prev_in_possession ev) as [a|]; [|done].
    rewrite lookup_alter_ne; [done|congruence]. }
  set (s2 := unlink_next target s1).
  assert (events s2 = match next_in_possession ev with
                      | Some b => alter (with_prev (prev_in_possession ev)) b
                      | None => id
                      end (events s1)
          ∧ possessions s2 = possessions s ∧ the_match s2 = the_match s
          ∧ next_eref s2 = next_eref s ∧ next_pref s2 = next_pref s)
    as (HV2 & HP2 & HM2 & HE2 & HN2).
  { unfold s2, unlink_next, prev_of, next_of. rewrite Hev1. simpl.
    by destruct (next_in_possession ev). }
  assert (events s2 !! target = Some ev) as Hev2.
  { rewrite HV2. destruct (next_in_possession ev) as [b|]; [|done].
    rewrite lookup_alter_ne; [done|congruence]. }
  unfold fix_possession, possession_of. rewrite Hev2. simpl. rewrite Hown.
  set (s2' := fix_first target p s2).
  assert (events s2' = events s2 ∧ the_match s2' = the_match s
          ∧ next_eref s2' = next_eref s ∧ next_pref s2' = next_pref s
          ∧ possessions s2'
            = <[p := with_first_event
                       (if decide (first_event node = Some target)
                        then next_in_possession ev else first_event node) node]>
                (possessions s))
    as (HV2' & HM2' & HE2' & HN2' & HP2').
  { unfold s2', fix_first, first_event_of, next_of. rewrite HP2, Hnode, Hev2. simpl.
    case_decide; simpl; repeat split; try done.
    - rewrite HP2. apply map_eq. intros q. destruct (decide (q = p)) as [->|].
      + by rewrite lookup_alter_eq, lookup_insert_eq, Hnode.
      + by rewrite lookup_alter_ne, lookup_insert_ne.
    - rewrite HP2. symmetry. apply insert_id. rewrite Hnode. by destruct node. }
  set (s3 := fix_last target p s2').
  assert (events s3 = events s2 ∧ the_match s3 = the_match s
          ∧ next_eref s3 = next_eref s ∧ next_pref s3 = next_pref s
          ∧ possessions s3
            = <[p := mkPossessionNode (poss_id node) (team_in_possession node)
                       (prev_possession node) (next_possession node)
                       (if decide (first_event node = Some target)
                        then next_in_possession ev else first_event node)
                       (if decide (last_event node = Some target)
                        then prev_in_possession ev else last_event node)]>
                (possessions s))
    as (HV3 & HM3 & HE3 & HN3 & HP3).
  { unfold s3, fix_last, last_event_of, prev_of.
    rewrite HP2', lookup_insert_eq, HV2', Hev2. simpl.
    destruct (decide (last_event node = Some target)); simpl; repeat split; try done.
    - rewrite HP2'. apply map_eq. intros q. destruct (decide (q = p)) as [->|].
      + by rewrite lookup_alter_eq, !lookup_insert_eq.
      + by rewrite lookup_alter_ne, !lookup_insert_ne. }
  rewrite HM3, (list_remove_nodup _ idx) by done.
  unfold set_match. rewrite HM3, HV3, HV2, HV1, HE3, HN3, HP3. done.
Qed.

Lemma NoDup_delete_list {A} (l : list A) i : NoDup l → NoDup (delete i l).
Proof. intros. eapply sublist_NoDup; [done|apply sublist_delete]. Qed.

Lemma elem_of_delete_nodup {A} (l : list A) i x y :
  NoDup l → l !! i = Some x → y ∈ delete i l ↔ y ∈ l ∧ y ≠ x.
Proof.
  intros Hnd Hi. rewrite delete_take_drop.
  rewrite <-(take_drop_middle l i x Hi) in Hnd at 1.
  apply NoDup_app in Hnd as (_ & Hdisj & [Hx _]%NoDup_cons).
  rewrite <-(take_drop_middle l i x Hi) at 3.
  rewrite !elem_of_app, elem_of_cons. split.
  - intros [Hy|Hy]; (split; [auto|]); intros ->; [|done].
    apply (Hdisj x Hy). by left.
  - intros [[Hy|[->|Hy]] Hne]; auto. done.
Qed.

(** The links of the event at position [j] of a chain. *)
Lemma linked_position s p L j e ev :
  linked s p L → L !! j = Some e → events s !! e = Some ev →
  possession ev = Some p
  ∧ prev_in_possession ev = match j with O => None | S j' => L !! j' end
  ∧ next_in_possession ev = L !! S j
  ∧ prev_in_possession ev ≠ Some e
  ∧ next_in_possession ev ≠ Some e
  ∧ (head L = Some e ↔ j = 0%nat)
  ∧ (last L = Some e ↔ S j = length L).
Proof.
  intros HL Hj Hev. pose proof HL as [Hnd _].
  destruct (linked_lookup _ _ _ _ _ HL Hj) as (ev' & Hev' & Hown & Hprev & Hnext).
  simplify_eq. split; [done|]. split; [done|]. split; [done|].
  pose proof (lookup_lt_Some _ _ _ Hj) as Hlt.
  split; [|split; [|split]].
  - rewrite Hprev. destruct j as [|j']; [done|]. intros Hj'.
    pose proof (NoDup_lookup _ _ _ _ Hnd Hj Hj'). lia.
  - rewrite Hnext. intros Hj'.
    pose proof (NoDup_lookup _ _ _ _ Hnd Hj Hj'). lia.
  - rewrite head_lookup. split; [|by intros ->].
    intros H0. by apply (NoDup_lookup _ _ _ _ Hnd Hj H0).
  - rewrite last_lookup. split.
    + intros H0. pose proof (NoDup_lookup _ _ _ _ Hnd Hj H0). lia.
    + intros Heq. by replace (pred (length L)) with j by lia.
Qed.

Lemma listed_position s G e :
  chains_ok s G → e ∈ _events (the_match s) →
  ∃ p L j ev node, G !! p = Some L ∧ L !! j = Some e
    ∧ events s !! e = Some ev ∧ possession ev = Some p
    ∧ possessions s !! p = Some node
    ∧ first_event node = head L ∧ last_event node = last L ∧ linked s p L.
Proof.
  intros Hok (p & L & Hown & HL & [j Hj]%list_elem_of_lookup_1)%(ok_listed _ _ Hok).
  destruct (ok_chain _ _ Hok p L HL) as (node & Hnode & Hf & Hl & Hlinked).
  destruct (linked_lookup _ _ _ _ _ Hlinked Hj) as (ev & Hev & Hp & _).
  eauto 15.
Qed.

(** What [delete_event] does to a well-formed store, in terms of the
    position [j] of the target in its chain [L]. *)
Lemma delete_event_effect s G idx target p L j :
  chains_ok s G → _events (the_match s) !! idx = Some target →
  G !! p = Some L → L !! j = Some target →
  let prevT := match j with O => None | S j' => L !! j' end in
  let nextT := L !! S j in
  ∃ s' node, delete_event (Z.of_nat idx) s = (s', 204%nat)
    ∧ possessions s !! p = Some node
    ∧ (∀ x, events s' !! x =
         if decide (nextT = Some x) then with_prev prevT <$> events s !! x
         else if decide (prevT = Some x) then with_next nextT <$> events s !! x
         else events s !! x)
    ∧ possessions s'
      = <[p := mkPossessionNode (poss_id node) (team_in_possession node)
                 (prev_possession node) (next_possession node)
                 (if decide (j = 0%nat) then nextT else first_event node)
                 (if decide (S j = length L) then prevT else last_event node)]>
          (possessions s)
    ∧ the_match s' = with_events (delete idx (_events (the_match s))) (the_match s)
    ∧ next_eref s' = next_eref s ∧ next_pref s' = next_pref s.
Proof.
  intros Hok Hidx HL Hj prevT nextT.
  destruct (ok_chain _ _ Hok p L HL) as (node & Hnode & Hfirst & Hlast & Hlinked).
  destruct (linked_lookup _ _ _ _ _ Hlinked Hj) as (ev & Hev & _).
  destruct (linked_position _ _ _ _ _ _ Hlinked Hj Hev)
    as (Hown & Hprev & Hnext & Hpne & Hnne & Hhead & Hend).
  eexists _, node. split.
  { apply (delete_event_compute s idx target ev p node); try done. apply Hok. }
  split; [done|]. simpl. fold prevT in Hprev. fold nextT in Hnext.
  rewrite Hprev, Hnext. split; [|split; [|done]].
  - intros x. pose proof Hlinked as [Hnd _].
    assert (∀ a b, prevT = Some a → nextT = Some b → a ≠ b) as Hab.
    { unfold prevT, nextT. intros a b Ha Hb ->. destruct j as [|j']; [done|].
      pose proof (NoDup_lookup _ _ _ _ Hnd Ha Hb). lia. }
    destruct nextT as [b|], prevT as [a|]; simpl;
      rewrite ?lookup_alter; repeat case_decide; simplify_eq; try done.
    all: exfalso; by eapply Hab.
  - f_equal. f_equal.
    + rewrite Hfirst. destruct (decide (j = 0%nat)) as [Hj0|Hj0].
      * rewrite decide_True; [done|]. by apply Hhead.
      * rewrite decide_False; [done|]. by rewrite Hhead.
    + rewrite Hlast. destruct (decide (S j = length L)) as [Hj0|Hj0].
      * rewrite decide_True; [done|]. by apply Hend.
      * rewrite decide_False; [done|]. by rewrite Hend.
Qed.

Lemma head_delete {A} (L : list A) j :
  head (delete j L) = if decide (j = 0%nat) then L !! 1%nat else head L.
Proof.
  rewrite !head_lookup. case_decide as Hj.
  - subst. by rewrite list_lookup_delete_ge by lia.
  - by rewrite list_lookup_delete_lt by lia.
Qed.

Lemma last_delete {A} (L : list A) j :
  (j < length L)%nat →
  last (delete j L)
  = if decide (S j = length L)
    then match j with O => None | S j' => L !! j' end
    else last L.
Proof.
  intros Hj. rewrite !last_lookup, length_delete by (by apply lookup_lt_is_Some_2).
  case_decide as Hend.
  - destruct j as [|j'].
    + destruct L as [|? [|]]; simpl in *; try done; lia.
    + rewrite list_lookup_delete_lt by lia. f_equal. lia.
  - rewrite list_lookup_delete_ge by lia. f_equal. lia.
Qed.

Lemma delete_event_chains s G idx target p L j :
  chains_ok s G → _events (the_match s) !! idx = Some target →
  G !! p = Some L → L !! j = Some target →
  chains_ok (delete_event (Z.of_nat idx) s).1 (<[p := delete j L]> G).
Proof.
  intros Hok Hidx HL Hj.
  destruct (delete_event_effect _ _ _ _ _ _ _ Hok Hidx HL Hj)
    as (s' & node & -> & Hnode & Hev & Hposs & Hmatch & Hne & Hnp).
  simpl.
  destruct (ok_chain _ _ Hok p L HL) as (node' & Hnode' & Hfirst & Hlast & Hlinked).
  simplify_eq. pose proof Hlinked as [Hnd Hlk].
  pose proof (lookup_lt_Some _ _ _ Hj) as Hjlt.
  assert (∀ x, possession_of s' x = possession_of s x
               ∧ (is_Some (events s' !! x) ↔ is_Some (events s !! x))) as Hsame.
  { intros x. unfold possession_of. rewrite Hev.
    repeat case_decide; rewrite ?fmap_is_Some; by destruct (events s !! x). }
  assert (∀ q Lq x, q ≠ p → G !! q = Some Lq → x ∈ Lq →
            events s' !! x = events s !! x) as Hother.
  { intros q Lq x Hq HLq Hx.
    destruct (ok_chain _ _ Hok q Lq HLq) as (_ & _ & _ & _ & Hlq).
    pose proof (linked_owner _ _ _ _ Hlq Hx) as Hown.
    assert (x ∉ L) as HxL.
    { intros HxL. pose proof (linked_owner _ _ _ _ Hlinked HxL). congruence. }
    rewrite Hev. rewrite !decide_False; [done| |].
    - destruct j; [done|]. intros ?%list_elem_of_lookup_2. done.
    - intros ?%list_elem_of_lookup_2. done. }
  split.
  - intros q. rewrite Hposs. destruct (decide (q = p)) as [->|Hq].
    + rewrite !lookup_insert_eq. split; eauto.
    + rewrite !lookup_insert_ne by done. apply Hok.
  - intros q Lq. rewrite Hposs. destruct (decide (q = p)) as [->|Hq].
    + rewrite !lookup_insert_eq. intros [= <-]. eexists. split; [done|]. simpl.
      split; [|split; [|split]].
      * rewrite head_delete, Hfirst. case_decide; [by subst|done].
      * rewrite last_delete, Hlast by done. by case_decide.
      * by apply NoDup_delete_list.
      * intros i x Hi. destruct (decide (i < j)%nat) as [Hlt|Hge].
        -- rewrite list_lookup_delete_lt in Hi by done.
           destruct (Hlk i x Hi) as (evx & Hevx & Hown & Hprev & Hnext).
           rewrite Hev, Hevx. rewrite decide_False.
           2:{ intros Hb. pose proof (NoDup_lookup _ _ _ _ Hnd Hi Hb). lia. }
           destruct (decide (S i = j)) as [<-|Hne'].
           ++ rewrite decide_True by done. eexists. split; [done|]. simpl.
              split; [done|]. split.
              ** rewrite Hprev. destruct i; [done|].
                 by rewrite list_lookup_delete_lt by lia.
              ** by rewrite list_lookup_delete_ge by lia.
           ++ rewrite decide_False.
              2:{ destruct j as [|j']; [done|]. intros Ha.
                  pose proof (NoDup_lookup _ _ _ _ Hnd Hi Ha). lia. }
              eexists. split; [done|]. split; [done|]. split.
              ** rewrite Hprev. destruct i; [done|].
                 by rewrite list_lookup_delete_lt by lia.
              ** rewrite Hnext. by rewrite list_lookup_delete_lt by lia.
        -- rewrite list_lookup_delete_ge in Hi by lia.
           destruct (Hlk (S i) x Hi) as (evx & Hevx & Hown & Hprev & Hnext).
           rewrite Hev, Hevx. destruct (decide (i = j)) as [->|Hne'].
           ++ rewrite decide_True by done. eexists. split; [done|]. simpl.
              split; [done|]. split.
              ** destruct j; [done|]. by rewrite list_lookup_delete_lt by lia.
              ** rewrite Hnext. by rewrite list_lookup_delete_ge by lia.
           ++ rewrite decide_False.
              2:{ intros Hb. pose proof (NoDup_lookup _ _ _ _ Hnd Hi Hb). lia. }
              rewrite decide_False.
              2:{ destruct j as [|j']; [done|]. intros Ha.
                  pose proof (NoDup_lookup _ _ _ _ Hnd Hi Ha). lia. }
              eexists. split; [done|]. split; [done|]. split.
              ** rewrite Hprev. destruct i as [|i']; [lia|].
                 by rewrite list_lookup_delete_ge by lia.
              ** rewrite Hnext. by rewrite list_lookup_delete_ge by lia.
    + rewrite !lookup_insert_ne by done. intros HLq.
      destruct (ok_chain _ _ Hok q Lq HLq) as (nq & Hnq & Hfq & Hlq & Hlinkq).
      exists nq. split; [done|]. split; [done|]. split; [done|].
      apply (linked_ext s); [done|]. intros x Hx. by eapply Hother.
  - intros x. rewrite Hmatch. simpl.
    rewrite (elem_of_delete_nodup _ idx target) by (done || apply Hok).
    intros [Hx Hxt]. destruct (ok_listed _ _ Hok x Hx) as (q & Lq & Hown & HLq & HxLq).
    destruct (Hsame x) as [-> _]. destruct (decide (q = p)) as [->|Hq].
    + exists p, (delete j L). rewrite lookup_insert_eq. split; [done|]. split; [done|].
      simplify_eq. by apply (elem_of_delete_nodup _ j target).
    + exists q, Lq. by rewrite lookup_insert_ne.
  - rewrite Hmatch. simpl. apply NoDup_delete_list, Hok.
  - intros x Hx. rewrite Hne. apply (ok_fresh_e _ _ Hok). by apply Hsame.
  - intros q. rewrite Hnp, Hposs. destruct (decide (q = p)) as [->|Hq].
    + intros _. apply (ok_fresh_p _ _ Hok). eauto.
    + rewrite lookup_insert_ne by done. apply Hok.
Qed.

(** ** [update_event]: a write to the scalar attributes of one object *)

Lemma scalar_write_refl e s : scalar_write e s s.
Proof.
  exists id. split; [done|]. destruct s. unfold set_event. simpl.
  f_equal. symmetry. by apply alter_id.
Qed.

Lemma scalar_write_trans e s1 s2 s3 :
  scalar_write e s1 s2 → scalar_write e s2 s3 → scalar_write e s1 s3.
Proof.
  intros (f & Hf & ->) (g & Hg & ->). exists (g ∘ f). split.
  - intros ev. simpl. destruct (Hf ev) as (<- & <- & <-). apply Hg.
  - unfold set_event. simpl. f_equal. by rewrite alter_alter_eq.
Qed.

Lemma scalar_write_patch {A} (v : option A) (set : A → Event → Event) e s :
  (∀ a, keeps_links (set a)) → scalar_write e s (patch_field v set e s).
Proof.
  intros Hset. destruct v as [a|]; simpl; [|apply scalar_write_refl].
  exists (set a). by split.
Qed.

Lemma update_event_scalar_write index data s e :
  get_event_by_index s index = Some e →
  scalar_write e s (update_event index data s).1.
Proof.
  intros He. unfold update_event. rewrite He.
  assert (∀ s0 s1, scalar_write e s0 s1 →
    scalar_write e s0
      (patch_field (u_tags data) with_tags e
         (patch_field (u_y data) with_y e
            (patch_field (u_x data) with_x e
               (patch_field (u_description data) with_description e
                  (patch_field (u_player data) with_player e
                     (patch_field (u_team data) with_team e s1))))))) as Htail.
  { intros s0 s1 H01.
    repeat (eapply scalar_write_trans; [|by apply scalar_write_patch]). done. }
  assert (∀ q, scalar_write e s (set_event e (with_match_time q) s)) as Hmt.
  { intros q. by exists (with_match_time q). }
  destruct (u_match_time data) as [[q|]|]; simpl; try apply scalar_write_refl;
    destruct (u_event_type data) as [v|]; simpl;
    try destruct (EventType_of_value v) as [et|]; simpl;
    try apply Htail; try apply scalar_write_refl; try apply Hmt.
  - eapply scalar_write_trans; [apply Hmt|]. by exists (with_event_type et).
  - by exists (with_event_type et).
Qed.

Lemma update_event_not_found index data s :
  get_event_by_index s index = None → update_event index data s = (s, 404%nat).
Proof. intros He. unfold update_event. by rewrite He. Qed.

Lemma scalar_write_chains e s s' G :
  scalar_write e s s' → chains_ok s G → chains_ok s' G.
Proof.
  intros (f & Hf & ->) Hok.
  assert (∀ x, events (set_event e f s) !! x
               = (if decide (e = x) then f else id) <$> events s !! x) as Hlook.
  { intros x. simpl. rewrite lookup_alter. case_decide; subst; [done|].
    by rewrite option_fmap_id. }
  assert (∀ x, keeps_links (if decide (e = x) then f else id)) as Hkeep.
  { intros x. by case_decide. }
  split; simpl.
  - apply Hok.
  - intros p L HL. destruct (ok_chain _ _ Hok p L HL) as (node & ? & ? & ? & [Hnd Hlk]).
    exists node. repeat split; try done.
    intros i x Hi. destruct (Hlk i x Hi) as (ev & Hev & Hown & Hprev & Hnext).
    setoid_rewrite Hlook. rewrite Hev. simpl. eexists. split; [done|].
    destruct (Hkeep x ev) as (-> & -> & ->). done.
  - intros x Hx. destruct (ok_listed _ _ Hok x Hx) as (p & L & Hown & ? & ?).
    exists p, L. split; [|done]. unfold possession_of in *.
    setoid_rewrite Hlook. destruct (events s !! x) as [ev|]; [|done]. simpl in *.
    by destruct (Hkeep x ev) as (_ & _ & ->).
  - apply Hok.
  - intros x. rewrite lookup_alter. case_decide; subst; rewrite ?fmap_is_Some;
      apply Hok.
  - apply Hok.
Qed.

Lemma update_event_chains index data s G :
  chains_ok s G → chains_ok (update_event index data s).1 G.
Proof.
  intros Hok. destruct (get_event_by_index s index) as [e|] eqn:He.
  - eapply scalar_write_chains; [|done]. by apply update_event_scalar_write.
  - by rewrite update_event_not_found.
Qed.

Lemma delete_event_out_of_range index s :
  ((index < 0)%Z ∨ (Z.of_nat (length (_events (the_match s))) ≤ index)%Z) →
  delete_event index s = (s, 404%nat).
Proof. intros Hr. unfold delete_event, Match_iter_events. by rewrite decide_True. Qed.

(** ** Every reachable store is well formed *)

Lemma step_chains s o s' G :
  chains_ok s G → step s o = Some s' → ∃ G', chains_ok s' G'.
Proof.
  intros Hok Hstep. destruct o as [t|a|i d|i]; simpl in Hstep.
  - injection Hstep as <-. eexists. by apply new_possession_chains.
  - destruct (add_event a s) as [[s1 e]|] eqn:Hadd; simplify_eq/=.
    destruct (a_possession a) as [p|] eqn:Hp.
    + destruct (G !! p) as [L|] eqn:HL.
      * eexists. by eapply add_event_chains.
      * exfalso. apply eq_None_not_Some in HL.
        assert (possessions s !! p = None) as Hnone.
        { apply eq_None_not_Some. intros HS. apply HL. by apply (ok_dom _ _ Hok). }
        unfold add_event, poss_add_event in Hadd. rewrite Hp in Hadd. simpl in Hadd.
        by rewrite Hnone in Hadd.
    + rewrite add_event_no_possession in Hadd by done.
      eexists.
      eapply (add_event_chains (with_a_possession (next_pref s) a)
                (new_possession (a_team a) s).1 _ (next_pref s) []);
        [apply new_possession_chains, Hok|done|apply lookup_insert_eq|exact Hadd].
  - injection Hstep as <-. eexists. by apply update_event_chains.
  - injection Hstep as <-.
    destruct (decide ((i < 0)%Z ∨ (Z.of_nat (length (_events (the_match s))) ≤ i)%Z))
      as [Hout|Hin].
    + rewrite delete_event_out_of_range by done. eauto.
    + destruct (lookup_lt_is_Some_2 (_events (the_match s)) (Z.to_nat i))
        as [target Ht]; [lia|].
      destruct (listed_position s G target Hok) as (p & L & j & ev & node & HL & Hj & _).
      { by eapply list_elem_of_lookup_2. }
      replace i with (Z.of_nat (Z.to_nat i)) by lia.
      eexists. by eapply delete_event_chains.
Qed.

Lemma run_chains ops : ∀ s s' G,
  chains_ok s G → run s ops = Some s' → ∃ G', chains_ok s' G'.
Proof.
  induction ops as [|o ops IH]; intros s s' G Hok Hrun; simpl in Hrun.
  - injection Hrun as <-. eauto.
  - destruct (step s o) as [s1|] eqn:Hstep; simpl in Hrun; [|done].
    destruct (step_chains _ _ _ _ Hok Hstep) as [G1 Hok1]. eauto.
Qed.

Lemma reachable_chains home away ops s :
  run (new_match home away) ops = Some s → ∃ G, chains_ok s G.
Proof. apply run_chains with ∅, chains_ok_new_match. Qed.

(** ** Claims on the possession chains *)





(** ** Claims on [update_event] *)

Lemma patch_field_events {A} (v : option A) (set : A → Event → Event) e s x :
  events (patch_field v set e s) !! x
  = if decide (e = x) then default id (set <$> v) <$> events s !! x
    else events s !! x.
Proof.
  destruct v as [a|]; simpl.
  - rewrite lookup_alter. case_decide; by subst.
  - case_decide; [|done]. by rewrite option_fmap_id.
Qed.

Lemma patch_field_rest {A} (v : option A) (set : A → Event → Event) e s :
  the_match (patch_field v set e s) = the_match s
  ∧ possessions (patch_field v set e s) = possessions s.
Proof. by destruct v. Qed.

(** A store in time order that an update of [match_time] leaves out of
    order: the three events of [demo_ops], the first of which is moved from
    time 5 to time 30. *)
Lemma update_event_unsorts :
  ∃ s0, run (new_match "Team A" "Team B") demo_ops = Some s0
    ∧ timeline_ok s0
    ∧ Match_iter_events (update_event 0 (patch_time 30) s0).1
      = Match_iter_events s0
    ∧ ¬ timeline_ok (update_event 0 (patch_time 30) s0).1.
Proof.
  eexists. split; [vm_compute; reflexivity|]. split; [|split].
  - eapply (run_add_events [pass_at 10; with_a_possession 0 (pass_at 5);
                             with_a_possession 0 (pass_at 20)]);
      [apply (timeline_ok_new_match "Team A" "Team B")|vm_compute; reflexivity].
  - vm_compute. reflexivity.
  - intros [Hsorted _].
    pose proof (StronglySorted_lookup _ _ 0 1 1%nat 0%nat Hsorted) as Hp.
    destruct Hp as (t1 & t2 & Ht1 & Ht2 & Hcmp); [lia|vm_compute; reflexivity..|].
    vm_compute in Ht1, Ht2. simplify_eq.
    destruct Hcmp as [Hlt|[_ Hlt]]; [|lia].
    vm_compute in Hlt. discriminate.
Qed.

Lemma set_event_set_event e f g s :
  set_event e g (set_event e f s) = set_event e (g ∘ f) s.
Proof. unfold set_event. simpl. by rewrite alter_alter_eq. Qed.

Lemma set_event_id e s : set_event e id s = s.
Proof. unfold set_event. rewrite alter_id by done. by destruct s. Qed.

Lemma patch_field_set_event {A} (v : option A) (set : A → Event → Event) e s :
  patch_field v set e s = set_event e (default id (set <$> v)) s.
Proof. destruct v as [a|]; simpl; [done|]. by rewrite set_event_id. Qed.

Lemma patch_event_fields mt et data ev :
  let ev' := patch_event mt et data ev in
  match_time ev' = default (match_time ev) mt
  ∧ event_type ev' = default (event_type ev) et
  ∧ team ev' = default (team ev) (u_team data)
  ∧ player ev' = default (player ev) (u_player data)
  ∧ description ev' = default (description ev) (u_description data)
  ∧ ev_x ev' = default (ev_x ev) (u_x data)
  ∧ ev_y ev' = default (ev_y ev) (u_y data)
  ∧ tags ev' = default (tags ev) (u_tags data)
  ∧ prev_in_possession ev' = prev_in_possession ev
  ∧ next_in_possession ev' = next_in_possession ev
  ∧ possession ev' = possession ev.
Proof.
  unfold patch_event. destruct data as [? ? t pl d x y tg]. simpl.
  destruct mt, et, t, pl, d, x, y, tg; simpl; repeat split; reflexivity.
Qed.

(** [update_event] on an index that names an object, outcome by outcome. *)
Lemma update_event_compute index data s e :
  get_event_by_index s index = Some e →
  update_event index data s =
    match u_match_time data with
    | Some JNotFloat => (s, 400%nat)
    | mt =>
        let mt' := match mt with Some (JFloat q) => Some q | _ => None end in
        match u_event_type data with
        | Some v =>
            match EventType_of_value v with
            | None => (set_event e (default id (with_match_time <$> mt')) s, 400%nat)
            | Some et => (set_event e (patch_event mt' (Some et) data) s, 200%nat)
            end
        | None => (set_event e (patch_event mt' None data) s, 200%nat)
        end
    end.
Proof.
  intros He. unfold update_event. rewrite He.
  assert (∀ s1 g, s1 = set_event e g s →
    patch_field (u_tags data) with_tags e
      (patch_field (u_y data) with_y e
         (patch_field (u_x data) with_x e
            (patch_field (u_description data) with_description e
               (patch_field (u_player data) with_player e
                  (patch_field (u_team data) with_team e s1)))))
    = set_event e
        (default id (with_tags <$> u_tags data)
         ∘ default id (with_y <$> u_y data)
         ∘ default id (with_x <$> u_x data)
         ∘ default id (with_description <$> u_description data)
         ∘ default id (with_player <$> u_player data)
         ∘ default id (with_team <$> u_team data) ∘ g) s) as Htail.
  { intros s1 g ->. by rewrite !patch_field_set_event, !set_event_set_event. }
  destruct (u_match_time data) as [[q|]|]; [|done|]; simpl;
    (destruct (u_event_type data) as [v|]; simpl;
     [destruct (EventType_of_value v) as [et|]; simpl|]).
  - f_equal. rewrite (Htail _ (with_event_type et ∘ with_match_time q)); [done|].
    by rewrite set_event_set_event.
  - done.
  - f_equal. by rewrite (Htail _ (with_match_time q)).
  - f_equal. by rewrite (Htail _ (with_event_type et)).
  - by rewrite set_event_id.
  - f_equal. rewrite (Htail _ id); [done|]. by rewrite set_event_id.
Qed.

(** C7.  An [update_event] that sets [match_time] writes to the one object
    addressed: the flat list is left as it was, so every event keeps its
    position and the list is not re-sorted; the object gets the new time
    and keeps its links, its owner and, when the request succeeds, every
    attribute the body does not name; every other event and every
    possession is unchanged.  The last part shows a store whose flat list
    is in time order before such an update and no longer after it. *)
Theorem update_event_in_place
    (s : Store) (index : Z) (data : EventPatch) (q : Qc) (e : eref) (ev : Event) :
  u_match_time data = Some (JFloat q) →
  get_event_by_index s index = Some e →
  events s !! e = Some ev →
  let s' := (update_event index data s).1 in
  Match_iter_events s' = Match_iter_events s
  ∧ the_match s' = the_match s
  ∧ possessions s' = possessions s
  ∧ (∀ x, x ≠ e → events s' !! x = events s !! x)
  ∧ (∃ ev', events s' !! e = Some ev'
       ∧ match_time ev' = q
       ∧ prev_in_possession ev' = prev_in_possession ev
       ∧ next_in_possession ev' = next_in_possession ev
       ∧ possession ev' = possession ev
       ∧ ((update_event index data s).2 ≠ 200%nat → ev' = with_match_time q ev)
       ∧ ((update_event index data s).2 = 200%nat →
            event_type ev'
              = default (event_type ev) (u_event_type data ≫= EventType_of_value)
            ∧ team ev' = default (team ev) (u_team data)
            ∧ player ev' = default (player ev) (u_player data)
            ∧ description ev' = default (description ev) (u_description data)
            ∧ ev_x ev' = default (ev_x ev) (u_x data)
            ∧ ev_y ev' = default (ev_y ev) (u_y data)
            ∧ tags ev' = default (tags ev) (u_tags data)))
  ∧ (∃ s0, run (new_match "Team A" "Team B") demo_ops = Some s0
       ∧ timeline_ok s0
       ∧ Match_iter_events (update_event 0 (patch_time 30) s0).1
         = Match_iter_events s0
       ∧ ¬ timeline_ok (update_event 0 (patch_time 30) s0).1).
Proof.
  intros Hmt He Hev s'.
  assert (∃ f, s' = set_event e f s
               ∧ (∀ ev0, match_time (f ev0) = q
                         ∧ prev_in_possession (f ev0) = prev_in_possession ev0
                         ∧ next_in_possession (f ev0) = next_in_possession ev0
                         ∧ possession (f ev0) = possession ev0)
               ∧ ((update_event index data s).2 ≠ 200%nat → f = with_match_time q)
               ∧ ((update_event index data s).2 = 200%nat →
                    f = patch_event (Some q)
                          (u_event_type data ≫= EventType_of_value) data))
    as (f & Hs' & Hkeep & Hfail & Hfields).
  { unfold s'. rewrite (update_event_compute _ _ _ _ He), Hmt.
    destruct (u_event_type data) as [v|]; simpl;
      [destruct (EventType_of_value v) as [et|]; simpl|].
    - eexists. split; [done|]. split; [|done]. intros ev0.
      by destruct (patch_event_fields (Some q) (Some et) data ev0)
        as (? & _ & _ & _ & _ & _ & _ & _ & ? & ? & ?).
    - eexists. split; [done|]. split; [|done]. by intros ev0.
    - eexists. split; [done|]. split; [|done]. intros ev0.
      by destruct (patch_event_fields (Some q) None data ev0)
        as (? & _ & _ & _ & _ & _ & _ & _ & ? & ? & ?). }
  refine (conj _ (conj _ (conj _ (conj _ (conj _ update_event_unsorts)))));
    rewrite Hs'; try reflexivity.
  - intros x Hx. simpl. by rewrite lookup_alter_ne.
  - exists (f ev). simpl. rewrite lookup_alter_eq, Hev.
    split; [done|]. destruct (Hkeep ev) as (-> & -> & -> & ->).
    split; [done|]. split; [done|]. split; [done|]. split; [done|].
    split; [intros Hfailed; by rewrite (Hfail Hfailed)|].
    intros H200. rewrite (Hfields H200).
    by destruct (patch_event_fields (Some q)
                   (u_event_type data ≫= EventType_of_value) data ev)
      as (_ & ? & ? & ? & ? & ? & ? & ? & _).
Qed.

Lemma update_event_in_place_witness :
  ∃ s, run (new_match "Team A" "Team B") demo_ops = Some s
       ∧ Match_iter_events (update_event 0 (patch_time 30) s).1
         = Match_iter_events s.
Proof.
  eexists. split; [vm_compute; reflexivity|].
  lazymatch goal with
  | |- context [update_event 0 _ ?s0] =>
      eapply (update_event_in_place s0 0 (patch_time 30) (Qc_of_Z 30) 1%nat)
  end.
  - reflexivity.
  - vm_compute. reflexivity.
  - vm_compute. reflexivity.
Defined.

(** ** The ingestion loop runs to its end *)

Lemma new_possession_allocated t s q :
  is_Some (possessions s !! q) ∨ q = next_pref s →
  is_Some (possessions (new_possession t s).1 !! q).
Proof.
  destruct (new_possession_nodes t s) as ((n0 & Hn0 & _) & Hother & _).
  destruct (decide (q = next_pref s)) as [->|Hne]; [by eauto|].
  intros [Hq|?]; [|done]. destruct (Hother q Hne) as (f & -> & _).
  by rewrite fmap_is_Some.
Qed.

Lemma add_event_allocated a s s' e q :
  add_event a s = Some (s', e) → is_Some (a_possession a) →
  is_Some (possessions s !! q) → is_Some (possessions s' !! q).
Proof.
  unfold add_event, poss_add_event. intros Hadd [p Hp]. rewrite Hp in Hadd.
  simpl in Hadd. destruct (possessions s !! p) as [node|]; simpl in Hadd; [|done].
  destruct (last_event node); simplify_eq/=; rewrite lookup_alter;
    case_decide; subst; by rewrite ?fmap_is_Some.
Qed.

Lemma ingest_event_returns config st ev :
  pitch_length config ≠ 0 → pitch_width config ≠ 0 → dict_ok st →
  ∃ st', ingest_event config st ev = Returned st' ∧ dict_ok st'.
Proof.
  intros Hlen Hwid Hok. destruct st as [s poss]. unfold ingest_event.
  destruct (truthy (sb_type_name ev)) as [ty|]; [|by eauto].
  case_decide; [by eauto|].
  destruct (sb_minute ev) as [minute|]; [|by eauto].
  destruct (sb_second ev) as [second|]; [|by eauto].
  destruct (truthy (sb_team_name ev)) as [team_name|]; [|by eauto].
  set (ptn := default team_name (truthy (sb_possession_team_name ev))).
  assert (∃ s1 poss1 p,
    match sb_possession ev with
    | Some poss_id =>
        match poss !! poss_id with
        | Some p => (s, poss, p)
        | None => let '(s1, p) := new_possession ptn s in (s1, <[poss_id:=p]> poss, p)
        end
    | None => let '(s1, p) := new_possession ptn s in (s1, poss, p)
    end = (s1, poss1, p)
    ∧ dict_ok (s1, poss1) ∧ is_Some (possessions s1 !! p)) as (s1 & poss1 & p & -> & Hok1 & Hp).
  { pose proof (new_possession_ref ptn s) as Hr.
    destruct (sb_possession ev) as [pid|];
      [destruct (poss !! pid) as [p|] eqn:Hpid|].
    - exists s, poss, p. split; [done|]. split; [done|]. by apply (Hok pid).
    - destruct (new_possession ptn s) as [s1 p] eqn:Hnp. simpl in Hr. subst p.
      exists s1, (<[pid := next_pref s]> poss), (next_pref s).
      assert (s1 = (new_possession ptn s).1) as -> by (by rewrite Hnp).
      split; [done|]. split; [|apply new_possession_allocated; by right].
      intros pid' p'. simpl. rewrite lookup_insert. case_decide.
      + intros [= <-]. apply new_possession_allocated. by right.
      + intros Hp'. apply new_possession_allocated. left. by apply (Hok pid').
    - destruct (new_possession ptn s) as [s1 p] eqn:Hnp. simpl in Hr. subst p.
      exists s1, poss, (next_pref s).
      assert (s1 = (new_possession ptn s).1) as -> by (by rewrite Hnp).
      split; [done|]. split; [|apply new_possession_allocated; by right].
      intros pid' p' Hp'. apply new_possession_allocated. left. by apply (Hok pid'). }
  assert (∃ x y,
    match sb_location ev with
    | Some (raw_x, raw_y) =>
        if decide (pitch_length config = 0 ∨ pitch_width config = 0)
        then Raised ZeroDivisionError
        else Returned (Some (raw_x / pitch_length config),
                       Some (raw_y / pitch_width config))
    | None => Returned (None, None)
    end = Returned (x, y)) as (x & y & ->).
  { destruct (sb_location ev) as [[rx ry]|]; [|by eauto].
    rewrite decide_False by tauto. eauto. }
  match goal with
  | |- context [add_event ?a s1] =>
      destruct (add_event_defined a s1 p eq_refl Hp) as [[s2 e] Hadd];
      rewrite Hadd
  end.
  eexists. split; [done|]. intros pid' p' Hp'. simpl in *.
  eapply add_event_allocated; [done|by eauto|]. by apply (Hok1 pid').
Qed.

Lemma ingest_loop_returns config evs : ∀ st,
  pitch_length config ≠ 0 → pitch_width config ≠ 0 → dict_ok st →
  ∃ st', ingest_loop config evs st = Returned st'.
Proof.
  induction evs as [|ev evs IH]; intros st Hlen Hwid Hok; simpl; [by eauto|].
  destruct (ingest_event_returns config st ev Hlen Hwid Hok) as (st' & -> & Hok').
  by apply IH.
Qed.

(** ** Claims on the StatsBomb ingestion *)

Lemma ingest_event_skips config st ev :
  missing_timing ev → ingest_event config st ev = Returned st.
Proof.
  intros Hmiss. unfold ingest_event. destruct st as [s poss].
  destruct (truthy (sb_type_name ev)); [|done].
  case_decide; [done|].
  destruct Hmiss as [-> | ->]; [done|]. by destruct (sb_minute ev).
Qed.

Lemma ingest_loop_app config l1 l2 st :
  ingest_loop config (l1 ++ l2) st
  = match ingest_loop config l1 st with
    | Returned st' => ingest_loop config l2 st'
    | Raised e => Raised e
    end.
Proof.
  revert st. induction l1 as [|ev l1 IH]; intros st; simpl; [done|].
  destruct (ingest_event config st ev); [apply IH | done].
Qed.

(** C8 (as amended).  Ingestion raises, and nothing it built is
    registered, when it cannot infer exactly two team names; a record
    without [minute] or without [second] is skipped, the ingestion going on
    as if the record were not in the loop; with two team names inferred and
    non-zero pitch dimensions the ingestion returns a match; and what
    [_create_demo_match] registers is the match of a completed ingestion
    or, when the ingestion raised, the synthetic match, never a match left
    half built. *)
Theorem ingestion_all_or_nothing (config : StatsBombConfig) (evs : list SBEvent) :
  (_infer_team_names evs = None →
     match_from_statsbomb_events config evs = Raised ValueError)
  ∧ (∀ st ev, missing_timing ev → ingest_event config st ev = Returned st)
  ∧ (∀ l1 ev l2 st, missing_timing ev →
       ingest_loop config (l1 ++ ev :: l2) st = ingest_loop config (l1 ++ l2) st)
  ∧ (is_Some (_infer_team_names evs) →
     pitch_length config ≠ 0 → pitch_width config ≠ 0 →
     ∃ m, match_from_statsbomb_events config evs = Returned m)
  ∧ (∀ match_id synthetic _matches, _matches !! match_id = None →
       _create_demo_match match_id (Some evs) synthetic _matches
       = <[match_id :=
             match match_from_statsbomb_events default_config evs with
             | Returned m => m
             | Raised _ => synthetic
             end]> _matches).
Proof.
  split; [|split; [|split; [|split]]].
  - intros Hnone. unfold match_from_statsbomb_events. by rewrite Hnone.
  - intros st ev. apply ingest_event_skips.
  - intros l1 ev l2 st Hmiss. rewrite !ingest_loop_app.
    destruct (ingest_loop config l1 st) as [st'|]; [|done].
    simpl. by rewrite ingest_event_skips.
  - intros [[home away] Hnames] Hlen Hwid. unfold match_from_statsbomb_events.
    rewrite Hnames.
    destruct (ingest_loop_returns config evs (new_match home away, ∅) Hlen Hwid)
      as [[s poss] ->]; [|by eauto].
    intros pid p. simpl. by rewrite lookup_empty.
  - intros match_id synthetic _matches Hfree. unfold _create_demo_match.
    rewrite decide_False by (rewrite Hfree; by intros []).
    by destruct (match_from_statsbomb_events default_config evs).
Qed.

Lemma ingestion_all_or_nothing_witness :
  _infer_team_names [sb_pass; sb_carry_no_minute] = None
  ∧ match_from_statsbomb_events default_config [sb_pass; sb_carry_no_minute]
    = Raised ValueError.
Proof.
  split; [vm_compute; reflexivity|].
  apply (ingestion_all_or_nothing default_config [sb_pass; sb_carry_no_minute]).
  vm_compute. reflexivity.
Defined.

(** C8 as stated fails: the second record of [sb_sample] has no [minute],
    and the ingestion of [sb_sample] returns a match, made of the other two
    records. *)
Lemma ingestion_missing_minute_counterexample :
  missing_timing sb_carry_no_minute
  ∧ sb_carry_no_minute ∈ sb_sample
  ∧ ¬ raises (match_from_statsbomb_events default_config sb_sample)
  ∧ (Match_iter_events
       <$> match match_from_statsbomb_events default_config sb_sample with
           | Returned m => Some m
           | Raised _ => None
           end) = Some [0; 1]%nat.
Proof.
  split; [by left|]. split; [set_solver|]. split.
  - vm_compute. tauto.
  - vm_compute. reflexivity.
Qed.

(** ** The time order under the other operations *)

Lemma timeline_ok_ext s s' :
  (∀ x, time_of s' x = time_of s x) →
  _events (the_match s') `sublist_of` _events (the_match s) →
  next_eref s' = next_eref s →
  timeline_ok s → timeline_ok s'.
Proof.
  intros Htime Hsub Hnext [Hsorted Hbound].
  assert (∀ x y, precedes s x y → precedes s' x y) as Hprec.
  { intros x y (t1 & t2 & ? & ? & ?). exists t1, t2. by rewrite !Htime. }
  split.
  - apply (StronglySorted_impl (precedes s)); [by auto|].
    clear Hbound. induction Hsub as [|x l1 l2 Hsub IH|x l1 l2 Hsub IH]; [done|..].
    + apply StronglySorted_cons in Hsorted as [Hx Hs]. apply StronglySorted_cons.
      split; [|by apply IH]. rewrite Forall_forall in *. intros y Hy.
      apply Hx. by eapply elem_of_sublist.
    + apply StronglySorted_cons in Hsorted as [_ Hs]. by apply IH.
  - rewrite Forall_forall in *. intros x Hx. rewrite Hnext, Htime.
    apply Hbound. by eapply elem_of_sublist.
Qed.

Lemma list_remove_sublist x l l' : list_remove x l = Some l' → l' `sublist_of` l.
Proof.
  revert l'. induction l as [|y l IH]; intros l' Hr; simpl in Hr; [done|].
  case_decide.
  - injection Hr as <-. by apply sublist_cons.
  - destruct (list_remove x l) as [l0|]; simplify_eq/=. apply sublist_skip. by apply IH.
Qed.

Lemma delete_event_timeline index s :
  timeline_ok s → timeline_ok (delete_event index s).1.
Proof.
  intros Hok. unfold delete_event. case_decide; [done|].
  destruct (Match_iter_events s !! Z.to_nat index) as [target|]; [|done].
  set (s3 := fix_possession target (unlink_next target (unlink_prev target s))).
  assert ((∀ x, time_of s3 x = time_of s x) ∧ the_match s3 = the_match s
          ∧ next_eref s3 = next_eref s) as (Htime & Hmatch & Hnext).
  { unfold s3, fix_possession, fix_last, fix_first, unlink_next, unlink_prev.
    repeat (match goal with
            | |- context [match ?o with Some _ => _ | None => _ end] => destruct o
            | |- context [decide ?P] => destruct (decide P)
            end; simpl);
      (split; [|done]); intros x;
      rewrite ?time_of_set_node, ?time_of_set_event; done. }
  destruct (list_remove target (_events (the_match s3))) as [l|] eqn:Hrem; simpl.
  - apply (timeline_ok_ext s); [done| |done|done].
    simpl. rewrite <-Hmatch. by eapply list_remove_sublist.
  - apply (timeline_ok_ext s); [done| |done|done]. by rewrite Hmatch.
Qed.

Lemma new_possession_timeline t s :
  timeline_ok s → timeline_ok (new_possession t s).1.
Proof.
  apply timeline_ok_ext.
  - intros x. unfold time_of. by rewrite new_possession_events.
  - by rewrite new_possession_m_events.
  - apply new_possession_next_eref.
Qed.

Lemma update_event_timeline index data s :
  u_match_time data = None → timeline_ok s → timeline_ok (update_event index data s).1.
Proof.
  intros Hmt. destruct (get_event_by_index s index) as [e|] eqn:He.
  - rewrite (update_event_compute _ _ _ _ He), Hmt.
    assert (∀ f, (∀ ev, match_time (f ev) = match_time ev) →
              timeline_ok s → timeline_ok (set_event e f s)) as Hset.
    { intros f Hf. apply timeline_ok_ext; [|done..].
      intros x. by apply time_of_set_event. }
    destruct (u_event_type data) as [v|]; simpl;
      [destruct (EventType_of_value v) as [et|]; simpl|];
      apply Hset; try done; intros ev.
    + by destruct (patch_event_fields None (Some et) data ev) as (-> & _).
    + by destruct (patch_event_fields None None data ev) as (-> & _).
  - by rewrite update_event_not_found.
Qed.

Lemma run_timeline ops : ∀ s s',
  Forall keeps_times ops → timeline_ok s → run s ops = Some s' → timeline_ok s'.
Proof.
  induction ops as [|o ops IH]; intros s s' Hops Hok Hrun; simpl in Hrun.
  - by injection Hrun as <-.
  - apply Forall_cons in Hops as [Ho Hops].
    destruct (step s o) as [s1|] eqn:Hstep; simpl in Hrun; [|done].
    apply (IH s1); [done| |done].
    destruct o as [t|a|i d|i]; simpl in Hstep.
    + injection Hstep as <-. by apply new_possession_timeline.
    + destruct (add_event a s) as [[s2 e]|] eqn:Hadd; simplify_eq/=.
      by eapply add_event_timeline.
    + injection Hstep as <-. by apply update_event_timeline.
    + injection Hstep as <-. by apply delete_event_timeline.
Qed.

(** C1.  After any sequence of calls on a new match none of which assigns
    [match_time] to an existing event, [iter_events()] yields the events in
    non-decreasing [match_time] order, events of equal [match_time] in the
    order of their creation (a later object has a larger address); after
    [add_event] calls only, it yields exactly the events created, the
    [k]-th call having created the object at address [k]; events added with
    times 10, 5, 20 come out as 5, 10, 20. *)
Theorem add_event_time_order (home away : string) (ops : list op) (s : Store) :
  Forall keeps_times ops →
  run (new_match home away) ops = Some s →
  (∀ i j e1 e2, (i < j)%nat →
     Match_iter_events s !! i = Some e1 → Match_iter_events s !! j = Some e2 →
     ∃ t1 t2, time_of s e1 = Some t1 ∧ time_of s e2 = Some t2
              ∧ t1 ≤ t2 ∧ (t1 = t2 → (e1 < e2)%nat))
  ∧ (∀ calls, ops = OpAddEvent <$> calls →
       (∀ k a, calls !! k = Some a → time_of s k = Some (a_match_time a))
       ∧ Match_iter_events s ≡ₚ seq 0 (length calls))
  ∧ (∃ s3, run (new_match home away)
             (OpAddEvent <$> [pass_at 10; pass_at 5; pass_at 20]) = Some s3
           ∧ time_of s3 <$> Match_iter_events s3
             = [Some (Qc_of_Z 5); Some (Qc_of_Z 10); Some (Qc_of_Z 20)]).
Proof.
  intros Hops Hrun. split; [|split].
  - destruct (run_timeline ops _ _ Hops (timeline_ok_new_match home away) Hrun)
      as [Hsorted _].
    intros i j e1 e2 Hij H1 H2.
    destruct (StronglySorted_lookup _ _ i j e1 e2 Hsorted Hij H1 H2)
      as (t1 & t2 & Ht1 & Ht2 & Hcmp).
    exists t1, t2. split; [done|]. split; [done|].
    destruct Hcmp as [Hlt|[-> Hlt]].
    + split; [by apply Qclt_le_weak|]. intros ->. by apply Qclt_not_eq in Hlt.
    + split; [apply Qcle_refl | done].
  - intros calls ->.
    destruct (run_add_events calls _ _ (timeline_ok_new_match home away) Hrun)
      as (_ & _ & Hperm & Htimes & _).
    simpl in Hperm, Htimes. rewrite app_nil_r in Hperm. by split.
  - eexists. split; [vm_compute; reflexivity|]. vm_compute. reflexivity.
Qed.

Lemma add_event_time_order_witness :
  ∃ s, run (new_match "Team A" "Team B")
         (demo_ops ++ [OpDeleteEvent 0; OpAddEvent (pass_at 10)]) = Some s
       ∧ time_of s <$> Match_iter_events s
         = [Some (Qc_of_Z 10); Some (Qc_of_Z 10); Some (Qc_of_Z 20)]
       ∧ ∀ i j e1 e2, (i < j)%nat →
           Match_iter_events s !! i = Some e1 → Match_iter_events s !! j = Some e2 →
           ∃ t1 t2, time_of s e1 = Some t1 ∧ time_of s e2 = Some t2
                    ∧ t1 ≤ t2 ∧ (t1 = t2 → (e1 < e2)%nat).
Proof.
  eexists. split; [vm_compute; reflexivity|]. split; [vm_compute; reflexivity|].
  eapply (add_event_time_order "Team A" "Team B"
            (demo_ops ++ [OpDeleteEvent 0; OpAddEvent (pass_at 10)])).
  - repeat constructor.
  - vm_compute. reflexivity.
Defined.

(** * Further properties of the code *)

(** ** The queries of [Match] *)

Lemma filter_none {A} (P : A → Prop) `{∀ x, Decision (P x)} (l : list A) :
  Forall (λ x, ¬ P x) l → filter P l = [].
Proof.
  induction 1 as [|x l Hx _ IH]; [done|]. by rewrite filter_cons_False.
Qed.

Lemma filter_sublist_impl {A} (P Q : A → Prop) `{∀ x, Decision (P x)}
    `{∀ x, Decision (Q x)} (l : list A) :
  (∀ x, P x → Q x) → filter P l `sublist_of` filter Q l.
Proof.
  intros Himp. induction l as [|x l IH]; [done|]. rewrite !filter_cons.
  destruct (decide (P x)) as [HP|HP].
  - rewrite decide_True; [by apply sublist_skip | by apply Himp].
  - destruct (decide (Q x)); [by apply sublist_cons | done].
Qed.

Lemma in_window_spec s start end_ e t :
  time_of s e = Some t → in_window s start end_ e ↔ start ≤ t ∧ t ≤ end_.
Proof. intros Ht. unfold in_window. rewrite Ht. apply bool_decide_spec. Qed.

Lemma time_range_loop_sound s start end_ l :
  time_range_loop s start end_ l `sublist_of` filter (λ e, in_window s start end_ e) l.
Proof.
  induction l as [|e l IH]; simpl; [done|].
  destruct (time_of s e) as [t|] eqn:Ht; simpl; [|apply sublist_nil_l].
  destruct (decide (t < start)) as [Hlt|Hge].
  - rewrite filter_cons_False; [done|]. rewrite (in_window_spec _ _ _ _ _ Ht).
    intros [Hw _]. by apply Qcle_not_lt in Hw.
  - destruct (decide (end_ < t)) as [Hgt|Hle]; [apply sublist_nil_l|].
    rewrite filter_cons_True; [by apply sublist_skip|].
    rewrite (in_window_spec _ _ _ _ _ Ht). split; by apply Qcnot_lt_le.
Qed.

Lemma time_range_loop_sorted s start end_ l :
  StronglySorted (precedes s) l →
  Forall (λ e, is_Some (time_of s e)) l →
  time_range_loop s start end_ l = filter (λ e, in_window s start end_ e) l.
Proof.
  induction l as [|e l IH]; intros Hs Hall; simpl; [done|].
  apply StronglySorted_cons in Hs as [He Hs]. apply Forall_cons in Hall as [[t Ht] Hall].
  rewrite Ht.
  destruct (decide (t < start)) as [Hlt|Hge].
  - rewrite filter_cons_False; [by apply IH|]. rewrite (in_window_spec _ _ _ _ _ Ht).
    intros [Hw _]. by apply Qcle_not_lt in Hw.
  - destruct (decide (end_ < t)) as [Hgt|Hle].
    + rewrite filter_cons_False.
      2:{ rewrite (in_window_spec _ _ _ _ _ Ht). intros [_ Hw].
          by apply Qcle_not_lt in Hw. }
      symmetry. apply filter_none. rewrite Forall_forall in *. intros x Hx Hw.
      destruct (Hall x Hx) as [t' Ht'].
      destruct (proj1 (in_window_spec _ _ _ _ _ Ht') Hw) as [_ Hw'].
      pose proof (precedes_time_le _ _ _ _ _ (He x Hx) Ht Ht') as Hle.
      apply (Qcle_not_lt _ _ (Qcle_trans _ _ _ Hle Hw')), Hgt.
    + rewrite filter_cons_True; [by rewrite IH|].
      rewrite (in_window_spec _ _ _ _ _ Ht). split; by apply Qcnot_lt_le.
Qed.

Lemma time_range_unsorted :
  ∃ s, run (new_match "Team A" "Team B")
         (demo_ops ++ [OpUpdateEvent 0 (patch_time 30)]) = Some s
       ∧ events_in_time_range s 0 (Qc_of_Z 25) = []
       ∧ list_events None None (Some 0) (Some (Qc_of_Z 25)) s = Some [0%nat; 2%nat].
Proof.
  eexists. split; [vm_compute; reflexivity|]. split; vm_compute; reflexivity.
Qed.

(** X1. On a match built by any calls that assign no [match_time] in
    place, [events_in_time_range(start, end)] yields exactly the events of
    the flat list whose time lies in [[start, end]], in list order: the
    early [break] loses nothing, and the time window of [list_events]
    selects the same events.  After an in-place update of a time the
    [break] can lose events. *)
Theorem events_in_time_range_window (home away : string) (ops : list op) (s : Store)
    (start end_ : Qc) :
  Forall keeps_times ops →
  run (new_match home away) ops = Some s →
  events_in_time_range s start end_
  = filter (λ e, in_window s start end_ e) (Match_iter_events s)
  ∧ list_events None None (Some start) (Some end_) s
    = Some (events_in_time_range s start end_)
  ∧ (∃ s', run (new_match "Team A" "Team B")
             (demo_ops ++ [OpUpdateEvent 0 (patch_time 30)]) = Some s'
           ∧ events_in_time_range s' 0 (Qc_of_Z 25) = []
           ∧ list_events None None (Some 0) (Some (Qc_of_Z 25)) s' = Some [0%nat; 2%nat]).
Proof.
  intros Hops Hrun.
  destruct (run_timeline ops _ _ Hops (timeline_ok_new_match home away) Hrun)
    as [Hsorted Hall].
  assert (events_in_time_range s start end_
          = filter (λ e, in_window s start end_ e) (Match_iter_events s)) as Heq.
  { apply time_range_loop_sorted; [done|].
    eapply Forall_impl; [exact Hall|]. by intros x [_ ?]. }
  split; [done|]. split; [|exact time_range_unsorted].
  unfold list_events. simpl. by rewrite Heq.
Qed.

Lemma events_in_time_range_window_witness :
  ∃ s, run (new_match "Team A" "Team B") demo_ops = Some s
       ∧ events_in_time_range s (Qc_of_Z 5) (Qc_of_Z 10)
         = filter (λ e, in_window s (Qc_of_Z 5) (Qc_of_Z 10) e) (Match_iter_events s).
Proof.
  eexists. split; [vm_compute; reflexivity|].
  eapply (events_in_time_range_window "Team A" "Team B" demo_ops).
  - repeat constructor.
  - vm_compute. reflexivity.
Defined.

(** X2. Whatever the state of the match, [events_in_time_range] yields
    only events of the flat list whose time lies in the window, in list
    order. *)
Theorem events_in_time_range_sound (s : Store) (start end_ : Qc) :
  events_in_time_range s start end_ `sublist_of` Match_iter_events s
  ∧ ∀ e, e ∈ events_in_time_range s start end_ →
      ∃ t, time_of s e = Some t ∧ start ≤ t ∧ t ≤ end_.
Proof.
  pose proof (time_range_loop_sound s start end_ (_events (the_match s))) as Hsub.
  split.
  - etrans; [exact Hsub|]. apply sublist_filter.
  - intros e He. eapply elem_of_sublist in He; [|exact Hsub].
    apply list_elem_of_filter in He as [Hw _].
    destruct (time_of s e) as [t|] eqn:Ht.
    + exists t. split; [done|]. by apply (in_window_spec _ _ _ _ _ Ht).
    + unfold in_window in Hw. by rewrite Ht in Hw.
Qed.

(** X3. [goals_for_team] yields a sublist of [shots_for_team], which is a
    sublist of the flat list: the goals of a team are exactly the listed
    events of type SHOT of that team whose tag [is_goal] is true, and its
    shots the listed events of type SHOT of that team. *)
Theorem goals_among_shots (s : Store) (team_name : string) :
  goals_for_team s team_name `sublist_of` shots_for_team s team_name
  ∧ shots_for_team s team_name `sublist_of` Match_iter_events s
  ∧ (∀ e, e ∈ shots_for_team s team_name ↔
       e ∈ Match_iter_events s
       ∧ ∃ ev, events s !! e = Some ev ∧ event_type ev = SHOT ∧ team ev = team_name)
  ∧ (∀ e, e ∈ goals_for_team s team_name ↔
       e ∈ Match_iter_events s
       ∧ ∃ ev, events s !! e = Some ev ∧ event_type ev = SHOT ∧ team ev = team_name
               ∧ tags ev !! "is_goal" = Some true).
Proof.
  unfold goals_for_team, shots_for_team, events_by_type, Match_iter_events.
  split; [|split; [|split]].
  - apply filter_sublist_impl. intros e. unfold event_has.
    destruct (events s !! e) as [ev|]; [|done]. rewrite andb_True. by intros [? _].
  - etrans; apply sublist_filter.
  - intros e. rewrite !list_elem_of_filter. unfold event_has.
    destruct (events s !! e) as [ev|]; simpl.
    + rewrite !bool_decide_spec, list_elem_of_singleton. split.
      * intros (? & ? & ?). split; [done|]. by exists ev.
      * intros (? & ev' & ? & ? & ?). by simplify_eq.
    + split; [by intros []|]. by intros (_ & ? & ? & _).
  - intros e. rewrite !list_elem_of_filter. unfold event_has.
    destruct (events s !! e) as [ev|]; simpl.
    + rewrite andb_True, !bool_decide_spec, list_elem_of_singleton. split.
      * intros ([? ?] & ? & ?). split; [done|]. by exists ev.
      * intros (? & ev' & ? & ? & ? & ?). by simplify_eq.
    + split; [by intros []|]. by intros (_ & ? & ? & _).
Qed.

(** ** The chain of possessions *)

Lemma same_skeleton_refl s : same_skeleton s s.
Proof. by repeat split. Qed.

Lemma same_skeleton_trans s1 s2 s3 :
  same_skeleton s1 s2 → same_skeleton s2 s3 → same_skeleton s1 s3.
Proof.
  intros (?&?&?&?&?&?&Ha) (?&?&?&?&?&?&Hb).
  split; [congruence|]. split; [congruence|]. split; [congruence|].
  split; [congruence|]. split; [congruence|]. split; [congruence|].
  intros p. by rewrite Hb, Ha.
Qed.

Lemma same_skeleton_set_event e f s : same_skeleton s (set_event e f s).
Proof. by repeat split. Qed.

Lemma same_skeleton_set_node p f s : keeps_node f → same_skeleton s (set_node p f s).
Proof.
  intros Hf. repeat split; try done. intros q. simpl.
  destruct (decide (q = p)) as [->|Hne].
  - rewrite lookup_alter_eq. destruct (possessions s !! p) as [n|]; [|done]. simpl.
    destruct (Hf n) as (-> & -> & -> & ->). done.
  - by rewrite lookup_alter_ne.
Qed.

Lemma same_skeleton_with_events l s : same_skeleton s (set_match (with_events l) s).
Proof. by repeat split. Qed.

Lemma keeps_node_first v : keeps_node (with_first_event v).
Proof. by intros []. Qed.
Lemma keeps_node_last v : keeps_node (with_last_event v).
Proof. by intros []. Qed.

Lemma poss_add_event_skeleton p e s s' :
  poss_add_event p e s = Some s' → same_skeleton s s'.
Proof.
  unfold poss_add_event. intros Hp.
  destruct (possessions s !! p) as [node|]; [|done]. simpl in Hp.
  destruct (last_event node); injection Hp as <-.
  - eapply same_skeleton_trans; [|apply same_skeleton_set_node, keeps_node_last].
    eapply same_skeleton_trans; [|apply same_skeleton_set_event].
    eapply same_skeleton_trans; apply same_skeleton_set_event.
  - eapply same_skeleton_trans; [apply same_skeleton_set_event|].
    apply same_skeleton_set_node. by intros [].
Qed.

Lemma add_event_skeleton a s p s' e :
  a_possession a = Some p → add_event a s = Some (s', e) → same_skeleton s s'.
Proof.
  unfold add_event. intros -> Ha.
  destruct (poss_add_event _ _ _) as [s3|] eqn:H3; [|done]. injection Ha as <- <-.
  apply poss_add_event_skeleton in H3.
  eapply same_skeleton_trans; [|apply same_skeleton_with_events].
  eapply same_skeleton_trans; [|exact H3]. by repeat split.
Qed.

Lemma delete_event_skeleton index s : same_skeleton s (delete_event index s).1.
Proof.
  unfold delete_event.
  destruct (decide _); [apply same_skeleton_refl|].
  destruct (_ !! _) as [target|]; [|apply same_skeleton_refl].
  set (s1 := unlink_prev target s). set (s2 := unlink_next target s1).
  assert (same_skeleton s s1) as H1.
  { unfold s1, unlink_prev. destruct (prev_of s target);
      [apply same_skeleton_set_event | apply same_skeleton_refl]. }
  assert (same_skeleton s1 s2) as H2.
  { unfold s2, unlink_next. destruct (next_of s1 target);
      [apply same_skeleton_set_event | apply same_skeleton_refl]. }
  assert (same_skeleton s2 (fix_possession target s2)) as H3.
  { unfold fix_possession. destruct (possession_of s2 target) as [pos|];
      [|apply same_skeleton_refl].
    apply (same_skeleton_trans _ (fix_first target pos s2)).
    - unfold fix_first. case_decide;
        [apply same_skeleton_set_node, keeps_node_first | apply same_skeleton_refl].
    - unfold fix_last. case_decide;
        [apply same_skeleton_set_node, keeps_node_last | apply same_skeleton_refl]. }
  pose proof (same_skeleton_trans _ _ _ H1 (same_skeleton_trans _ _ _ H2 H3)) as H.
  destruct (list_remove _ _); simpl; [|done].
  eapply same_skeleton_trans; [exact H|apply same_skeleton_with_events].
Qed.

Lemma update_event_skeleton index data s : same_skeleton s (update_event index data s).1.
Proof.
  destruct (get_event_by_index s index) as [e|] eqn:He.
  - destruct (update_event_scalar_write index data s e He) as (f & _ & ->).
    apply same_skeleton_set_event.
  - rewrite update_event_not_found by done. apply same_skeleton_refl.
Qed.

Lemma poss_chain_ok_skeleton s s' : same_skeleton s s' → poss_chain_ok s → poss_chain_ok s'.
Proof.
  intros (Hn & Hid & Hf & Hl & _ & _ & Hp) (Hid0 & Hf0 & Hl0 & Hp0).
  unfold poss_chain_ok. rewrite Hn, Hid, Hf, Hl. repeat split; try done.
  intros p. specialize (Hp p). specialize (Hp0 p). destruct (decide (p < next_pref s)%nat).
  - destruct Hp0 as (node & Hnode & ? & ? & ?). rewrite Hnode in Hp. simpl in Hp.
    destruct (possessions s' !! p) as [node'|]; [|done]. simplify_eq/=.
    exists node'. repeat split; congruence.
  - rewrite Hp0 in Hp. by destruct (possessions s' !! p).
Qed.

Lemma poss_chain_ok_new_match home away : poss_chain_ok (new_match home away).
Proof. repeat split; done. Qed.

Lemma new_possession_chain t s :
  poss_chain_ok s → poss_chain_ok (new_possession t s).1.
Proof.
  intros (Hid & Hf & Hl & Hp). unfold new_possession. rewrite Hl.
  destruct (decide (next_pref s = 0%nat)) as [Hz|Hnz].
  - repeat split; simpl; try (rewrite ?Hz; done).
    + rewrite Hid. lia.
    + intros p. destruct (decide (p < S (next_pref s))%nat) as [Hlt|Hge].
      * assert (p = next_pref s) as -> by lia. rewrite lookup_insert_eq.
        eexists. split; [done|]. cbn [poss_id prev_possession next_possession].
        rewrite decide_True by done. rewrite Hid, Hz. done.
      * rewrite lookup_insert_ne by lia. specialize (Hp p).
        by rewrite decide_False in Hp by lia.
  - repeat split; simpl.
    + rewrite Hid. lia.
    + by rewrite Hf.
    + intros p. destruct (decide (p < S (next_pref s))%nat) as [Hlt|Hge].
      * destruct (decide (p = next_pref s)) as [->|Hne].
        -- rewrite lookup_alter_ne by lia. rewrite lookup_insert_eq.
           eexists. split; [done|]. cbn [poss_id prev_possession next_possession].
           rewrite decide_True by done.
           split; [done|]. split; [|done]. by destruct (next_pref s).
        -- specialize (Hp p). rewrite decide_True in Hp by lia.
           destruct Hp as (node & Hnode & Hi & Hprev & Hnext).
           destruct (decide (p = pred (next_pref s))) as [->|Hne'].
           ++ rewrite lookup_alter_eq, lookup_insert_ne by lia. rewrite Hnode.
              eexists. split; [done|]. destruct node; simpl in *.
              split; [done|]. split; [done|].
              rewrite decide_False by lia. f_equal. lia.
           ++ rewrite lookup_alter_ne, lookup_insert_ne by lia.
              exists node. split; [done|]. split; [done|]. split; [done|].
              rewrite Hnext. rewrite decide_False by lia. by rewrite decide_False by lia.
      * rewrite lookup_alter_ne, lookup_insert_ne by lia. specialize (Hp p).
        by rewrite decide_False in Hp by lia.
Qed.

Lemma add_event_chain a s s' e :
  poss_chain_ok s → add_event a s = Some (s', e) → poss_chain_ok s'.
Proof.
  intros Hok Ha. destruct (a_possession a) as [p|] eqn:Hp.
  - eapply poss_chain_ok_skeleton; [|exact Hok]. by eapply add_event_skeleton.
  - rewrite add_event_no_possession in Ha by done.
    eapply poss_chain_ok_skeleton; [eapply add_event_skeleton; [|exact Ha]; done|].
    by apply new_possession_chain.
Qed.

Lemma step_poss_chain s o s' : poss_chain_ok s → step s o = Some s' → poss_chain_ok s'.
Proof.
  intros Hok Hstep. destruct o as [t|a|i d|i]; simpl in Hstep.
  - injection Hstep as <-. by apply new_possession_chain.
  - destruct (add_event a s) as [[s1 e]|] eqn:Ha; [|done]. injection Hstep as <-.
    by eapply add_event_chain.
  - injection Hstep as <-. eapply poss_chain_ok_skeleton; [|exact Hok].
    apply update_event_skeleton.
  - injection Hstep as <-. eapply poss_chain_ok_skeleton; [|exact Hok].
    apply delete_event_skeleton.
Qed.

Lemma step_next_pref s o s' :
  step s o = Some s' →
  next_pref s' = (next_pref s + if creates_possession o then 1 else 0)%nat.
Proof.
  intros Hstep. destruct o as [t|a|i d|i]; simpl in *.
  - injection Hstep as <-. destruct (new_possession_nodes t s) as (_ & _ & ->). lia.
  - destruct (add_event a s) as [[s1 e]|] eqn:Ha; [|done]. injection Hstep as <-.
    destruct (a_possession a) as [p|] eqn:Hp.
    + rewrite bool_decide_eq_false_2 by done.
      destruct (add_event_skeleton a s p s1 e Hp Ha) as [-> _]. lia.
    + rewrite bool_decide_eq_true_2 by done.
      rewrite add_event_no_possession in Ha by done.
      destruct (add_event_skeleton (with_a_possession (next_pref s) a) _
                  (next_pref s) s1 e eq_refl Ha) as [-> _].
      destruct (new_possession_nodes (a_team a) s) as (_ & _ & ->). lia.
  - injection Hstep as <-. destruct (update_event_skeleton i d s) as [-> _]. lia.
  - injection Hstep as <-. destruct (delete_event_skeleton i s) as [-> _]. lia.
Qed.

Lemma run_next_pref ops : ∀ s s',
  run s ops = Some s' →
  next_pref s' = (next_pref s + length (filter (λ o, creates_possession o) ops))%nat.
Proof.
  induction ops as [|o ops IH]; intros s s' Hrun; simpl in Hrun.
  - injection Hrun as <-. simpl. lia.
  - destruct (step s o) as [s1|] eqn:Hstep; simpl in Hrun; [|done].
    rewrite (IH _ _ Hrun), (step_next_pref _ _ _ Hstep), filter_cons.
    destruct (creates_possession o); simpl; lia.
Qed.

Lemma run_poss_chain ops : ∀ s s',
  poss_chain_ok s → run s ops = Some s' → poss_chain_ok s'.
Proof.
  induction ops as [|o ops IH]; intros s s' Hok Hrun; simpl in Hrun.
  - by injection Hrun as <-.
  - destruct (step s o) as [s1|] eqn:Hstep; simpl in Hrun; [|done].
    eapply IH; [|exact Hrun]. by eapply step_poss_chain.
Qed.

Lemma walk_nodes_None link s fuel : walk_nodes link s fuel None = Some [].
Proof. by destruct fuel. Qed.

Lemma walk_nodes_forward s : poss_chain_ok s →
  ∀ d k fuel, (k + d = next_pref s)%nat → (d < fuel)%nat →
    walk_nodes next_possession s fuel
      (if decide (k < next_pref s)%nat then Some k else None)
    = Some (seq k d).
Proof.
  intros (_ & _ & _ & Hp). induction d as [|d IH]; intros k fuel Hk Hfuel.
  - rewrite decide_False by lia. apply walk_nodes_None.
  - rewrite decide_True by lia. destruct fuel as [|fuel]; [lia|]. simpl.
    specialize (Hp k). rewrite decide_True in Hp by lia.
    destruct Hp as (node & Hnode & _ & _ & Hnext). rewrite Hnode. simpl. rewrite Hnext.
    assert ((if decide (S k = next_pref s) then None else Some (S k))
            = if decide (S k < next_pref s)%nat then Some (S k) else None) as ->.
    { repeat case_decide; done || lia. }
    rewrite (IH (S k) fuel) by lia. done.
Qed.

Lemma walk_nodes_backward s : poss_chain_ok s →
  ∀ k fuel, (k < next_pref s)%nat → (k < fuel)%nat →
    walk_nodes prev_possession s fuel (Some k) = Some (reverse (seq 0 (S k))).
Proof.
  intros (_ & _ & _ & Hp). induction k as [|k IH]; intros fuel Hk Hfuel.
  - destruct fuel as [|fuel]; [lia|]. simpl.
    specialize (Hp 0%nat). rewrite decide_True in Hp by lia.
    destruct Hp as (node & Hnode & _ & Hprev & _). rewrite Hnode. simpl. rewrite Hprev.
    by rewrite walk_nodes_None.
  - assert (reverse (seq 0 (S (S k))) = S k :: reverse (seq 0 (S k))) as ->.
    { by rewrite (seq_S (S k)), reverse_app. }
    destruct fuel as [|fuel]; [lia|]. cbn [walk_nodes].
    specialize (Hp (S k)). rewrite decide_True in Hp by lia.
    destruct Hp as (node & Hnode & _ & Hprev & _). rewrite Hnode.
    cbn [mbind option_bind]. rewrite Hprev. by rewrite (IH fuel) by lia.
Qed.

Lemma poss_chain_iter s fuel :
  poss_chain_ok s → (next_pref s < fuel)%nat →
  iter_possessions s fuel = Some (seq 0 (next_pref s))
  ∧ iter_possessions_reverse s fuel = Some (reverse (seq 0 (next_pref s))).
Proof.
  intros Hok Hfuel. pose proof Hok as (_ & Hf & Hl & _).
  unfold iter_possessions, iter_possessions_reverse. rewrite Hf, Hl. split.
  - rewrite <- (walk_nodes_forward s Hok (next_pref s) 0 fuel) by lia.
    f_equal. repeat case_decide; done || lia.
  - destruct (decide (next_pref s = 0%nat)) as [->|Hnz]; [apply walk_nodes_None|].
    rewrite (walk_nodes_backward s Hok) by lia. do 3 f_equal. lia.
Qed.

(** X4. After any calls on a new match, [iter_possessions] yields the
    possessions in the order of their creation, one for each
    [new_possession] call and each [add_event] call without a possession,
    the [k]-th of them with id [k]; [iter_possessions_reverse] yields them
    in the reversed order.  No call removes or renumbers a possession. *)
Theorem iter_possessions_creation_order (home away : string) (ops : list op)
    (s : Store) (fuel : nat) :
  run (new_match home away) ops = Some s →
  (length (filter (λ o, creates_possession o) ops) < fuel)%nat →
  let n := length (filter (λ o, creates_possession o) ops) in
  iter_possessions s fuel = Some (seq 0 n)
  ∧ iter_possessions_reverse s fuel = Some (reverse (seq 0 n))
  ∧ ∀ p, (p < n)%nat →
      ∃ node, possessions s !! p = Some node ∧ poss_id node = (Z.of_nat p + 1)%Z.
Proof.
  intros Hrun Hfuel n.
  pose proof (run_poss_chain _ _ _ (poss_chain_ok_new_match home away) Hrun) as Hok.
  pose proof (run_next_pref _ _ _ Hrun) as Hn. simpl in Hn. fold n in Hn.
  destruct (poss_chain_iter s fuel Hok) as [Hfw Hbw]; [lia|]. rewrite Hn in Hfw, Hbw.
  split; [done|]. split; [done|]. intros p Hp.
  destruct Hok as (_ & _ & _ & Hnodes). specialize (Hnodes p).
  rewrite decide_True in Hnodes by lia. destruct Hnodes as (node & ? & ? & _). eauto.
Qed.

Lemma iter_possessions_creation_order_witness :
  ∃ s, run (new_match "Team A" "Team B")
         (demo_ops ++ [OpNewPossession "Team B"; OpDeleteEvent 0]) = Some s
       ∧ iter_possessions s 3 = Some [0; 1]%nat.
Proof.
  eexists. split; [vm_compute; reflexivity|].
  eapply (iter_possessions_creation_order "Team A" "Team B"
            (demo_ops ++ [OpNewPossession "Team B"; OpDeleteEvent 0])).
  - vm_compute. reflexivity.
  - vm_compute. lia.
Defined.

(** ** The two indexes of the events together *)

Lemma store_ok_new_match home away : store_ok (new_match home away) ∅.
Proof.
  split; [apply chains_ok_new_match|]. split; [|apply poss_chain_ok_new_match].
  intros p L e HL. by rewrite lookup_empty in HL.
Qed.

Lemma new_possession_store_ok t s G :
  store_ok s G → store_ok (new_possession t s).1 (<[next_pref s := []]> G).
Proof.
  intros (Hok & Hl & Hp). split; [by apply new_possession_chains|].
  split; [|by apply new_possession_chain].
  intros p L e HL He. rewrite new_possession_m_events.
  apply lookup_insert_Some in HL as [[_ <-]|[_ HL]]; [by apply elem_of_nil in He|].
  by eapply Hl.
Qed.

Lemma add_event_store_ok a s G p L s' e :
  store_ok s G → a_possession a = Some p → G !! p = Some L →
  add_event a s = Some (s', e) →
  store_ok s' (<[p := L ++ [e]]> G).
Proof.
  intros (Hok & Hl & Hp) Hap HL Ha. split; [by eapply add_event_chains|].
  split; [|by eapply add_event_chain].
  destruct (add_event_effect _ _ _ _ Ha) as (_ & _ & _ & Hev).
  intros q L' x HL' Hx. rewrite Hev, list_insert_at_perm.
  apply lookup_insert_Some in HL' as [[_ <-]|[_ HL']].
  - apply elem_of_app in Hx as [Hx|Hx].
    + right. by eapply Hl.
    + apply list_elem_of_singleton in Hx as ->. left.
  - right. by eapply Hl.
Qed.

Lemma delete_event_store_ok s G idx target p L j :
  store_ok s G → _events (the_match s) !! idx = Some target →
  G !! p = Some L → L !! j = Some target →
  store_ok (delete_event (Z.of_nat idx) s).1 (<[p := delete j L]> G).
Proof.
  intros (Hok & Hl & Hp) Hidx HL Hj. split; [by eapply delete_event_chains|].
  split; [|eapply poss_chain_ok_skeleton; [apply delete_event_skeleton|done]].
  destruct (delete_event_effect s G idx target p L j Hok Hidx HL Hj)
    as (s' & node & Hdel & _ & _ & _ & Hm & _).
  rewrite Hdel. unfold chains_listed. simpl. rewrite Hm. simpl.
  destruct (ok_chain _ _ Hok p L HL) as (_ & _ & _ & _ & Hlinked).
  intros q L' x HL' Hx.
  apply (elem_of_delete_nodup _ idx target); [apply (ok_nodup _ _ Hok)|done|].
  apply lookup_insert_Some in HL' as [[<- <-]|[Hne HL']].
  - apply (elem_of_delete_nodup _ j target) in Hx as [Hx Hne];
      [|apply Hlinked|done]. split; [by eapply Hl|done].
  - split; [by eapply Hl|]. intros ->.
    destruct (ok_chain _ _ Hok q L' HL') as (_ & _ & _ & _ & Hlinked').
    pose proof (linked_owner _ _ _ _ Hlinked' Hx) as Ho1.
    pose proof (linked_owner _ _ _ target Hlinked) as Ho2.
    rewrite Ho2 in Ho1; [congruence|]. by eapply list_elem_of_lookup_2.
Qed.

Lemma update_event_store_ok index data s G :
  store_ok s G → store_ok (update_event index data s).1 G.
Proof.
  intros (Hok & Hl & Hp). split; [by apply update_event_chains|].
  split; [|eapply poss_chain_ok_skeleton; [apply update_event_skeleton|done]].
  destruct (get_event_by_index s index) as [e|] eqn:He.
  - destruct (update_event_scalar_write index data s e He) as (f & _ & ->). exact Hl.
  - by rewrite update_event_not_found.
Qed.

Lemma chain_of_node s G p :
  chains_ok s G → is_Some (possessions s !! p) → is_Some (G !! p).
Proof. intros Hok. apply (ok_dom _ _ Hok). Qed.

Lemma add_event_possession_allocated a s p s' e :
  a_possession a = Some p → add_event a s = Some (s', e) →
  is_Some (possessions s !! p).
Proof.
  unfold add_event, poss_add_event. intros -> Ha. simpl in Ha.
  destruct (possessions s !! p); [eauto|done].
Qed.

Lemma step_store_ok s o s' G :
  store_ok s G → step s o = Some s' → ∃ G', store_ok s' G'.
Proof.
  intros Hok Hstep. destruct o as [t|a|i d|i]; simpl in Hstep.
  - injection Hstep as <-. eexists. by apply new_possession_store_ok.
  - destruct (add_event a s) as [[s1 e]|] eqn:Hadd; simplify_eq/=.
    destruct (a_possession a) as [p|] eqn:Hp.
    + destruct (chain_of_node s G p (proj1 Hok)) as [L HL];
        [by eapply add_event_possession_allocated|].
      eexists. by eapply add_event_store_ok.
    + rewrite add_event_no_possession in Hadd by done.
      eexists.
      eapply (add_event_store_ok (with_a_possession (next_pref s) a)
                (new_possession (a_team a) s).1 _ (next_pref s) []);
        [apply new_possession_store_ok, Hok|done|apply lookup_insert_eq|exact Hadd].
  - injection Hstep as <-. eexists. by apply update_event_store_ok.
  - injection Hstep as <-.
    destruct (decide ((i < 0)%Z ∨ (Z.of_nat (length (_events (the_match s))) ≤ i)%Z))
      as [Hout|Hin].
    + rewrite delete_event_out_of_range by done. eauto.
    + destruct (lookup_lt_is_Some_2 (_events (the_match s)) (Z.to_nat i))
        as [target Ht]; [lia|].
      destruct (listed_position s G target (proj1 Hok))
        as (p & L & j & ev & node & HL & Hj & _).
      { by eapply list_elem_of_lookup_2. }
      replace i with (Z.of_nat (Z.to_nat i)) by lia.
      eexists. by eapply delete_event_store_ok.
Qed.

Lemma run_store_ok ops : ∀ s s' G,
  store_ok s G → run s ops = Some s' → ∃ G', store_ok s' G'.
Proof.
  induction ops as [|o ops IH]; intros s s' G Hok Hrun; simpl in Hrun.
  - injection Hrun as <-. eauto.
  - destruct (step s o) as [s1|] eqn:Hstep; simpl in Hrun; [|done].
    destruct (step_store_ok _ _ _ _ Hok Hstep) as [G1 Hok1]. eauto.
Qed.

Lemma reachable_store_ok home away ops s :
  run (new_match home away) ops = Some s → ∃ G, store_ok s G.
Proof. apply run_store_ok with ∅, store_ok_new_match. Qed.




(** ** Possessions by id *)

Lemma find_possession_None s pid fuel : find_possession s pid fuel None = Some None.
Proof. by destruct fuel. Qed.

Lemma find_possession_from s pid : poss_chain_ok s →
  ∀ d k fuel, (k + d = next_pref s)%nat → (d < fuel)%nat →
    find_possession s pid fuel (if decide (k < next_pref s)%nat then Some k else None)
    = Some (if decide (Z.of_nat k + 1 ≤ pid ≤ Z.of_nat (next_pref s))%Z
            then Some (Z.to_nat (pid - 1)) else None).
Proof.
  intros (_ & _ & _ & Hp). induction d as [|d IH]; intros k fuel Hk Hfuel.
  - rewrite decide_False by lia. rewrite decide_False by lia.
    apply find_possession_None.
  - rewrite decide_True by lia. destruct fuel as [|fuel]; [lia|]. cbn [find_possession].
    specialize (Hp k). rewrite decide_True in Hp by lia.
    destruct Hp as (node & Hnode & Hid & _ & Hnext). rewrite Hnode.
    cbn [mbind option_bind]. rewrite Hid, Hnext.
    destruct (decide (Z.of_nat k + 1 = pid)%Z) as [Heq|Hne].
    + rewrite decide_True by lia. do 2 f_equal. lia.
    + assert ((if decide (S k = next_pref s) then None else Some (S k))
              = if decide (S k < next_pref s)%nat then Some (S k) else None) as ->.
      { repeat case_decide; done || lia. }
      rewrite (IH (S k) fuel) by lia. f_equal. repeat case_decide; done || lia.
Qed.

Lemma find_possession_by_id s pid fuel :
  poss_chain_ok s → (next_pref s < fuel)%nat →
  find_possession s pid fuel (_first_possession (the_match s))
  = Some (if decide (1 ≤ pid ≤ Z.of_nat (next_pref s))%Z
          then Some (Z.to_nat (pid - 1)) else None).
Proof.
  intros Hok Hfuel. pose proof Hok as (_ & Hf & _).
  pose proof (find_possession_from s pid Hok (next_pref s) 0 fuel
                ltac:(lia) ltac:(lia)) as Hfind.
  rewrite Hf.
  destruct (decide (next_pref s = 0%nat)), (decide (0 < next_pref s)%nat); try lia;
    rewrite Hfind; f_equal; repeat case_decide; done || lia.
Qed.

Lemma run_app ops1 ops2 : ∀ s, run s (ops1 ++ ops2) = run s ops1 ≫= λ s1, run s1 ops2.
Proof.
  induction ops1 as [|o ops1 IH]; intros s; simpl; [done|].
  destruct (step s o); simpl; [apply IH|done].
Qed.

Lemma run_snoc_add_event s0 ops s a s' e :
  run s0 ops = Some s → add_event a s = Some (s', e) →
  run s0 (ops ++ [OpAddEvent a]) = Some s'.
Proof. intros Hrun Ha. rewrite run_app, Hrun. simpl. by rewrite Ha. Qed.

Lemma poss_chain_node s p :
  poss_chain_ok s → (p < next_pref s)%nat →
  ∃ node, possessions s !! p = Some node ∧ poss_id node = (Z.of_nat p + 1)%Z.
Proof.
  intros (_ & _ & _ & Hp) Hlt. specialize (Hp p). rewrite decide_True in Hp by lia.
  destruct Hp as (node & ? & ? & _). eauto.
Qed.


Lemma add_event_created a s G p node s' e :
  chains_ok s G → a_possession a = Some p → possessions s !! p = Some node →
  add_event a s = Some (s', e) →
  events s' !! e = Some (created_event a p (last_event node))
  ∧ ∃ node', possessions s' !! p = Some node' ∧ last_event node' = Some e
      ∧ poss_id node' = poss_id node
      ∧ team_in_possession node' = team_in_possession node.
Proof.
  intros Hok Hp Hnode Ha.
  destruct (add_event_objects a s p node s' e Hp Hnode) as (_ & He & _ & Hn & _);
    [|done|].
  - destruct (chain_of_node s G p Hok) as [L HL]; [eauto|].
    destruct (ok_chain _ _ Hok p L HL) as (node0 & Hnode0 & _ & Hlast & Hlinked).
    simplify_eq. rewrite Hlast. intros Hl.
    assert (next_eref s ∈ L) as Hin.
    { rewrite last_lookup in Hl. by eapply list_elem_of_lookup_2. }
    pose proof (ok_fresh_e _ _ Hok _ (linked_allocated _ _ _ _ Hlinked Hin)). lia.
  - split; [done|]. eexists. split; [exact Hn|]. done.
Qed.

(** X6. [create_event] on a match built by any calls either answers 400
    and leaves the match as it was, or answers 201 after one [add_event]:
    the new event is in the flat list with the posted time, label and team,
    as the last event of its possession.  With a [possession_id] this is
    the possession of that id, which must exist; without one it is a new
    possession of the event's team.  It answers 201 exactly when
    [match_time] is a number, [event_type] one of the ten values, [team]
    non-empty and the [possession_id], if given, that of a possession. *)
Theorem create_event_all_or_nothing (home away : string) (ops : list op) (s : Store)
    (data : EventPost) (fuel : nat) :
  run (new_match home away) ops = Some s →
  (next_pref s < fuel)%nat →
  ∃ s' status r, create_event data fuel s = Some (s', status, r)
    ∧ ((status = 400%nat ∧ s' = s ∧ r = None)
       ∨ (status = 201%nat
          ∧ ∃ e ev p node, r = Some e
              ∧ Match_iter_events s' ≡ₚ e :: Match_iter_events s
              ∧ run (new_match home away)
                  (ops ++ [OpAddEvent
                             (mkAddEvent (match_time ev) (event_type ev) (team ev)
                                (Z.to_nat ∘ Z.pred <$> c_possession_id data)
                                (c_player data) (c_description data) (c_x data)
                                (c_y data) (Some (default ∅ (c_tags data))))])
                = Some s'
              ∧ events s' !! e = Some ev
              ∧ c_match_time data = Some (JFloat (match_time ev))
              ∧ truthy (c_event_type data) ≫= EventType_of_value = Some (event_type ev)
              ∧ truthy (c_team data) = Some (team ev)
              ∧ possession ev = Some p
              ∧ possessions s' !! p = Some node
              ∧ last_event node = Some e
              ∧ match c_possession_id data with
                | Some possession_id =>
                    poss_id node = possession_id ∧ is_Some (possessions s !! p)
                | None =>
                    p = next_pref s ∧ team_in_possession node = team ev
                end))
    ∧ (status = 201%nat ↔
         (∃ q, c_match_time data = Some (JFloat q))
         ∧ is_Some (truthy (c_event_type data) ≫= EventType_of_value)
         ∧ is_Some (truthy (c_team data))
         ∧ ∀ possession_id, c_possession_id data = Some possession_id →
             (1 ≤ possession_id ≤ Z.of_nat (next_pref s))%Z).
Proof.
  intros Hrun Hfuel.
  destruct (reachable_store_ok _ _ _ _ Hrun) as (G & Hok & Hl0 & Hpc).
  unfold create_event.
  destruct (c_match_time data) as [[mt|]|] eqn:Hmt.
  2,3: eexists _, _, _; split; [done|]; split; [by left|];
    split; [done|]; by intros [[q ?] _].
  destruct (truthy (c_event_type data)) as [raw|] eqn:Hraw.
  2:{ eexists _, _, _. split; [done|]. split; [by left|].
      split; [done|]. by intros (_ & [? ?] & _). }
  destruct (EventType_of_value raw) as [et|] eqn:Het.
  2:{ eexists _, _, _. split; [done|]. split; [by left|].
      split; [done|]. simpl. rewrite Het. by intros (_ & [? ?] & _). }
  destruct (truthy (c_team data)) as [tm|] eqn:Htm.
  2:{ eexists _, _, _. split; [done|]. split; [by left|].
      split; [done|]. by intros (_ & _ & [? ?] & _). }
  destruct (c_possession_id data) as [pid|] eqn:Hpid.
  - rewrite (find_possession_by_id s pid fuel Hpc Hfuel). cbn [mbind option_bind].
    destruct (decide (1 ≤ pid ≤ Z.of_nat (next_pref s))%Z) as [Hin|Hout].
    2:{ eexists _, _, _. split; [done|]. split; [by left|].
        split; [done|]. intros (_ & _ & _ & Hr). destruct Hout. by apply Hr. }
    set (p := Z.to_nat (pid - 1)).
    set (a := mkAddEvent mt et tm (Some p) _ _ _ _ _).
    destruct (poss_chain_node s p Hpc) as (node & Hnode & Hid); [lia|].
    destruct (add_event_defined a s p eq_refl) as [[s' e] Ha]; [eauto|].
    rewrite Ha. cbn [mbind option_bind]. eexists _, _, _. split; [done|].
    destruct (add_event_created a s G p node s' e Hok eq_refl Hnode Ha)
      as (Hev & node' & Hnode' & Hlast & Hid' & _).
    destruct (add_event_effect _ _ _ _ Ha) as (_ & _ & _ & Hl).
    split.
    + right. split; [done|].
      exists e, (created_event a p (last_event node)), p, node'. split; [done|].
      split; [unfold Match_iter_events; by rewrite Hl, list_insert_at_perm|].
      split.
      { simpl. rewrite <- Z.sub_1_r. by apply (run_snoc_add_event _ _ s a s' e). }
      split; [exact Hev|]. simpl. repeat (split; [done|]).
      split; [rewrite Hid', Hid; unfold p; lia|eauto].
    + split; [|done]. intros _. split; [eauto|]. split; [by rewrite Het|].
      split; [eauto|]. intros ? [= <-]. done.
  - set (a := mkAddEvent mt et tm None _ _ _ _ _).
    pose proof (new_possession_store_ok tm s G (conj Hok (conj Hl0 Hpc))) as (Hok1 & _ & Hpc1).
    destruct (new_possession_nodes tm s) as ((n0 & Hn0 & _ & Hlast0 & _ & Hteam) & _ & _).
    destruct (add_event_defined (with_a_possession (next_pref s) a)
                (new_possession tm s).1 (next_pref s) eq_refl) as [[s' e] Ha]; [eauto|].
    assert (add_event a s = Some (s', e)) as Ha'
      by (rewrite add_event_no_possession by done; exact Ha).
    rewrite Ha'. cbn [mbind option_bind]. eexists _, _, _. split; [done|].
    destruct (add_event_created (with_a_possession (next_pref s) a) _ _
                (next_pref s) n0 s' e Hok1 eq_refl Hn0 Ha)
      as (Hev & node' & Hnode' & Hlast & _ & Hteam').
    destruct (add_event_effect _ _ _ _ Ha') as (_ & _ & _ & Hl).
    split.
    + right. split; [done|].
      exists e, (created_event (with_a_possession (next_pref s) a) (next_pref s)
                   (last_event n0)), (next_pref s), node'. split; [done|].
      split; [unfold Match_iter_events; by rewrite Hl, list_insert_at_perm|].
      split.
      { simpl. by apply (run_snoc_add_event _ _ s a s' e). }
      split; [exact Hev|]. simpl. repeat (split; [done|]).
      by rewrite Hteam'.
    + split; [|done]. intros _. split; [eauto|]. split; [by rewrite Het|].
      split; [eauto|]. intros ? [=].
Qed.

Lemma create_event_all_or_nothing_witness :
  ∃ s, run (new_match "Team A" "Team B") demo_ops = Some s
    ∧ ∃ s' e,
        create_event
          (mkEventPost (Some (JFloat (Qc_of_Z 7))) (Some "SHOT") (Some "Team A")
             (Some 1%Z) None None None None None) 2 s
        = Some (s', 201%nat, Some e).
Proof.
  eexists. split; [vm_compute; reflexivity|].
  lazymatch goal with
  | |- ∃ s' e, create_event ?data ?fuel ?s = _ =>
      assert (run (new_match "Team A" "Team B") demo_ops = Some s) as Hrun
        by (vm_compute; reflexivity);
      assert (next_pref s < fuel)%nat as Hfuel by (vm_compute; lia);
      destruct (create_event_all_or_nothing "Team A" "Team B" demo_ops s data fuel
                  Hrun Hfuel)
        as (s' & status & r & Hc & [(_ & _ & Hr)|(-> & e & _ & _ & _ & -> & _)] & Hst)
  end.
  - exfalso. revert Hc. rewrite Hr. vm_compute. intros Hc. discriminate Hc.
  - eauto.
Defined.





(** ** Adding and deleting *)




(** ** Indexes out of range *)



(** ** The priors *)

Lemma occurrences_perm et evs evs' :
  evs ≡ₚ evs' → occurrences et evs = occurrences et evs'.
Proof. intros Hp. unfold occurrences. by rewrite Hp. Qed.

Lemma update_counts_eq p evs evs' :
  (∀ et, occurrences et evs = occurrences et evs') →
  update_from_events p evs = update_from_events p evs'.
Proof.
  intros Hocc.
  assert (counts (update_from_events p evs) = counts (update_from_events p evs')) as Hc.
  { apply map_eq. intros et. by rewrite !update_lookup, Hocc. }
  unfold update_from_events in *. simpl in Hc. by rewrite Hc.
Qed.

(** X10. The counts that [update_from_events] leaves do not depend on the
    order of the events: two lists that are permutations of each other
    give the same prior, from whatever prior the update starts. *)
Theorem update_from_events_order_independent (p : EventTypePrior)
    (evs evs' : list Event) :
  evs ≡ₚ evs' → update_from_events p evs = update_from_events p evs'.
Proof. intros Hp. apply update_counts_eq. intros et. by apply occurrences_perm. Qed.

Lemma update_from_events_order_independent_witness :
  update_from_events (new_prior 1) [labelled PASS; labelled SHOT]
  = update_from_events (new_prior 1) [labelled SHOT; labelled PASS].
Proof.
  apply (update_from_events_order_independent (new_prior 1)
           [labelled PASS; labelled SHOT] [labelled SHOT; labelled PASS]).
  apply perm_swap.
Defined.

Lemma update_from_histogram_lookup p hist et :
  counts (update_from_histogram p hist) !! et
  = match hist !! et with
    | Some c => Some (default 0 (counts p !! et) + c)
    | None => counts p !! et
    end.
Proof.
  unfold update_from_histogram. simpl. revert et.
  apply (map_fold_weak_ind
           (λ r m, ∀ et, r !! et = match m !! et with
                                   | Some c => Some (default 0 (counts p !! et) + c)
                                   | None => counts p !! et
                                   end)).
  - intros et. by rewrite lookup_empty.
  - intros i x m r Hi IH et. destruct (decide (et = i)) as [->|Hne].
    + rewrite lookup_insert_eq. specialize (IH i). rewrite Hi in IH.
      rewrite IH. destruct (counts p !! i) as [v|]; simpl.
      * by rewrite lookup_insert_eq.
      * rewrite lookup_insert_eq. f_equal. ring.
    + rewrite lookup_insert_ne by done. rewrite <- IH.
      destruct (r !! i); by rewrite lookup_insert_ne.
Qed.

(** X11. [update_from_histogram] adds the histogram to the counts label
    by label, a label that was not tracked starting from zero; fed with the
    counts collected from a list of events by a prior that started empty,
    it leaves the same prior as [update_from_events] on that list. *)
Theorem update_from_histogram_agrees (p : EventTypePrior) (a : Qc) (evs : list Event) :
  (∀ hist et,
     counts (update_from_histogram p hist) !! et
     = match hist !! et with
       | Some c => Some (default 0 (counts p !! et) + c)
       | None => counts p !! et
       end)
  ∧ update_from_histogram p (counts (update_from_events (mkEventTypePrior a ∅) evs))
    = update_from_events p evs.
Proof.
  split; [apply update_from_histogram_lookup|].
  assert (counts (update_from_histogram p
                    (counts (update_from_events (mkEventTypePrior a ∅) evs)))
          = counts (update_from_events p evs)) as Hc.
  { apply map_eq. intros et. rewrite update_from_histogram_lookup, !update_lookup.
    simpl. rewrite lookup_empty. simpl.
    destruct (decide (occurrences et evs = 0%nat)); [done|].
    f_equal. ring. }
  unfold update_from_histogram, update_from_events in *. simpl in *. by rewrite Hc.
Qed.

Lemma probs_lookup (p : EventTypePrior) (et : EventType) :
  probs p !! et = (λ _, posterior_prob p et) <$> counts p !! et.
Proof.
  unfold probs, posterior_prob. simpl.
  destruct (decide _); rewrite lookup_fmap; by destruct (counts p !! et).
Qed.

(** X12. [probs()] has an entry exactly for the tracked labels, and that
    entry is the value [posterior_prob] returns for the label; for a label
    that is not tracked [posterior_prob] still returns a value, which
    [probs()] does not list. *)
Theorem probs_agree_with_posterior_prob (p : EventTypePrior) (et : EventType) :
  probs p !! et = (λ _, posterior_prob p et) <$> counts p !! et
  ∧ (is_Some (probs p !! et) ↔ is_Some (counts p !! et)).
Proof.
  split; [apply probs_lookup|]. rewrite probs_lookup.
  destruct (counts p !! et); simpl; split; intros [? ?]; by eauto.
Qed.

Lemma EventType_value_round_trip et : EventType_of_value (EventType_value et) = Some et.
Proof. by destruct et. Qed.

Lemma EventType_of_value_Some v et :
  EventType_of_value v = Some et → EventType_value et = v.
Proof.
  unfold EventType_of_value. intros Hv.
  destruct (list_find (λ et0, EventType_value et0 = v) all_event_types)
    as [[i et']|] eqn:Hfind; [|done].
  apply list_find_Some in Hfind as (_ & ? & _). cbn in Hv. by simplify_eq.
Qed.

Lemma EventType_value_inj et1 et2 :
  EventType_value et1 = EventType_value et2 → et1 = et2.
Proof.
  intros Heq. pose proof (EventType_value_round_trip et1) as H1.
  rewrite Heq, EventType_value_round_trip in H1. by injection H1.
Qed.

(** X13. The values of the enumeration and the lookup by value are
    inverse to each other, the lookup failing on every other string; and
    [to_dict()] files each probability of [probs()] under the value of its
    label, and has no other key. *)
Theorem to_dict_by_value (p : EventTypePrior) (v : string) :
  (∀ et, EventType_of_value (EventType_value et) = Some et)
  ∧ (∀ et, EventType_of_value v = Some et → v = EventType_value et)
  ∧ to_dict p !! v = EventType_of_value v ≫= λ et, probs p !! et.
Proof.
  split; [apply EventType_value_round_trip|].
  split; [intros et Hv; symmetry; by apply EventType_of_value_Some|].
  unfold to_dict. set (l := (λ kv : EventType * Qc, _) <$> _).
  assert (NoDup l.*1) as Hnd.
  { unfold l. rewrite <- list_fmap_compose.
    assert (NoDup ((map_to_list (probs p)).*1)) as Hk by apply NoDup_fst_map_to_list.
    revert Hk. generalize (map_to_list (probs p)). intros k Hk.
    induction k as [|[et x] k IH]; [constructor|]. simpl in *.
    apply NoDup_cons in Hk as [Hx Hk]. apply NoDup_cons. split; [|by apply IH].
    intros Hin. apply Hx. apply list_elem_of_fmap in Hin as ([et' x'] & Heq & Hin).
    simpl in Heq. apply EventType_value_inj in Heq as ->.
    apply list_elem_of_fmap. by exists (et', x'). }
  assert (∀ x, list_to_map (M := gmap string Qc) l !! v = Some x
               ↔ ∃ et, EventType_value et = v ∧ probs p !! et = Some x) as Hiff.
  { intros x. rewrite <- elem_of_list_to_map by done. unfold l.
    rewrite list_elem_of_fmap. split.
    - intros ([et x'] & [= -> ->] & Hin). exists et. split; [done|].
      by apply elem_of_map_to_list in Hin.
    - intros (et & <- & Hx). exists (et, x). split; [done|].
      by apply elem_of_map_to_list. }
  apply option_eq. intros x. rewrite Hiff. split.
  - intros (et & <- & Hx). by rewrite EventType_value_round_trip.
  - intros Hx. destruct (EventType_of_value v) as [et|] eqn:Hv; [|done].
    exists et. split; [by apply EventType_of_value_Some|done].
Qed.

(** ** The priors per state *)

Section StatePriorsByKey.
Context {K : Type} `{Countable K}.

Lemma state_observe_alpha key_fn (sp : StateEventTypePriors K) ev :
  st_alpha (state_observe key_fn sp ev) = st_alpha sp.
Proof.
  unfold state_observe, _get_or_create. by destruct (priors sp !! key_fn ev).
Qed.

Lemma state_observe_lookup key_fn (sp : StateEventTypePriors K) ev k :
  priors (state_observe key_fn sp ev) !! k
  = if decide (key_fn ev = k)
    then Some (update_from_events
                 (default (new_prior (st_alpha sp)) (priors sp !! k)) [ev])
    else priors sp !! k.
Proof.
  unfold state_observe, _get_or_create.
  destruct (decide (key_fn ev = k)) as [<-|Hne].
  - destruct (priors sp !! key_fn ev) as [p|]; simpl; by rewrite lookup_insert_eq.
  - destruct (priors sp !! key_fn ev) as [p|]; simpl;
      by rewrite ?lookup_insert_ne by done.
Qed.

Lemma state_update_lookup key_fn evs : ∀ (sp : StateEventTypePriors K) k,
  priors (state_update_from_events sp evs key_fn) !! k
  = match priors sp !! k with
    | Some p0 => Some (update_from_events p0 (filter (λ ev, key_fn ev = k) evs))
    | None =>
        if decide (filter (λ ev, key_fn ev = k) evs = []) then None
        else Some (update_from_events (new_prior (st_alpha sp))
                     (filter (λ ev, key_fn ev = k) evs))
    end.
Proof.
  unfold state_update_from_events.
  induction evs as [|ev evs IH]; intros sp k; simpl.
  - by destruct (priors sp !! k) as [[]|].
  - rewrite IH, state_observe_lookup, state_observe_alpha, filter_cons.
    destruct (decide (key_fn ev = k)) as [Hk|Hk].
    + by destruct (priors sp !! k) as [p0|].
    + done.
Qed.

Lemma state_from_events_lookup (evs : list Event) (key_fn : Event → K) (a : Qc) (k : K) :
  priors (state_from_events evs key_fn a) !! k
  = if decide (filter (λ ev, key_fn ev = k) evs = []) then None
    else Some (prior_from_events (filter (λ ev, key_fn ev = k) evs) a).
Proof.
  unfold state_from_events. rewrite state_update_lookup. simpl.
  by rewrite lookup_empty.
Qed.

(** X14. In the collection that [StateEventTypePriors.from_events] builds,
    the prior stored under a state key is the prior that
    [EventTypePrior.from_events] builds, with the same alpha, from the
    events of that key alone, taken in their order; a key that no event
    has is not stored. *)
Theorem state_prior_of_own_events (evs : list Event) (key_fn : Event → K) (a : Qc)
    (k : K) :
  priors (state_from_events evs key_fn a) !! k
  = if decide (filter (λ ev, key_fn ev = k) evs = []) then None
    else Some (prior_from_events (filter (λ ev, key_fn ev = k) evs) a).
Proof. apply state_from_events_lookup. Qed.

(** X15. [state_probs()] of a collection built by [from_events] has an
    entry exactly for the keys that some event has, and every entry is a
    distribution: it gives a value to each of the ten labels and the
    values sum to 1, whatever alpha is. *)
Theorem state_probs_distributions (evs : list Event) (key_fn : Event → K) (a : Qc)
    (k : K) :
  (is_Some (state_probs (state_from_events evs key_fn a) !! k)
   ↔ ∃ ev, ev ∈ evs ∧ key_fn ev = k)
  ∧ ∀ d, state_probs (state_from_events evs key_fn a) !! k = Some d →
      sum_values d = 1 ∧ ∀ et, is_Some (d !! et).
Proof.
  unfold state_probs. rewrite lookup_fmap, state_from_events_lookup.
  destruct (decide (filter (λ ev, key_fn ev = k) evs = [])) as [Hnil|Hne]; simpl.
  - split; [|done]. split; [by intros [? ?]|].
    intros (ev & Hev & Hk). exfalso.
    by eapply (filter_nil_not_elem_of _ _ ev Hnil).
  - split.
    + split; [|eauto]. intros _.
      destruct (filter (λ ev, key_fn ev = k) evs) as [|ev l] eqn:Hf; [done|].
      assert (ev ∈ filter (λ ev, key_fn ev = k) evs) as Hin by (rewrite Hf; left).
      apply list_elem_of_filter in Hin as [? ?]. eauto.
    + intros d [= <-].
      pose proof (prior_from_events_tracks_all (filter (λ ev, key_fn ev = k) evs) a)
        as Htr.
      split.
      * apply probs_sum_nonempty. intros Hempty. destruct (Htr PASS) as [x Hx].
        by rewrite Hempty, lookup_empty in Hx.
      * intros et. rewrite probs_lookup.
        destruct (Htr et) as [x ->]. simpl. eauto.
Qed.

End StatePriorsByKey.

(** ** Sampling *)







(** ** The loader *)

Lemma infer_loop_one a evs :
  infer_loop [a] evs
  = match list_find (λ x, x ≠ a) (team_names evs) with
    | Some (_, b) => [a; b]
    | None => [a]
    end.
Proof.
  induction evs as [|ev evs IH]; [done|]. unfold team_names in *. simpl.
  destruct (truthy (sb_team_name ev)) as [n|]; simpl.
  - destruct (decide (n ∈ [a])) as [Hin|Hnotin].
    + apply list_elem_of_singleton in Hin as ->. simpl.
      rewrite decide_False by (by intros ?). rewrite IH.
      by destruct (list_find _ _) as [[]|].
    + rewrite (decide_True (P := n ≠ a)) by (intros ->; apply Hnotin; left).
      by rewrite decide_True by (simpl; lia).
  - exact IH.
Qed.

Lemma infer_loop_none evs :
  infer_loop [] evs
  = match team_names evs with
    | [] => []
    | a :: rest =>
        match list_find (λ x, x ≠ a) rest with
        | Some (_, b) => [a; b]
        | None => [a]
        end
    end.
Proof.
  induction evs as [|ev evs IH]; [done|]. unfold team_names in *. simpl.
  destruct (truthy (sb_team_name ev)) as [n|]; simpl.
  - apply infer_loop_one.
  - exact IH.
Qed.

Lemma truthy_nonempty o s : truthy o = Some s → s ≠ "".
Proof. unfold truthy. destruct o; [|done]. case_decide; naive_solver. Qed.

(** X17. [_infer_team_names] returns the first team name of the records
    and the first name after it that differs, empty and missing names left
    out; it raises exactly when the records have fewer than two distinct
    names.  Names of a third team do not make it raise. *)
Theorem infer_team_names_first_two (evs : list SBEvent) :
  _infer_team_names evs
  = match team_names evs with
    | [] => None
    | a :: rest => (λ ib, (a, ib.2)) <$> list_find (λ x, x ≠ a) rest
    end
  ∧ (is_Some (_infer_team_names evs)
     ↔ ∃ a b, a ∈ team_names evs ∧ b ∈ team_names evs ∧ a ≠ b)
  ∧ ∀ a b, _infer_team_names evs = Some (a, b) →
      a ≠ b ∧ a ≠ "" ∧ b ≠ "" ∧ a ∈ team_names evs ∧ b ∈ team_names evs.
Proof.
  assert (_infer_team_names evs
          = match team_names evs with
            | [] => None
            | a :: rest => (λ ib, (a, ib.2)) <$> list_find (λ x, x ≠ a) rest
            end) as Heq.
  { unfold _infer_team_names. rewrite infer_loop_none.
    destruct (team_names evs) as [|a rest]; [done|].
    by destruct (list_find _ rest) as [[i b]|]. }
  assert (∀ x, x ∈ team_names evs → x ≠ "") as Hne.
  { intros x Hx. unfold team_names in Hx. apply list_elem_of_omap in Hx as (ev & _ & Hx).
    by eapply truthy_nonempty. }
  split; [done|]. rewrite Heq. split; [|].
  - destruct (team_names evs) as [|a rest].
    + split; [by intros [? ?]|]. by intros (a & b & Ha%elem_of_nil & _).
    + split.
      * intros [ab Hab]. apply fmap_Some in Hab as ([i b'] & Hfind & _).
        apply list_find_Some in Hfind as (Hi & Hneq & _).
        exists a, b'. split; [left|]. split; [|done].
        right. by eapply list_elem_of_lookup_2.
      * intros (x & y & Hx & Hy & Hxy).
        assert (∃ z, z ∈ rest ∧ z ≠ a) as (z & Hz & Hza).
        { apply elem_of_cons in Hx as [->|Hx]; apply elem_of_cons in Hy as [->|Hy].
          - done.
          - by exists y.
          - by exists x.
          - destruct (decide (x = a)) as [->|?]; [by exists y | by exists x]. }
        destruct (list_find (λ x, x ≠ a) rest) as [ib|] eqn:Hfind; [by eauto|].
        exfalso. apply list_find_None in Hfind.
        rewrite Forall_forall in Hfind. by apply (Hfind z Hz).
  - intros a b Hab. destruct (team_names evs) as [|a' rest]; [done|].
    apply fmap_Some in Hab as ([i b'] & Hfind & Hpair).
    injection Hpair as Ha Hb. simpl in Hb. subst a b.
    apply list_find_Some in Hfind as (Hi & Hneq & _).
    assert (b' ∈ a' :: rest) as Hb by (right; by eapply list_elem_of_lookup_2).
    split; [done|]. split; [apply Hne; left|]. split; [by apply Hne|].
    split; [left|done].
Qed.




Lemma add_event_length a s s' e :
  add_event a s = Some (s', e) →
  length (_events (the_match s')) = S (length (_events (the_match s))).
Proof.
  intros Ha. destruct (add_event_effect _ _ _ _ Ha) as (_ & _ & _ & ->).
  by rewrite list_insert_at_perm.
Qed.

Lemma ingest_event_run config st ev st' :
  ingest_event config st ev = Returned st' →
  ∃ ops, Forall is_insertion ops ∧ run st.1 ops = Some st'.1
    ∧ (length (_events (the_match st'.1)) ≤ S (length (_events (the_match st.1))))%nat.
Proof.
  destruct st as [s poss]. unfold ingest_event.
  assert (∃ ops, Forall is_insertion ops ∧ run (s, poss).1 ops = Some (s, poss).1
            ∧ (length (_events (the_match (s, poss).1))
               ≤ S (length (_events (the_match (s, poss).1))))%nat) as Hskip.
  { exists []. split; [constructor|]. split; [done|]. lia. }
  destruct (truthy (sb_type_name ev)) as [tn|]; [|by intros [= <-]].
  case_decide; [by intros [= <-]|].
  destruct (sb_minute ev) as [minute|]; [|by intros [= <-]].
  destruct (sb_second ev) as [second|]; [|by intros [= <-]].
  destruct (truthy (sb_team_name ev)) as [team_name|]; [|by intros [= <-]].
  clear Hskip.
  set (t := default team_name (truthy (sb_possession_team_name ev))).
  assert (∀ s1 poss1 p x y,
            (s1 = s ∨ s1 = (new_possession t s).1) →
            match add_event
                    (mkAddEvent (minute * Qc_of_Z 60 + second) (_map_event_type tn)
                       team_name (Some p) (sb_player_name ev)
                       (Some (if bool_decide (_map_event_type tn = SHOT
                                              ∧ sb_shot_outcome_name ev = Some "Goal")
                              then "Goal" else tn)) x y
                       (Some (if bool_decide (_map_event_type tn = SHOT
                                              ∧ sb_shot_outcome_name ev = Some "Goal")
                              then {[ "is_goal" := true ]} else ∅))) s1 with
            | Some (s2, _) => Returned (s2, poss1)
            | None => Raised BadAddress
            end = Returned st' →
            ∃ ops, Forall is_insertion ops ∧ run s ops = Some st'.1
              ∧ (length (_events (the_match st'.1))
                 ≤ S (length (_events (the_match s))))%nat) as Hadd.
  { intros s1 poss1 p x y Hs1.
    destruct (add_event _ s1) as [[s2 e]|] eqn:Ha; [|done]. intros [= <-]. simpl.
    pose proof (add_event_length _ _ _ _ Ha) as Hlen.
    destruct Hs1 as [->| ->].
    - eexists [OpAddEvent _]. split; [by repeat constructor|]. simpl.
      rewrite Ha. split; [done|]. lia.
    - eexists [OpNewPossession t; OpAddEvent _]. split; [by repeat constructor|].
      simpl. rewrite Ha. split; [done|]. rewrite Hlen, new_possession_m_events. lia. }
  simpl.
  assert (∀ (poss1 : gmap Z nat) s1 p,
            (s1 = s ∨ s1 = (new_possession t s).1) →
            match
              match sb_location ev with
              | Some (raw_x, raw_y) =>
                  if decide (pitch_length config = 0 ∨ pitch_width config = 0)
                  then Raised ZeroDivisionError
                  else Returned (Some (raw_x / pitch_length config),
                                 Some (raw_y / pitch_width config))
              | None => Returned (None, None)
              end
            with
            | Raised e => Raised e
            | Returned (x, y) =>
                match add_event
                        (mkAddEvent (minute * Qc_of_Z 60 + second) (_map_event_type tn)
                           team_name (Some p) (sb_player_name ev)
                           (Some (if bool_decide (_map_event_type tn = SHOT
                                                  ∧ sb_shot_outcome_name ev = Some "Goal")
                                  then "Goal" else tn)) x y
                           (Some (if bool_decide (_map_event_type tn = SHOT
                                                  ∧ sb_shot_outcome_name ev = Some "Goal")
                                  then {[ "is_goal" := true ]} else ∅))) s1 with
                | Some (s2, _) => Returned (s2, poss1)
                | None => Raised BadAddress
                end
            end = Returned st' →
            ∃ ops, Forall is_insertion ops ∧ run s ops = Some st'.1
              ∧ (length (_events (the_match st'.1))
                 ≤ S (length (_events (the_match s))))%nat) as Hxy.
  { intros poss1 s1 p Hs1. destruct (sb_location ev) as [[rx ry]|].
    - destruct (decide (pitch_length config = 0 ∨ pitch_width config = 0));
        [by intros ?|]. by apply Hadd.
    - by apply Hadd. }
  destruct (sb_possession ev) as [pid|].
  - destruct (poss !! pid) as [p|].
    + apply Hxy. by left.
    + destruct (new_possession t s) as [s1 p] eqn:Hnp. apply Hxy. by right.
  - destruct (new_possession t s) as [s1 p] eqn:Hnp. apply Hxy. by right.
Qed.

Lemma ingest_loop_run config evs : ∀ st st',
  ingest_loop config evs st = Returned st' →
  ∃ ops, Forall is_insertion ops ∧ run st.1 ops = Some st'.1
    ∧ (length (_events (the_match st'.1))
       ≤ length (_events (the_match st.1)) + length evs)%nat.
Proof.
  induction evs as [|ev evs IH]; intros st st' Hloop; simpl in Hloop.
  - injection Hloop as <-. exists []. split; [constructor|]. split; [done|]. lia.
  - destruct (ingest_event config st ev) as [st1|] eqn:Hev; [|done].
    destruct (ingest_event_run _ _ _ _ Hev) as (ops1 & Hins1 & Hrun1 & Hlen1).
    destruct (IH _ _ Hloop) as (ops2 & Hins2 & Hrun2 & Hlen2).
    exists (ops1 ++ ops2). split; [by apply Forall_app|]. split.
    + rewrite run_app, Hrun1. done.
    + simpl. lia.
Qed.

Lemma run_teams ops : ∀ s s',
  run s ops = Some s' →
  home_team (the_match s') = home_team (the_match s)
  ∧ away_team (the_match s') = away_team (the_match s).
Proof.
  assert (∀ t s, home_team (the_match (new_possession t s).1) = home_team (the_match s)
                 ∧ away_team (the_match (new_possession t s).1)
                   = away_team (the_match s)) as Hnp.
  { intros t s. unfold new_possession. by destruct (_last_possession _). }
  induction ops as [|o ops IH]; intros s s' Hrun; simpl in Hrun.
  - by injection Hrun as <-.
  - destruct (step s o) as [s1|] eqn:Hstep; simpl in Hrun; [|done].
    destruct (IH _ _ Hrun) as [-> ->]. clear IH Hrun.
    destruct o as [t|a|i d|i]; simpl in Hstep.
    + injection Hstep as <-. apply Hnp.
    + destruct (add_event a s) as [[s2 e]|] eqn:Ha; [|done]. injection Hstep as <-.
      destruct (a_possession a) as [p|] eqn:Hp.
      * destruct (add_event_skeleton a s p s2 e Hp Ha) as (_&_&_&_&?&?&_). done.
      * rewrite add_event_no_possession in Ha by done.
        destruct (add_event_skeleton (with_a_possession (next_pref s) a) _
                    (next_pref s) s2 e eq_refl Ha) as (_&_&_&_&->&->&_).
        apply Hnp.
    + injection Hstep as <-.
      destruct (update_event_skeleton i d s) as (_&_&_&_&?&?&_). done.
    + injection Hstep as <-.
      destruct (delete_event_skeleton i s) as (_&_&_&_&?&?&_). done.
Qed.

(** X19. A match that [match_from_statsbomb_events] returns is one that
    [new_possession] and [add_event] calls build on a new match of the two
    inferred teams, so what holds of every match built by calls holds of
    it: its flat list is in time order and its chains are well formed.  It
    has at most one event for each record. *)
Theorem ingestion_is_a_run (config : StatsBombConfig) (evs : list SBEvent) (m : Store) :
  match_from_statsbomb_events config evs = Returned m →
  ∃ home away ops, _infer_team_names evs = Some (home, away)
    ∧ home_team (the_match m) = home ∧ away_team (the_match m) = away
    ∧ Forall is_insertion ops
    ∧ run (new_match home away) ops = Some m
    ∧ timeline_ok m
    ∧ (∃ G, chains_ok m G)
    ∧ (length (Match_iter_events m) ≤ length evs)%nat.
Proof.
  unfold match_from_statsbomb_events. intros Hm.
  destruct (_infer_team_names evs) as [[home away]|]; [|done].
  destruct (ingest_loop config evs (new_match home away, ∅)) as [[s poss]|] eqn:Hloop;
    [|done].
  injection Hm as ->.
  destruct (ingest_loop_run _ _ _ _ Hloop) as (ops & Hins & Hrun & Hlen).
  simpl in Hrun, Hlen. exists home, away, ops. split; [done|].
  destruct (run_teams _ _ _ Hrun) as [-> ->].
  split; [done|]. split; [done|]. split; [done|]. split; [done|]. split; [|split].
  - eapply run_timeline; [|apply timeline_ok_new_match|exact Hrun].
    eapply Forall_impl; [exact Hins|]. by intros [].
  - by eapply reachable_chains.
  - done.
Qed.

Lemma ingestion_is_a_run_witness :
  ∃ m, match_from_statsbomb_events default_config sb_sample = Returned m
    ∧ timeline_ok m.
Proof.
  eexists. split; [vm_compute; reflexivity|].
  lazymatch goal with
  | |- timeline_ok ?m =>
      destruct (ingestion_is_a_run default_config sb_sample m)
        as (home & away & ops & _ & _ & _ & _ & _ & Hok & _);
        [vm_compute; reflexivity | exact Hok]
  end.
Defined.

(** ** The registry of matches *)

Lemma create_demo_match_keeps demo_id file synthetic (_matches : gmap string Store) :
  ∀ i s, _matches !! i = Some s →
    _create_demo_match demo_id file synthetic _matches !! i = Some s.
Proof.
  intros i s Hi. unfold _create_demo_match.
  destruct (decide (is_Some (_matches !! demo_id))) as [|Hfree]; [done|].
  assert (demo_id ≠ i) by (intros ->; by eauto).
  destruct file as [evs|]; [|by rewrite lookup_insert_ne].
  destruct (match_from_statsbomb_events default_config evs);
    by rewrite lookup_insert_ne.
Qed.

(** X20. [create_match] answers 201 exactly when the three fields are
    non-empty and the id is not registered, and then registers a new match
    of the two teams with no event; otherwise it answers 400 or 409 and the
    registry is as it was.  Neither it nor [_create_demo_match] replaces or
    removes a match that is registered. *)
Theorem create_match_never_overwrites (match_id home away : option string)
    (file : option (list SBEvent)) (synthetic : Store) (demo_id : string)
    (_matches : gmap string Store) :
  let r := create_match match_id home away _matches in
  (r.2 = 201%nat ∨ (r.2 = 400%nat ∧ r.1 = _matches) ∨ (r.2 = 409%nat ∧ r.1 = _matches))
  ∧ (r.2 = 201%nat ↔
       ∃ i h a, truthy match_id = Some i ∧ truthy home = Some h ∧ truthy away = Some a
                ∧ _matches !! i = None)
  ∧ (r.2 = 409%nat ↔
       ∃ i, truthy match_id = Some i ∧ is_Some (truthy home) ∧ is_Some (truthy away)
            ∧ is_Some (_matches !! i))
  ∧ (∀ i h a, truthy match_id = Some i → truthy home = Some h → truthy away = Some a →
       _matches !! i = None →
       r.1 = <[i := new_match h a]> _matches ∧ get_match i r.1 = Some (h, a))
  ∧ (∀ i s, _matches !! i = Some s →
       r.1 !! i = Some s
       ∧ _create_demo_match demo_id file synthetic _matches !! i = Some s).
Proof.
  intros r. unfold r, create_match. pose proof (create_demo_match_keeps
    demo_id file synthetic _matches) as Hdemo.
  destruct (truthy match_id) as [i|]; [|by missing_field].
  destruct (truthy home) as [h|]; [|by missing_field].
  destruct (truthy away) as [a|]; [|by missing_field].
  destruct (decide (is_Some (_matches !! i))) as [[s0 Hs0]|Hfree]; simpl.
  - split; [by right; right|]. split.
    { split; [done|]. intros Hx. break_hyps. congruence. }
    split; [split; [by eauto 10|done]|]. split; [intros; congruence|].
    intros j s Hj. split; [done|by apply Hdemo].
  - apply eq_None_not_Some in Hfree. split; [by left|].
    split; [split; [by eauto 10|done]|]. split.
    { split; [done|]. intros Hx. break_hyps. congruence. }
    split.
    + intros ? ? ? [= <-] [= <-] [= <-] _. split; [done|].
      unfold get_match. by rewrite lookup_insert_eq.
    + intros j s Hj. split; [|by apply Hdemo].
      rewrite lookup_insert_ne; [done|]. intros <-. congruence.
Qed.

(** ** The priors of a match *)

Lemma half_of_ten : Qc_of_Z 1 / Qc_of_Z 2 * Qc_of_nat 10 = Qc_of_Z 5.
Proof. apply Qc_is_canon. reflexivity. Qed.

Lemma half_pos : 0 < Qc_of_Z 1 / Qc_of_Z 2.
Proof. reflexivity. Qed.

(** X21. The priors by team of a match give, for a team with [n] events
    in the flat list, [k] of them of a given label, the probability
    [(k + 1/2) / (n + 5)] to that label, the probabilities of the ten
    labels summing to 1; a team with no event has no entry. *)
Theorem team_priors_formula (s : Store) (team_name : string) (et : EventType) :
  let mine := filter (λ ev, team ev = team_name) (event_objects s) in
  state_probs (event_type_priors_by_team s) !! team_name
  = (if decide (mine = []) then None
     else Some (probs (prior_from_events mine (Qc_of_Z 1 / Qc_of_Z 2))))
  ∧ (mine ≠ [] →
     ∃ d, state_probs (event_type_priors_by_team s) !! team_name = Some d
       ∧ d !! et = Some ((Qc_of_nat (occurrences et mine) + Qc_of_Z 1 / Qc_of_Z 2)
                         / (Qc_of_nat (length mine) + Qc_of_Z 5))
       ∧ sum_values d = 1).
Proof.
  intros mine.
  assert (state_probs (event_type_priors_by_team s) !! team_name
          = (if decide (mine = []) then None
             else Some (probs (prior_from_events mine (Qc_of_Z 1 / Qc_of_Z 2)))))
    as Heq.
  { unfold state_probs, event_type_priors_by_team.
    rewrite lookup_fmap, state_from_events_lookup. fold mine.
    by destruct (decide (mine = [])). }
  split; [done|]. intros Hne. rewrite Heq, decide_False by done.
  eexists. split; [done|]. split.
  - rewrite probs_lookup, prior_from_events_count. simpl.
    by rewrite posterior_prob_from_events, half_of_ten by apply half_pos.
  - apply probs_sum_nonempty. intros Hempty.
    destruct (prior_from_events_tracks_all mine (Qc_of_Z 1 / Qc_of_Z 2) PASS) as [x Hx].
    by rewrite Hempty, lookup_empty in Hx.
Qed.

Lemma team_priors_formula_witness :
  ∃ s, run (new_match "Team A" "Team B") demo_ops = Some s
    ∧ ∃ d, state_probs (event_type_priors_by_team s) !! "Team A" = Some d
        ∧ d !! PASS = Some (Qc_of_Z 7 / Qc_of_Z 16).
Proof.
  eexists. split; [vm_compute; reflexivity|].
  lazymatch goal with
  | |- ∃ d, state_probs (event_type_priors_by_team ?s) !! _ = _ ∧ _ =>
      assert (filter (λ ev, team ev = "Team A") (event_objects s) ≠ []) as Hne
        by (vm_compute; discriminate);
      destruct (proj2 (team_priors_formula s "Team A" PASS) Hne) as (d & Hd & Het & _)
  end.
  exists d. split; [done|]. rewrite Het.
  f_equal; try (apply Qc_is_canon; vm_compute; reflexivity).
Defined.

(** ** The order inside a possession *)




(** ** The two listings by label *)

Lemma filter_ext_in {A} (P Q : A → Prop) `{∀ x, Decision (P x)} `{∀ x, Decision (Q x)}
    (l : list A) :
  (∀ x, P x ↔ Q x) → filter P l = filter Q l.
Proof.
  intros Hpq. induction l as [|x l IH]; [done|]. rewrite !filter_cons, IH.
  destruct (decide (P x)) as [HP|HP], (decide (Q x)) as [HQ|HQ]; try done.
  - by apply Hpq in HP.
  - by apply Hpq in HQ.
Qed.

(** X23. [list_events] with only the [event_type] parameter, when that is
    not the empty string, answers as [list_events_by_type]: the events of
    that label in the order of the flat list, or 400 for a string that is
    not one of the ten values.  With the empty string it lists every
    event. *)
Theorem list_events_by_label (s : Store) (v : string) :
  list_events (Some v) None None None s
  = if decide (v = "") then Some (Match_iter_events s) else list_events_by_type v s.
Proof.
  unfold list_events, list_events_by_type, truthy.
  destruct (decide (v = "")) as [->|Hv]; [done|].
  destruct (EventType_of_value v) as [et|]; [|done]. simpl. f_equal.
  unfold events_by_type, Match_iter_events. apply filter_ext_in.
  intros e. unfold event_has. destruct (events s !! e) as [ev|]; [|done].
  by rewrite !bool_decide_spec, list_elem_of_singleton.
Qed.

(** ** [posterior_prob] over the whole enumeration *)

Lemma all_event_types_complete et : et ∈ all_event_types.
Proof. destruct et; unfold all_event_types; set_solver. Qed.

Lemma counts_size_le (c : gmap EventType Qc) : (size c ≤ 10)%nat.
Proof.
  rewrite <- length_map_to_list, <- (length_fmap fst).
  change 10%nat with (length all_event_types).
  apply submseteq_length, NoDup_submseteq; [apply NoDup_fst_map_to_list|].
  intros et _. apply all_event_types_complete.
Qed.

Lemma label_count_le p : (label_count p ≤ 10)%nat.
Proof. unfold label_count. case_decide; [done|apply counts_size_le]. Qed.

Lemma enum_sum_counts (c : gmap EventType Qc) :
  foldr (λ et acc, default 0 (c !! et) + acc) 0 all_event_types = sum_values c.
Proof.
  induction c as [|et v c Hc IH] using map_ind.
  - rewrite sum_values_empty. unfold all_event_types. cbn [foldr].
    rewrite !lookup_empty. simpl. ring.
  - rewrite sum_values_insert_fresh, <- IH by done.
    unfold all_event_types. cbn [foldr].
    destruct et; rewrite lookup_insert_eq, !lookup_insert_ne, Hc by done; simpl; ring.
Qed.

Lemma ten_ones : Qc_of_nat 10 = 1 + 1 + 1 + 1 + 1 + 1 + 1 + 1 + 1 + 1.
Proof. apply Qc_is_canon. reflexivity. Qed.

Lemma Qc_of_nat_inj n m : Qc_of_nat n = Qc_of_nat m → n = m.
Proof. unfold Qc_of_nat. intros Heq%Z2Qc_inj. lia. Qed.

Lemma posterior_prob_pos_mass p et :
  0 < total_mass p →
  posterior_prob p et = (default 0 (counts p !! et) + alpha p) / total_mass p.
Proof.
  intros HD. unfold posterior_prob. fold (total_mass p).
  by rewrite decide_False by (by apply Qclt_not_le).
Qed.

(** X24. For a prior with alpha > 0 and counts that are not negative, the
    values that [posterior_prob] gives to the ten labels sum to
    (sum of counts + 10 alpha) / total_mass, which is at least 1, and is 1
    exactly when the [K] of the formula is 10: when all ten labels are
    tracked, or none is.  With some but not all labels tracked the ten
    values sum to more than 1. *)
Theorem posterior_prob_total_one (p : EventTypePrior) :
  0 < alpha p →
  (∀ et c, counts p !! et = Some c → 0 ≤ c) →
  posterior_prob_total p
  = (sum_values (counts p) + alpha p * Qc_of_nat 10) / total_mass p
  ∧ 1 ≤ posterior_prob_total p
  ∧ (posterior_prob_total p = 1 ↔ label_count p = 10%nat).
Proof.
  intros Ha Hnn. pose proof (sum_values_nonneg _ Hnn) as HS.
  pose proof (label_count_le p) as HK.
  assert (0 < Qc_of_nat (label_count p)) as HKpos.
  { apply Qc_of_nat_pos. unfold label_count. case_decide; simpl; lia. }
  assert (0 < total_mass p) as HD.
  { unfold total_mass. apply Qcplus_nonneg_pos; [done|]. by apply Qcmult_pos_pos. }
  assert (total_mass p ≠ 0) as HD0 by (intros Hz; rewrite Hz in HD; by apply (Qclt_not_eq 0 0)).
  assert (posterior_prob_total p
          = (sum_values (counts p) + alpha p * Qc_of_nat 10) / total_mass p) as Htotal.
  { rewrite <- enum_sum_counts, ten_ones.
    unfold posterior_prob_total, all_event_types. cbn [foldr].
    rewrite !posterior_prob_pos_mass by done. field. done. }
  assert (total_mass p ≤ sum_values (counts p) + alpha p * Qc_of_nat 10) as Hle.
  { unfold total_mass. apply Qcplus_le_mono_l, Qcmult_le_mono_nonneg_l;
      [by apply Qclt_le_weak | by apply Qc_of_nat_le]. }
  split; [done|]. rewrite Htotal. split.
  - rewrite <- (Qcdiv_self (total_mass p)) at 1 by done. unfold Qcdiv.
    apply Qcmult_le_mono_nonneg_r; [|done]. by apply Qclt_le_weak, Qcinv_pos.
  - split.
    + intros H1.
      assert (sum_values (counts p) + alpha p * Qc_of_nat 10 = total_mass p) as Heq.
      { replace (sum_values (counts p) + alpha p * Qc_of_nat 10)
          with ((sum_values (counts p) + alpha p * Qc_of_nat 10) / total_mass p
                * total_mass p) by (field; done).
        rewrite H1. ring. }
      unfold total_mass in Heq. apply Qcplus_inj_r in Heq.
      symmetry. apply Qc_of_nat_inj.
      apply Qcle_antisym.
      * apply (Qcmult_le_mono_pos_l _ _ (alpha p)); [done|]. rewrite Heq. apply Qcle_refl.
      * apply (Qcmult_le_mono_pos_l _ _ (alpha p)); [done|]. rewrite Heq. apply Qcle_refl.
    + intros HK10.
      assert (total_mass p = sum_values (counts p) + alpha p * Qc_of_nat 10) as Hm
        by (unfold total_mass; by rewrite HK10).
      rewrite Hm in HD0 |- *. by apply Qcdiv_self.
Qed.

Lemma posterior_prob_total_one_witness :
  1 ≤ posterior_prob_total (mkEventTypePrior 1 {[ PASS := Qc_of_Z 3 ]})
  ∧ posterior_prob_total (mkEventTypePrior 1 {[ PASS := Qc_of_Z 3 ]}) ≠ 1.
Proof.
  destruct (posterior_prob_total_one (mkEventTypePrior 1 {[ PASS := Qc_of_Z 3 ]}))
    as (_ & Hge & Hiff).
  - reflexivity.
  - intros et c Hc. destruct et; vm_compute in Hc; try discriminate Hc.
    injection Hc as <-. vm_compute. discriminate.
  - split; [exact Hge|]. intros H1. apply Hiff in H1. vm_compute in H1. discriminate H1.
Defined.
